(** * Pattern Link Shortener: the matching and rendering engine (utils.ts)

    A shallow embedding of [decodeUrlString], [escapeDomainPattern],
    [validateOutputTemplate], [matchPattern] and [formatLink], together with
    the parts of the JavaScript runtime they call: strings as sequences of
    UTF-16 code units, exceptions, [RegExp], [String.prototype.replace],
    [trim], [includes] and [decodeURIComponent].  The other checks of
    utils.ts ([sanitizeDomain], [validateRegexPattern]), the table of
    presets.ts, the list operations and the edit dialog of settings-tab.ts
    and the paste handler of main.ts follow them.

    Regular expressions are those of ECMAScript 2018 without flags other
    than [g], with the grammar of Annex B: named groups, references by name
    and lookbehind are part of the model.  What later editions added to the
    pattern language, and group names outside ASCII, is marked
    [OutsideModel] instead of being given a meaning. *)

From Stdlib Require Import Ascii String List NArith Bool Arith Lia Permutation.
Import ListNotations.

Local Open Scope N_scope.

(** ** JavaScript strings and exceptions *)

(** A JavaScript string is a sequence of 16-bit code units. *)
Definition char := N.
Definition jsstring := list char.

Definition ch (a : ascii) : char := N_of_ascii a.
Definition str (s : string) : jsstring := map N_of_ascii (list_ascii_of_string s).

(** The exceptions the engine can meet.  [OutsideModel] is none of them:
    it marks a pattern whose meaning depends on the edition of the engine or
    on its Unicode tables (see the dialect below).  What the program does
    with such a pattern is left open: the mark goes through every function
    and no handler catches it. *)
Inductive error := SyntaxError | TypeError | URIError | OutsideModel.

(** A computation returns normally or throws. *)
Inductive result (A : Type) :=
| Ok (a : A)
| Throw (e : error).
Arguments Ok {A} a.
Arguments Throw {A} e.

Definition bind {A B} (c : result A) (f : A -> result B) : result B :=
  match c with
  | Ok a => f a
  | Throw e => Throw e
  end.

(** [try { c } catch { h }] *)
Definition try_catch {A} (c : result A) (h : error -> result A) : result A :=
  match c with
  | Ok a => Ok a
  | Throw OutsideModel => Throw OutsideModel
  | Throw e => h e
  end.

Notation "x <- c ;; k" := (bind c (fun x => k))
  (at level 61, c at next level, right associativity).

(** ** Character classes of the runtime *)

(** LineTerminator: LF, CR, LS, PS. *)
Definition is_line_terminator (c : char) : bool :=
  (c =? 10) || (c =? 13) || (c =? 8232) || (c =? 8233).

(** WhiteSpace and LineTerminator: what [\s] matches and [trim] strips. *)
Definition is_whitespace (c : char) : bool :=
  (c =? 9) || (c =? 10) || (c =? 11) || (c =? 12) || (c =? 13) || (c =? 32)
  || (c =? 160) || (c =? 5760) || ((8192 <=? c) && (c <=? 8202))
  || (c =? 8232) || (c =? 8233) || (c =? 8239) || (c =? 8287)
  || (c =? 12288) || (c =? 65279).

Definition is_digit (c : char) : bool := (48 <=? c) && (c <=? 57).

Definition is_word (c : char) : bool :=
  is_digit c || ((65 <=? c) && (c <=? 90)) || ((97 <=? c) && (c <=? 122))
  || (c =? 95).

(** ** Regular expressions: abstract syntax *)

Inductive cset :=
| CsChar (c : char)
| CsRange (lo hi : char)
| CsDigit (neg : bool)
| CsWord (neg : bool)
| CsSpace (neg : bool).

Inductive regex :=
| REmpty
| RChar (c : char)
| RAny
| RClass (neg : bool) (items : list cset)
| RSeq (r1 r2 : regex)
| RAlt (r1 r2 : regex)
| RGroup (i : nat) (r : regex)
| RQuant (min : nat) (max : option nat) (greedy : bool) (r : regex)
| RBol
| REol
| RWordB (neg : bool)
| RLook (neg : bool) (r : regex)
| RBackref (n : nat)
| RLookbehind (neg : bool) (r : regex).

Definition cset_mem (c : char) (s : cset) : bool :=
  match s with
  | CsChar a => c =? a
  | CsRange lo hi => (lo <=? c) && (c <=? hi)
  | CsDigit neg => xorb neg (is_digit c)
  | CsWord neg => xorb neg (is_word c)
  | CsSpace neg => xorb neg (is_whitespace c)
  end.

Definition class_mem (neg : bool) (items : list cset) (c : char) : bool :=
  xorb neg (existsb (cset_mem c) items).

(** The capturing groups that occur inside a term; a quantifier clears them
    at the start of every iteration. *)
Fixpoint groups_of (r : regex) : list nat :=
  match r with
  | RSeq a b | RAlt a b => groups_of a ++ groups_of b
  | RGroup i a => i :: groups_of a
  | RQuant _ _ _ a | RLook _ a | RLookbehind _ a => groups_of a
  | _ => []
  end.

(** ** Regular expressions: the backtracking matcher

    The matcher follows the continuation-passing semantics of ECMA-262
    (RegExp pattern semantics): a term is run on a state and a continuation,
    and the first success in priority order is the result. *)

Local Close Scope N_scope.
Local Open Scope nat_scope.

Record mstate := MState {
  pos : nat;                              (* endIndex *)
  rest : jsstring;                        (* the input from [pos] on *)
  caps : list (option (nat * nat))        (* group i at position i - 1 *)
}.

Definition cont := mstate -> option mstate.

Definition advance (x : mstate) (t : jsstring) : mstate :=
  MState (S (pos x)) t (caps x).

Fixpoint set_nth {A} (n : nat) (v : A) (l : list A) : list A :=
  match l, n with
  | [], _ => []
  | _ :: t, 0 => v :: t
  | a :: t, S n' => a :: set_nth n' v t
  end.

Definition set_cap (i : nat) (v : option (nat * nat)) (cs : list (option (nat * nat))) :=
  match i with
  | 0 => cs
  | S j => set_nth j v cs
  end.

Definition clear_caps (ids : list nat) (x : mstate) : mstate :=
  MState (pos x) (rest x) (fold_left (fun cs i => set_cap i None cs) ids (caps x)).

Definition get_cap (i : nat) (cs : list (option (nat * nat))) : option (nat * nat) :=
  match i with
  | 0 => None
  | S j => nth j cs None
  end.

Definition substring (s : jsstring) (from to : nat) : jsstring :=
  firstn (to - from) (skipn from s).

Fixpoint jseqb (a b : jsstring) : bool :=
  match a, b with
  | [], [] => true
  | x :: a', y :: b' => N.eqb x y && jseqb a' b'
  | _, _ => false
  end.

Definition word_at (input : jsstring) (i : nat) : bool :=
  match nth_error input i with
  | Some c => is_word c
  | None => false
  end.

(** RepeatMatcher: [mr] runs one iteration of the quantified term, [ids] are
    its capturing groups.  An iteration that is not among the first [mn]
    and consumes nothing fails, so every round either lowers [mn] or
    shortens the remaining input, and [mn] plus the remaining length, plus
    one, bounds the number of rounds: [fuel] starts there. *)
Fixpoint repeat_matcher (mr : mstate -> cont -> option mstate) (ids : list nat)
    (greedy : bool) (k : cont) (fuel mn : nat) (mx : option nat) (x : mstate)
    {struct fuel} : option mstate :=
  match fuel with
  | 0 => None
  | S fuel' =>
      match mx with
      | Some 0 => k x
      | _ =>
          let d := fun y : mstate =>
            if Nat.eqb mn 0 && Nat.eqb (pos y) (pos x) then None
            else repeat_matcher mr ids greedy k fuel' (Nat.pred mn)
                   (option_map Nat.pred mx) y in
          let xr := clear_caps ids x in
          match mn with
          | S _ => mr xr d
          | 0 =>
              if greedy then
                match mr xr d with
                | Some z => Some z
                | None => k x
                end
              else
                match k x with
                | Some z => Some z
                | None => mr xr d
                end
          end
      end
  end.

Section Matcher.

Variable input : jsstring.

(** The code unit before the position of [x], and the state one step back. *)
Definition back (x : mstate) : option (char * mstate) :=
  match pos x with
  | 0 => None
  | S p =>
      match nth_error input p with
      | Some a => Some (a, MState p (a :: rest x) (caps x))
      | None => None
      end
  end.

(** [m] matches forward; [mb] matches backward, as the terms inside a
    lookbehind do: a sequence from its last term to its first, a code unit
    before the position, a group from its end to its start. *)
Fixpoint m (r : regex) (x : mstate) (k : cont) {struct r} : option mstate :=
  match r with
  | REmpty => k x
  | RChar c =>
      match rest x with
      | a :: t => if N.eqb a c then k (advance x t) else None
      | [] => None
      end
  | RAny =>
      match rest x with
      | a :: t => if is_line_terminator a then None else k (advance x t)
      | [] => None
      end
  | RClass neg items =>
      match rest x with
      | a :: t => if class_mem neg items a then k (advance x t) else None
      | [] => None
      end
  | RSeq r1 r2 => m r1 x (fun y => m r2 y k)
  | RAlt r1 r2 =>
      match m r1 x k with
      | Some z => Some z
      | None => m r2 x k
      end
  | RGroup i r1 =>
      m r1 x (fun y => k (MState (pos y) (rest y)
                            (set_cap i (Some (pos x, pos y)) (caps y))))
  | RQuant mn mx greedy r1 =>
      repeat_matcher (m r1) (groups_of r1) greedy k
        (S (mn + length (rest x))) mn mx x
  | RBol => if Nat.eqb (pos x) 0 then k x else None
  | REol => match rest x with [] => k x | _ :: _ => None end
  | RWordB neg =>
      let a := match pos x with 0 => false | S p => word_at input p end in
      let b := match rest x with c :: _ => is_word c | [] => false end in
      if xorb neg (xorb a b) then k x else None
  | RLook neg r1 =>
      match m r1 x (fun y => Some y) with
      | Some y => if neg then None else k (MState (pos x) (rest x) (caps y))
      | None => if neg then k x else None
      end
  | RBackref n =>
      match get_cap n (caps x) with
      | None => k x
      | Some (s, e) =>
          let sub := substring input s e in
          let len := length sub in
          if jseqb (firstn len (rest x)) sub
          then k (MState (pos x + len) (skipn len (rest x)) (caps x))
          else None
      end
  | RLookbehind neg r1 =>
      match mb r1 x (fun y => Some y) with
      | Some y => if neg then None else k (MState (pos x) (rest x) (caps y))
      | None => if neg then k x else None
      end
  end
with mb (r : regex) (x : mstate) (k : cont) {struct r} : option mstate :=
  match r with
  | REmpty => k x
  | RChar c =>
      match back x with
      | Some (a, y) => if N.eqb a c then k y else None
      | None => None
      end
  | RAny =>
      match back x with
      | Some (a, y) => if is_line_terminator a then None else k y
      | None => None
      end
  | RClass neg items =>
      match back x with
      | Some (a, y) => if class_mem neg items a then k y else None
      | None => None
      end
  | RSeq r1 r2 => mb r2 x (fun y => mb r1 y k)
  | RAlt r1 r2 =>
      match mb r1 x k with
      | Some z => Some z
      | None => mb r2 x k
      end
  | RGroup i r1 =>
      mb r1 x (fun y => k (MState (pos y) (rest y)
                             (set_cap i (Some (pos y, pos x)) (caps y))))
  | RQuant mn mx greedy r1 =>
      repeat_matcher (mb r1) (groups_of r1) greedy k
        (S (mn + pos x)) mn mx x
  | RBol => if Nat.eqb (pos x) 0 then k x else None
  | REol => match rest x with [] => k x | _ :: _ => None end
  | RWordB neg =>
      let a := match pos x with 0 => false | S p => word_at input p end in
      let b := match rest x with c :: _ => is_word c | [] => false end in
      if xorb neg (xorb a b) then k x else None
  | RLook neg r1 =>
      match m r1 x (fun y => Some y) with
      | Some y => if neg then None else k (MState (pos x) (rest x) (caps y))
      | None => if neg then k x else None
      end
  | RBackref n =>
      match get_cap n (caps x) with
      | None => k x
      | Some (s, e) =>
          let sub := substring input s e in
          let len := length sub in
          if Nat.leb len (pos x) && jseqb (substring input (pos x - len) (pos x)) sub
          then k (MState (pos x - len) (sub ++ rest x) (caps x))
          else None
      end
  | RLookbehind neg r1 =>
      match mb r1 x (fun y => Some y) with
      | Some y => if neg then None else k (MState (pos x) (rest x) (caps y))
      | None => if neg then k x else None
      end
  end.

(** One attempt at index [i], where [suffix] is the input from [i] on. *)
Definition match_at (r : regex) (ngroups i : nat) (suffix : jsstring) : option mstate :=
  m r (MState i suffix (repeat None ngroups)) (fun y => Some y).

(** The search loop of RegExpBuiltinExec (no sticky flag): the first index,
    from [i] on, at which an attempt succeeds. *)
Fixpoint search_from (r : regex) (ngroups i : nat) (suffix : jsstring)
  : option (nat * mstate) :=
  match match_at r ngroups i suffix with
  | Some y => Some (i, y)
  | None =>
      match suffix with
      | [] => None
      | _ :: t => search_from r ngroups (S i) t
      end
  end.

End Matcher.

(** ** Regular expressions: from pattern text to abstract syntax

    The dialect is that of ECMA-262 with the web-compatibility grammar of
    its Annex B, for patterns compiled without flags, as the editions from
    the 9th (2018) on have it: a brace that does not form a quantifier, a
    lone closing bracket or brace, and an escaped letter without a meaning
    stand for themselves; a decimal escape is a back-reference when the
    pattern has that many groups and a legacy octal escape otherwise; groups
    can be named and referred to by name, and assertions look behind as well
    as ahead.  Three things are left open, with [OutsideModel], because
    engines differ on them: a group name with a code unit outside ASCII or an
    escape in it, which the Unicode tables of the engine decide; two groups
    of the same name, and a group that starts with modifiers, which only the
    16th edition admits. *)

Local Open Scope N_scope.

Inductive gkind :=
| GCapture
| GNonCapture
| GLookahead (neg : bool)
| GLookbehind (neg : bool)
| GNamed (name : jsstring).

(** What a piece of text means in a pattern that has named groups, where
    [\k] starts a reference by name and nothing else. *)
Inductive named_mode :=
| NRef (name : jsstring)
| NError (e : error).

(** [TModal plain named]: text that reads as the terms [plain] in a pattern
    without named groups and as [named] in a pattern with named groups. *)
Inductive token :=
| TTerm (r : regex)
| TOpen (k : gkind)
| TClose
| TBar
| TQuant (min : nat) (max : option nat) (greedy : bool)
| TModal (plain : list regex) (named : named_mode).

Definition is_octal (c : char) : bool := (48 <=? c) && (c <=? 55).

Definition is_ascii_letter (c : char) : bool :=
  ((65 <=? c) && (c <=? 90)) || ((97 <=? c) && (c <=? 122)).

Definition hex_val (c : char) : option N :=
  if is_digit c then Some (c - 48)
  else if (65 <=? c) && (c <=? 70) then Some (c - 55)
  else if (97 <=? c) && (c <=? 102) then Some (c - 87)
  else None.

(** The value and the number of the leading decimal digits of [t]. *)
Fixpoint read_digits (acc : nat) (t : jsstring) : nat * nat :=
  match t with
  | c :: t' =>
      if is_digit c then
        let '(v, n) := read_digits (10 * acc + N.to_nat (c - 48)) t' in (v, S n)
      else (acc, 0%nat)
  | [] => (acc, 0%nat)
  end.

(** LegacyOctalEscapeSequence, [c] being its first digit. *)
Definition octal_escape (c : char) (t : jsstring) : char * nat :=
  let d1 := c - 48 in
  match t with
  | c2 :: t2 =>
      if is_octal c2 then
        let d2 := c2 - 48 in
        match t2 with
        | c3 :: _ =>
            if (d1 <=? 3) && is_octal c3 then (d1 * 64 + d2 * 8 + (c3 - 48), 3%nat)
            else (d1 * 8 + d2, 2%nat)
        | [] => (d1 * 8 + d2, 2%nat)
        end
      else (d1, 1%nat)
  | [] => (d1, 1%nat)
  end.

(** CharacterEscape: the code unit denoted by [\c...] and the number of
    code units after the backslash that belong to it. *)
Definition char_escape (c : char) (t : jsstring) : char * nat :=
  if c =? ch "t" then (9, 1%nat)
  else if c =? ch "n" then (10, 1%nat)
  else if c =? ch "v" then (11, 1%nat)
  else if c =? ch "f" then (12, 1%nat)
  else if c =? ch "r" then (13, 1%nat)
  else if is_octal c then octal_escape c t
  else if c =? ch "x" then
    match t with
    | h1 :: h2 :: _ =>
        match hex_val h1, hex_val h2 with
        | Some a, Some b => (a * 16 + b, 3%nat)
        | _, _ => (c, 1%nat)
        end
    | _ => (c, 1%nat)
    end
  else if c =? ch "u" then
    match t with
    | h1 :: h2 :: h3 :: h4 :: _ =>
        match hex_val h1, hex_val h2, hex_val h3, hex_val h4 with
        | Some a, Some b, Some c', Some d => (((a * 16 + b) * 16 + c') * 16 + d, 5%nat)
        | _, _, _, _ => (c, 1%nat)
        end
    | _ => (c, 1%nat)
    end
  else (c, 1%nat).

(** CharacterClassEscape *)
Definition class_escape (c : char) : option cset :=
  if c =? ch "d" then Some (CsDigit false)
  else if c =? ch "D" then Some (CsDigit true)
  else if c =? ch "s" then Some (CsSpace false)
  else if c =? ch "S" then Some (CsSpace true)
  else if c =? ch "w" then Some (CsWord false)
  else if c =? ch "W" then Some (CsWord true)
  else None.

(** *** Character classes *)

Inductive catom :=
| CADash                      (* an unescaped [-] *)
| CAChar (c : char)
| CASet (s : cset)
| CAKEscape.                  (* [\k], the letter in a pattern without named groups *)

(** One ClassAtom starting with [c]; the number is that of the further code
    units it takes from [t]. *)
Definition class_atom1 (c : char) (t : jsstring) : result (catom * nat) :=
  if c =? ch "-" then Ok (CADash, 0%nat)
  else if c =? ch "\" then
    match t with
    | [] => Throw SyntaxError
    | e :: t1 =>
        match class_escape e with
        | Some s => Ok (CASet s, 1%nat)
        | None =>
            if e =? ch "b" then Ok (CAChar 8, 1%nat)
            else if e =? ch "k" then Ok (CAKEscape, 1%nat)
            else if e =? ch "c" then
              match t1 with
              | l :: _ =>
                  if is_ascii_letter l || is_digit l || (l =? ch "_")
                  then Ok (CAChar (l mod 32), 2%nat)
                  else Ok (CAChar c, 0%nat)
              | [] => Ok (CAChar c, 0%nat)
              end
            else let '(code, n) := char_escape e t1 in Ok (CAChar code, n)
        end
    end
  else Ok (CAChar c, 0%nat).

(** The atoms up to the closing bracket, and the number of code units read,
    the bracket included. *)
Fixpoint class_atoms (skip : nat) (t : jsstring) : result (list catom * nat) :=
  match t with
  | [] => Throw SyntaxError
  | c :: t' =>
      match skip with
      | S n => r <- class_atoms n t' ;; Ok (fst r, S (snd r))
      | O =>
          if c =? ch "]" then Ok ([], 1%nat)
          else
            a <- class_atom1 c t' ;;
            r <- class_atoms (snd a) t' ;;
            Ok (fst a :: fst r, S (snd r))
      end
  end.

Definition catom_item (a : catom) : cset :=
  match a with
  | CADash => CsChar (ch "-")
  | CAChar c => CsChar c
  | CASet s => s
  | CAKEscape => CsChar (ch "k")
  end.

Definition catom_char (a : catom) : option char :=
  match a with
  | CADash => Some (ch "-")
  | CAChar c => Some c
  | CASet _ => None
  | CAKEscape => Some (ch "k")
  end.

(** ClassRanges: [a-b] is a range when both ends are single code units (an
    error when out of order), and the three items otherwise. *)
Fixpoint class_ranges (l : list catom) : result (list cset) :=
  match l with
  | [] => Ok []
  | a :: l1 =>
      match l1 with
      | CADash :: b :: l2 =>
          items <- class_ranges l2 ;;
          match catom_char a, catom_char b with
          | Some lo, Some hi =>
              if lo <=? hi then Ok (CsRange lo hi :: items) else Throw SyntaxError
          | _, _ => Ok (catom_item a :: CsChar (ch "-") :: catom_item b :: items)
          end
      | _ => items <- class_ranges l1 ;; Ok (catom_item a :: items)
      end
  end.

Definition scan_class (t : jsstring) : result (regex * nat) :=
  let '(neg, t0, n0) :=
    match t with
    | c :: t' => if c =? ch "^" then (true, t', 1%nat) else (false, t, 0%nat)
    | [] => (false, t, 0%nat)
    end in
  r <- class_atoms 0 t0 ;;
  items <- class_ranges (fst r) ;;
  Ok (RClass neg items, (n0 + snd r)%nat).

Definition is_kescape (a : catom) : bool :=
  match a with
  | CAKEscape => true
  | _ => false
  end.

(** Whether the class that starts [t] holds an escaped [k]. *)
Definition class_kescape (t : jsstring) : bool :=
  let t0 :=
    match t with
    | c :: t' => if c =? ch "^" then t' else t
    | [] => t
    end in
  match class_atoms 0 t0 with
  | Ok r => existsb is_kescape (fst r)
  | Throw _ => false
  end.

(** *** Group names *)

Definition is_id_start (c : char) : bool :=
  is_ascii_letter c || (c =? ch "$") || (c =? ch "_").

Definition is_id_part (c : char) : bool := is_id_start c || is_digit c.

(** A code unit with which a name can go on outside ASCII: one above 127,
    or the backslash of an escape. *)
Definition beyond_ascii (c : char) : bool := (128 <=? c) || (c =? ch "\").

Fixpoint id_prefix (t : jsstring) : jsstring :=
  match t with
  | c :: t' => if is_id_part c then c :: id_prefix t' else []
  | [] => []
  end.

Inductive name_result :=
| NameOk (name : jsstring)
| NameBeyond
| NameBad.

(** GroupName, [t] being what follows its opening angle bracket. *)
Definition group_name (t : jsstring) : name_result :=
  match t with
  | c :: _ =>
      if is_id_start c then
        let name := id_prefix t in
        match skipn (length name) t with
        | d :: _ =>
            if d =? ch ">" then NameOk name
            else if beyond_ascii d then NameBeyond
            else NameBad
        | [] => NameBad
        end
      else if beyond_ascii c then NameBeyond
      else NameBad
  | [] => NameBad
  end.

(** The terms that the code units of a name are when they are no name. *)
Definition name_term (c : char) : regex :=
  if c =? ch "$" then REol else RChar c.

(** *** Tokens *)

(** [{n}], [{n,}] or [{n,m}] after the opening brace: the bounds and the
    number of code units read, the closing brace included. *)
Definition brace (t : jsstring) : option (nat * option nat * nat) :=
  let '(mn, n1) := read_digits 0 t in
  if Nat.eqb n1 0 then None
  else
    match skipn n1 t with
    | c :: t1 =>
        if c =? ch "}" then Some (mn, Some mn, S n1)
        else if c =? ch "," then
          let '(mx, n2) := read_digits 0 t1 in
          match skipn n2 t1 with
          | d :: _ =>
              if d =? ch "}"
              then Some (mn, if Nat.eqb n2 0 then None else Some mx, S (S (n1 + n2)))
              else None
          | [] => None
          end
        else None
    | [] => None
    end.

(** A quantifier is lazy when a question mark follows it. *)
Definition quant (mn : nat) (mx : option nat) (n : nat) (t : jsstring) : token * nat :=
  match skipn n t with
  | c :: _ => if c =? ch "?" then (TQuant mn mx false, S n) else (TQuant mn mx true, n)
  | [] => (TQuant mn mx true, n)
  end.

(** The letters of the modifiers of a group. *)
Definition is_modifier (c : char) : bool :=
  (c =? ch "i") || (c =? ch "m") || (c =? ch "s") || (c =? ch "-").

Definition lex_open (t : jsstring) : result (token * nat) :=
  match t with
  | q :: t1 =>
      if q =? ch "?" then
        match t1 with
        | k :: t2 =>
            if k =? ch ":" then Ok (TOpen GNonCapture, 2%nat)
            else if k =? ch "=" then Ok (TOpen (GLookahead false), 2%nat)
            else if k =? ch "!" then Ok (TOpen (GLookahead true), 2%nat)
            else if k =? ch "<" then
              match t2 with
              | l :: _ =>
                  if l =? ch "=" then Ok (TOpen (GLookbehind false), 3%nat)
                  else if l =? ch "!" then Ok (TOpen (GLookbehind true), 3%nat)
                  else
                    match group_name t2 with
                    | NameOk name => Ok (TOpen (GNamed name), (3 + length name)%nat)
                    | NameBeyond => Throw OutsideModel
                    | NameBad => Throw SyntaxError
                    end
              | [] => Throw SyntaxError
              end
            else if is_modifier k then Throw OutsideModel
            else Throw SyntaxError
        | [] => Throw SyntaxError
        end
      else Ok (TOpen GCapture, 0%nat)
  | [] => Ok (TOpen GCapture, 0%nat)
  end.

(** [\k], [t] being what follows the letter: a reference when a name
    follows, and the letter alone otherwise; in a pattern without named
    groups it is the letter, and the name is text. *)
Definition lex_kescape (t : jsstring) : token * nat :=
  match t with
  | l :: t1 =>
      if l =? ch "<" then
        match group_name t1 with
        | NameOk name =>
            (TModal (RChar (ch "k") :: RChar (ch "<") :: map name_term name ++ [RChar (ch ">")])
               (NRef name),
             (3 + length name)%nat)
        | NameBeyond => (TModal [RChar (ch "k")] (NError OutsideModel), 1%nat)
        | NameBad => (TModal [RChar (ch "k")] (NError SyntaxError), 1%nat)
        end
      else (TModal [RChar (ch "k")] (NError SyntaxError), 1%nat)
  | [] => (TModal [RChar (ch "k")] (NError SyntaxError), 1%nat)
  end.

(** AtomEscape, [t] being what follows the backslash; [ng] is the number of
    capturing groups of the whole pattern. *)
Definition lex_escape (ng : nat) (t : jsstring) : result (token * nat) :=
  match t with
  | [] => Throw SyntaxError
  | c :: t1 =>
      match class_escape c with
      | Some s => Ok (TTerm (RClass false [s]), 1%nat)
      | None =>
          if c =? ch "b" then Ok (TTerm (RWordB false), 1%nat)
          else if c =? ch "B" then Ok (TTerm (RWordB true), 1%nat)
          else if c =? ch "c" then
            match t1 with
            | l :: _ =>
                if is_ascii_letter l then Ok (TTerm (RChar (l mod 32)), 2%nat)
                else Ok (TTerm (RChar (ch "\")), 0%nat)
            | [] => Ok (TTerm (RChar (ch "\")), 0%nat)
            end
          else if c =? ch "k" then Ok (lex_kescape t1)
          else
            let '(v, n) := read_digits 0 t in
            if is_digit c && negb (c =? ch "0") && (v <=? ng)%nat
            then Ok (TTerm (RBackref v), n)
            else let '(code, n') := char_escape c t1 in Ok (TTerm (RChar code), n')
      end
  end.

(** The token that starts with [c], and the number of further code units
    it takes from [t]. *)
Definition lex1 (ng : nat) (c : char) (t : jsstring) : result (token * nat) :=
  if c =? ch "\" then lex_escape ng t
  else if c =? ch "[" then
    r <- scan_class t ;;
    Ok (if class_kescape t then TModal [fst r] (NError SyntaxError) else TTerm (fst r), snd r)
  else if c =? ch "(" then lex_open t
  else if c =? ch ")" then Ok (TClose, 0%nat)
  else if c =? ch "|" then Ok (TBar, 0%nat)
  else if c =? ch "*" then Ok (quant 0 None 0 t)
  else if c =? ch "+" then Ok (quant 1 None 0 t)
  else if c =? ch "?" then Ok (quant 0 (Some 1%nat) 0 t)
  else if c =? ch "{" then
    match brace t with
    | Some (mn, mx, n) => Ok (quant mn mx n t)
    | None => Ok (TTerm (RChar c), 0%nat)
    end
  else if c =? ch "^" then Ok (TTerm RBol, 0%nat)
  else if c =? ch "$" then Ok (TTerm REol, 0%nat)
  else if c =? ch "." then Ok (TTerm RAny, 0%nat)
  else Ok (TTerm (RChar c), 0%nat).

(** The tokens of a pattern; [skip] code units are still part of the token
    read last. *)
Fixpoint lex (ng skip : nat) (cs : jsstring) : result (list token) :=
  match cs with
  | [] => Ok []
  | c :: t =>
      match skip with
      | S n => lex ng n t
      | O =>
          a <- lex1 ng c t ;;
          toks <- lex ng (snd a) t ;;
          Ok (fst a :: toks)
      end
  end.

Local Close Scope N_scope.

(** *** Terms *)

Definition seq_of (ts : list regex) : regex := fold_right RSeq REmpty ts.

Fixpoint alt_of (l : list regex) : regex :=
  match l with
  | [] => REmpty
  | [a] => a
  | a :: l' => RAlt a (alt_of l')
  end.

(** The disjunction read so far: finished alternatives and the terms of the
    current one, both latest first. *)
Definition close_frame (alts cur : list regex) : regex :=
  alt_of (rev (seq_of (rev cur) :: alts)).

Inductive fkind :=
| FCapture (i : nat)
| FNonCapture
| FLook (neg : bool)
| FLookbehind (neg : bool).

Definition wrap (k : fkind) (r : regex) : regex :=
  match k with
  | FCapture i => RGroup i r
  | FNonCapture => r
  | FLook neg => RLook neg r
  | FLookbehind neg => RLookbehind neg r
  end.

(** Assertions other than lookaheads, and quantified terms, take no
    quantifier. *)
Definition quantifiable (r : regex) : bool :=
  match r with
  | RBol | REol | RWordB _ | RQuant _ _ _ _ | RLookbehind _ _ => false
  | _ => true
  end.

Definition bounds_ok (mn : nat) (mx : option nat) : bool :=
  match mx with
  | Some b => mn <=? b
  | None => true
  end.

Fixpoint parse (toks : list token) (next : nat) (alts cur : list regex)
    (stack : list (fkind * list regex * list regex)) : result regex :=
  match toks with
  | [] =>
      match stack with
      | [] => Ok (close_frame alts cur)
      | _ :: _ => Throw SyntaxError
      end
  | tok :: toks' =>
      match tok with
      | TTerm r => parse toks' next alts (r :: cur) stack
      | TQuant mn mx g =>
          match cur with
          | a :: cur' =>
              if quantifiable a && bounds_ok mn mx
              then parse toks' next alts (RQuant mn mx g a :: cur') stack
              else Throw SyntaxError
          | [] => Throw SyntaxError
          end
      | TBar => parse toks' next (seq_of (rev cur) :: alts) [] stack
      | TOpen GCapture | TOpen (GNamed _) =>
          parse toks' (S next) [] [] ((FCapture next, alts, cur) :: stack)
      | TOpen GNonCapture => parse toks' next [] [] ((FNonCapture, alts, cur) :: stack)
      | TOpen (GLookahead neg) => parse toks' next [] [] ((FLook neg, alts, cur) :: stack)
      | TOpen (GLookbehind neg) =>
          parse toks' next [] [] ((FLookbehind neg, alts, cur) :: stack)
      | TModal _ _ => Throw SyntaxError
      | TClose =>
          match stack with
          | [] => Throw SyntaxError
          | (k, alts0, cur0) :: stack' =>
              parse toks' next alts0 (wrap k (close_frame alts cur) :: cur0) stack'
          end
      end
  end.

Definition is_capture (t : token) : bool :=
  match t with
  | TOpen GCapture | TOpen (GNamed _) => true
  | _ => false
  end.

Definition count_groups (toks : list token) : nat :=
  List.length (filter is_capture toks).

(** *** Names *)

Definition group_names (toks : list token) : list jsstring :=
  flat_map (fun t => match t with TOpen (GNamed n) => [n] | _ => [] end) toks.

Fixpoint has_duplicate (l : list jsstring) : bool :=
  match l with
  | [] => false
  | a :: l' => existsb (jseqb a) l' || has_duplicate l'
  end.

(** The number of the group called [name], [next] being the number of the
    next group of [toks]. *)
Fixpoint name_index (name : jsstring) (toks : list token) (next : nat) : option nat :=
  match toks with
  | [] => None
  | TOpen GCapture :: toks' => name_index name toks' (S next)
  | TOpen (GNamed n) :: toks' =>
      if jseqb n name then Some next else name_index name toks' (S next)
  | _ :: toks' => name_index name toks' next
  end.

(** The tokens of [tok] once it is known whether the pattern, whose tokens
    are [all], has named groups. *)
Definition resolve1 (named : bool) (all : list token) (tok : token) : result (list token) :=
  match tok with
  | TModal plain nm =>
      if named then
        match nm with
        | NRef name =>
            match name_index name all 1 with
            | Some i => Ok [TTerm (RBackref i)]
            | None => Throw SyntaxError
            end
        | NError e => Throw e
        end
      else Ok (map TTerm plain)
  | _ => Ok [tok]
  end.

Fixpoint resolve_all (named : bool) (all toks : list token) : result (list token) :=
  match toks with
  | [] => Ok []
  | tok :: toks' =>
      a <- resolve1 named all tok ;;
      r <- resolve_all named all toks' ;;
      Ok (a ++ r)
  end.

Definition resolve (toks : list token) : result (list token) :=
  let names := group_names toks in
  if has_duplicate names then Throw OutsideModel
  else resolve_all (negb (Nat.eqb (List.length names) 0)) toks toks.

(** ** The RegExp object *)

Record RegExp := mkRegExp {
  re_ast : regex;
  re_ngroups : nat;
  re_global : bool
}.

(** [new RegExp(pattern)] and [new RegExp(pattern, 'g')] *)
Definition RegExp_new (pattern : jsstring) (global : bool) : result RegExp :=
  toks0 <- lex 0 0 pattern ;;
  let ng := count_groups toks0 in
  toks <- lex ng 0 pattern ;;
  toks' <- resolve toks ;;
  r <- parse toks' 1 [] [] [] ;;
  Ok (mkRegExp r ng global).

(** The match array of [exec]: the whole match, then one entry per group,
    [None] standing for [undefined]. *)
Definition match_array (input : jsstring) (start : nat) (y : mstate)
  : list (option jsstring) :=
  Some (substring input start (pos y))
  :: map (fun c => match c with
                   | Some (s, e) => Some (substring input s e)
                   | None => None
                   end) (caps y).

(** [RegExp.prototype.exec] with [lastIndex] 0 *)
Definition RegExp_exec (re : RegExp) (s : jsstring) : option (list (option jsstring)) :=
  match search_from s (re_ast re) (re_ngroups re) 0 s with
  | Some (i, y) => Some (match_array s i y)
  | None => None
  end.

(** [RegExp.prototype.test] *)
Definition RegExp_test (re : RegExp) (s : jsstring) : bool :=
  match RegExp_exec re s with
  | Some _ => true
  | None => false
  end.

(** [String.prototype.match] with a regular expression without [g] *)
Definition String_match (s : jsstring) (re : RegExp) : option (list (option jsstring)) :=
  RegExp_exec re s.

(** ** String methods *)

Local Open Scope N_scope.

(** GetSubstitution: the expansion of a replacement text for one match.
    [prefix] and [suffix] are the input before and after the match, and
    [captures] the groups 1, 2, ... of the match.  A dollar sign before an
    angle bracket refers to a group by name only when the expression has
    named groups; every expression that the program hands to [replace] is a
    literal or is built from a decimal number, and has none, so that reading
    is left out. *)
Fixpoint get_substitution (matched prefix suffix : jsstring)
    (captures : list (option jsstring)) (tpl : jsstring) : jsstring :=
  let capture i :=
    match nth (i - 1) captures None with
    | Some v => v
    | None => []
    end in
  let groups := List.length captures in
  match tpl with
  | [] => []
  | c :: t =>
      if c =? ch "$" then
        match t with
        | [] => [c]
        | d :: t1 =>
            if d =? ch "$" then
              c :: get_substitution matched prefix suffix captures t1
            else if d =? ch "&" then
              matched ++ get_substitution matched prefix suffix captures t1
            else if d =? ch "`" then
              prefix ++ get_substitution matched prefix suffix captures t1
            else if d =? ch "'" then
              suffix ++ get_substitution matched prefix suffix captures t1
            else if is_digit d then
              let i1 := N.to_nat (d - 48) in
              let one :=
                if ((1 <=? i1) && (i1 <=? groups))%nat
                then capture i1 ++ get_substitution matched prefix suffix captures t1
                else c :: d :: get_substitution matched prefix suffix captures t1 in
              match t1 with
              | d2 :: t2 =>
                  if is_digit d2 then
                    let i2 := (10 * i1 + N.to_nat (d2 - 48))%nat in
                    if (i2 <=? groups)%nat then
                      if (1 <=? i2)%nat
                      then capture i2 ++ get_substitution matched prefix suffix captures t2
                      else c :: d :: d2 :: get_substitution matched prefix suffix captures t2
                    else one
                  else one
              | [] => one
              end
            else c :: get_substitution matched prefix suffix captures t
        end
      else c :: get_substitution matched prefix suffix captures t
  end.

Local Close Scope N_scope.

(** The replacement for the match that starts at [i] and ends in state [y]. *)
Definition replacement_at (s : jsstring) (i : nat) (y : mstate) (repl : jsstring) : jsstring :=
  match match_array s i y with
  | Some matched :: captures =>
      get_substitution matched (firstn i s) (skipn (pos y) s) captures repl
  | _ => []
  end.

(** The loop of [replace] for a global regular expression, one code unit of
    the input at a time: [suffix] is the input from [i] on, and its first
    [skip] code units belong to the match replaced last.  After an empty
    match the search resumes one code unit further. *)
Fixpoint replace_all_from (s : jsstring) (re : RegExp) (repl : jsstring)
    (i skip : nat) (suffix : jsstring) {struct suffix} : jsstring :=
  match skip with
  | S n =>
      match suffix with
      | [] => []
      | _ :: t => replace_all_from s re repl (S i) n t
      end
  | O =>
      match match_at s (re_ast re) (re_ngroups re) i suffix with
      | Some y =>
          replacement_at s i y repl ++
          match suffix with
          | [] => []
          | c :: t =>
              if Nat.eqb (pos y) i then c :: replace_all_from s re repl (S i) 0 t
              else replace_all_from s re repl (S i) (pos y - i - 1) t
          end
      | None =>
          match suffix with
          | [] => []
          | c :: t => c :: replace_all_from s re repl (S i) 0 t
          end
      end
  end.

(** [String.prototype.replace] with a regular expression and a replacement
    text: every match when the expression is global, the first one
    otherwise. *)
Definition String_replace (s : jsstring) (re : RegExp) (repl : jsstring) : jsstring :=
  if re_global re then replace_all_from s re repl 0 0 s
  else
    match search_from s (re_ast re) (re_ngroups re) 0 s with
    | Some (i, y) => firstn i s ++ replacement_at s i y repl ++ skipn (pos y) s
    | None => s
    end.

Fixpoint trim_start (s : jsstring) : jsstring :=
  match s with
  | c :: t => if is_whitespace c then trim_start t else s
  | [] => []
  end.

(** [String.prototype.trim] *)
Definition String_trim (s : jsstring) : jsstring :=
  rev (trim_start (rev (trim_start s))).

Fixpoint starts_with (s sub : jsstring) {struct sub} : bool :=
  match sub, s with
  | [], _ => true
  | b :: sub', a :: s' => N.eqb a b && starts_with s' sub'
  | _ :: _, [] => false
  end.

(** [String.prototype.includes] *)
Fixpoint String_includes (s sub : jsstring) : bool :=
  starts_with s sub ||
  match s with
  | [] => false
  | _ :: t => String_includes t sub
  end.

(** A string is falsy exactly when it is empty. *)
Definition falsy (s : jsstring) : bool :=
  match s with
  | [] => true
  | _ :: _ => false
  end.

(** ** decodeURIComponent

    Decode of ECMA-262 with an empty reserved set: every [%XX] is an octet,
    octets above 127 must form the UTF-8 encoding of a code point, and the
    code point is written in UTF-16. *)

Local Open Scope N_scope.

Definition hex_octet (t : jsstring) : option N :=
  match t with
  | h1 :: h2 :: _ =>
      match hex_val h1, hex_val h2 with
      | Some a, Some b => Some (a * 16 + b)
      | _, _ => None
      end
  | _ => None
  end.

(** The data bits of the continuation octet written [%XX] at the head of [t]. *)
Definition cont_octet (t : jsstring) : option N :=
  match t with
  | p :: t' =>
      if p =? ch "%" then
        match hex_octet t' with
        | Some b => if (128 <=? b) && (b <=? 191) then Some (b - 128) else None
        | None => None
        end
      else None
  | [] => None
  end.

Definition utf16_encode (v : N) : jsstring :=
  if v <? 65536 then [v]
  else [55296 + (v - 65536) / 1024; 56320 + (v - 65536) mod 1024].

(** The code point is in [lo, 0x10FFFF], and no surrogate: shorter encodings
    and surrogates are not well-formed UTF-8. *)
Definition scalar_from (lo v : N) : bool :=
  (lo <=? v) && (v <=? 1114111) && negb ((55296 <=? v) && (v <=? 57343)).

(** The escape whose percent sign has just been read: the code units it
    denotes and the number of code units of [t] it takes. *)
Definition decode_escape (t : jsstring) : result (jsstring * nat) :=
  match hex_octet t with
  | None => Throw URIError
  | Some b =>
      if b <? 128 then Ok ([b], 2%nat)
      else if b <? 192 then Throw URIError
      else if b <? 224 then
        match cont_octet (skipn 2 t) with
        | Some b2 =>
            let v := (b - 192) * 64 + b2 in
            if scalar_from 128 v then Ok (utf16_encode v, 5%nat) else Throw URIError
        | None => Throw URIError
        end
      else if b <? 240 then
        match cont_octet (skipn 2 t), cont_octet (skipn 5 t) with
        | Some b2, Some b3 =>
            let v := ((b - 224) * 64 + b2) * 64 + b3 in
            if scalar_from 2048 v then Ok (utf16_encode v, 8%nat) else Throw URIError
        | _, _ => Throw URIError
        end
      else if b <? 248 then
        match cont_octet (skipn 2 t), cont_octet (skipn 5 t), cont_octet (skipn 8 t) with
        | Some b2, Some b3, Some b4 =>
            let v := (((b - 240) * 64 + b2) * 64 + b3) * 64 + b4 in
            if scalar_from 65536 v then Ok (utf16_encode v, 11%nat) else Throw URIError
        | _, _, _ => Throw URIError
        end
      else Throw URIError
  end.

Fixpoint decode (skip : nat) (s : jsstring) : result jsstring :=
  match s with
  | [] => Ok []
  | c :: t =>
      match skip with
      | S n => decode n t
      | O =>
          if c =? ch "%" then
            e <- decode_escape t ;;
            r <- decode (snd e) t ;;
            Ok (fst e ++ r)
          else
            r <- decode 0 t ;;
            Ok (c :: r)
      end
  end.

Definition decodeURIComponent (s : jsstring) : result jsstring := decode 0 s.

Local Close Scope N_scope.

(** ** The regular expression literals of utils.ts *)

Definition regex_literal (src : string) (global : bool) : RegExp :=
  match RegExp_new (str src) global with
  | Ok re => re
  | Throw _ => mkRegExp REmpty 0 global
  end.

(** [/\+/g] *)
Definition re_plus : RegExp := Eval vm_compute in regex_literal "\+" true.
(** [/[.+?^${}()|[\]\\]/g] *)
Definition re_special : RegExp := Eval vm_compute in regex_literal "[.+?^${}()|[\]\\]" true.
(** [/\*/g] *)
Definition re_star : RegExp := Eval vm_compute in regex_literal "\*" true.
(** [/\$\{\d+\}/] *)
Definition re_group_ref : RegExp := Eval vm_compute in regex_literal "\$\{\d+\}" false.
(** [/\$\{url\}/g] *)
Definition re_url : RegExp := Eval vm_compute in regex_literal "\$\{url\}" true.
(** [/^https?:\/\//] *)
Definition re_protocol : RegExp := Eval vm_compute in regex_literal "^https?:\/\/" false.
(** [/\$\{domain\}/g] *)
Definition re_domain : RegExp := Eval vm_compute in regex_literal "\$\{domain\}" true.
(** [/\s/] *)
Definition re_space : RegExp := Eval vm_compute in regex_literal "\s" false.

(** ** types.ts *)

Record LinkPattern := mkLinkPattern {
  id : jsstring;
  name : jsstring;
  enabled : bool;
  domainPattern : jsstring;
  pathPattern : jsstring;
  outputTemplate : jsstring;
  description : option jsstring;
  isPreset : option bool
}.

(** ** utils.ts *)

(** [decodeUrlString]: both branches of the [try] replace the plus signs;
    only [decodeURIComponent] can throw, and the handler answers it. *)
Definition decodeUrlString (s : jsstring) : result jsstring :=
  try_catch
    (let withSpaces := String_replace s re_plus (str " ") in
     decodeURIComponent withSpaces)
    (fun _ => Ok (String_replace s re_plus (str " "))).

(** [escapeDomainPattern]: the special characters get a backslash (the
    replacement text is a backslash followed by [$&]), then every star
    becomes [.*]. *)
Definition escapeDomainPattern (domain : jsstring) : jsstring :=
  String_replace (String_replace domain re_special (str "\$&")) re_star (str ".*").

(** [validateOutputTemplate]: [None] stands for the [null] of a valid
    template, [Some] carries the message. *)
Definition validateOutputTemplate (template : jsstring) : option jsstring :=
  if falsy template || falsy (String_trim template) then
    Some (str "Template cannot be empty")
  else if negb (String_includes template (str "${url}"))
          && negb (RegExp_test re_group_ref template) then
    Some (str "Template must include ${url} or at least one capture group (${1}, ${2}, etc.)")
  else None.

(** The text of a loop index between 1 and 9. *)
Definition index_text (i : nat) : jsstring := [N.of_nat (48 + i)].

(** The body of the loop over the capture groups. *)
Definition capture_step (mt : list (option jsstring)) (output : jsstring) (i : nat)
  : result jsstring :=
  let captureIndex := i + 1 in
  let rawValue :=
    match nth captureIndex mt None with
    | Some v => v
    | None => []
    end in
  captureValue <- decodeUrlString rawValue ;;
  re <- RegExp_new (str "\$\{" ++ index_text i ++ str "\}") true ;;
  Ok (String_replace output re captureValue).

(** [for (let i = from; i <= 9; i++)], [count] being the number of rounds. *)
Fixpoint capture_loop (mt : list (option jsstring)) (output : jsstring) (i count : nat)
  : result jsstring :=
  match count with
  | O => Ok output
  | S count' =>
      output' <- capture_step mt output i ;;
      capture_loop mt output' (S i) count'
  end.

(** [matchPattern]: [Ok None] is the [null] of a rule that does not match.
    Neither [new RegExp] nor the reading of [match[1]] stands inside a
    [try], so their errors leave the function. *)
Definition matchPattern (url : jsstring) (pattern : LinkPattern) : result (option jsstring) :=
  if negb (enabled pattern) then Ok None
  else if falsy (domainPattern pattern) || falsy (pathPattern pattern) then Ok None
  else
    let escapedDomain := escapeDomainPattern (domainPattern pattern) in
    domainRegex <- RegExp_new (str "^https?:\/\/" ++ escapedDomain) false ;;
    if negb (RegExp_test domainRegex url) then Ok None
    else
      fullRegex <- RegExp_new (str "^(https?:\/\/" ++ escapedDomain ++ str ")"
                                 ++ pathPattern pattern ++ str "(\?.*)?$") false ;;
      match String_match url fullRegex with
      | None => Ok None
      | Some mt =>
          let output := outputTemplate pattern in
          let output := String_replace output re_url url in
          (* match[1] is undefined when the wrapper group took no part *)
          m1 <- match nth 1 mt None with
                | Some v => Ok v
                | None => Throw TypeError
                end ;;
          let domainMatch := String_replace m1 re_protocol [] in
          let output := String_replace output re_domain domainMatch in
          output <- capture_loop mt output 1 9 ;;
          Ok (Some output)
      end.

(** The loop of [formatLink] over the rules, in list order. *)
Fixpoint try_patterns (pastedText : jsstring) (patterns : list LinkPattern)
  : result (option jsstring) :=
  match patterns with
  | [] => Ok None
  | pattern :: patterns' =>
      r <- matchPattern pastedText pattern ;;
      match r with
      | Some v => Ok (Some v)
      | None => try_patterns pastedText patterns'
      end
  end.

(** [formatLink]: the argument is a string by its type, so of the first
    check only the test of the trimmed text remains. *)
Definition formatLink (pastedText : jsstring) (patterns : list LinkPattern)
  : result (option jsstring) :=
  if falsy (String_trim pastedText) then Ok None
  else if RegExp_test re_space pastedText then Ok None
  else try_patterns pastedText patterns.

(** The pattern texts handed to [new RegExp] in [matchPattern]. *)
Definition domainRegex_source (p : LinkPattern) : jsstring :=
  str "^https?:\/\/" ++ escapeDomainPattern (domainPattern p).

Definition fullRegex_source (p : LinkPattern) : jsstring :=
  str "^(https?:\/\/" ++ escapeDomainPattern (domainPattern p) ++ str ")"
    ++ pathPattern p ++ str "(\?.*)?$".

(** ** Vocabulary of the statements *)

(** The rules of the test suite: enabled, with the three texts given. *)
Definition rule (domain path template : string) : LinkPattern :=
  mkLinkPattern (str "test") (str "Test") true (str domain) (str path) (str template)
    None None.

Definition createJiraPattern (domain : string) : LinkPattern :=
  rule domain "\/.*\/([A-Z][A-Z0-9]*-\d+)" "[${1}](${url})".

Definition exec_str (p s : string) : result (option (list (option jsstring))) :=
  re <- RegExp_new (str p) false ;; Ok (RegExp_exec re (str s)).

Definition has_whitespace (s : jsstring) : bool := existsb is_whitespace s.

(** A candidate that passes the two checks at the head of [formatLink]:
    not empty, and free of white space. *)
Definition single_token (s : jsstring) : bool :=
  negb (falsy s) && negb (has_whitespace s).

(** [{ ...pattern, enabled: false }] *)
Definition disable (p : LinkPattern) : LinkPattern :=
  mkLinkPattern (id p) (name p) false (domainPattern p) (pathPattern p)
    (outputTemplate p) (description p) (isPreset p).

(** The host of a URL: what stands between [://] and the next slash. *)
Fixpoint up_to_slash (s : jsstring) : jsstring :=
  match s with
  | [] => []
  | c :: t => if N.eqb c (ch "/") then [] else c :: up_to_slash t
  end.

Fixpoint url_host (url : jsstring) : jsstring :=
  match url with
  | [] => []
  | c :: t => if starts_with url (str "://") then up_to_slash (skipn 3 url) else url_host t
  end.

(** Concrete rules and candidates of the statements below. *)
Definition page_url : jsstring := str "https://example.com/page/123".
Definition page_rule : LinkPattern := rule "example.com" "\/page\/(\d+)" "[${1}](${url})".
Definition unclosed_rule : LinkPattern := rule "example.com" "(" "[${1}](${url})".
Definition unclosed_class_rule : LinkPattern := rule "example.com" "\/page\/[" "${url}".
Definition elsewhere_rule : LinkPattern := rule "elsewhere.org" "(" "[${1}](${url})".
Definition github_rule : LinkPattern :=
  rule "github.com" "\/([^\/]+\/[^\/]+)\/(issues|pull)\/(\d+)" "[${1}#${3}](${url})".

(** Rules whose path pattern has a named group, and lookbehind. *)
Definition named_rule : LinkPattern :=
  rule "example.com" "\/page\/(?<n>\d+)" "[${1}](${url})".
Definition lookbehind_rule : LinkPattern :=
  rule "example.com" "\/(?<=\/)item-(?<id>\d+)(?<!0)" "[item ${1}](${url})".

(** Every plus sign becomes a space. *)
Definition plus_to_space (s : jsstring) : jsstring :=
  map (fun c => if N.eqb c (ch "+") then ch " " else c) s.

Local Open Scope N_scope.

(** ** Percent-decoding, as RFC 3986 and RFC 3629 describe it

    Stated on its own, without the decoder: an escape is a percent sign and
    two hexadecimal digits, of either case, and stands for an octet; the
    octets of consecutive escapes are the UTF-8 form of a scalar value, which
    the result holds in UTF-16; every other code unit stands for itself. *)

(** The hexadecimal digits and their values. *)
Definition hex_digits : list (char * N) :=
  [(ch "0", 0); (ch "1", 1); (ch "2", 2); (ch "3", 3); (ch "4", 4); (ch "5", 5);
   (ch "6", 6); (ch "7", 7); (ch "8", 8); (ch "9", 9);
   (ch "a", 10); (ch "b", 11); (ch "c", 12); (ch "d", 13); (ch "e", 14); (ch "f", 15);
   (ch "A", 10); (ch "B", 11); (ch "C", 12); (ch "D", 13); (ch "E", 14); (ch "F", 15)].

(** The two digits [h1 h2] write the octet [b]. *)
Definition hex_pair (h1 h2 : char) (b : N) : Prop :=
  exists v1 v2, In (h1, v1) hex_digits /\ In (h2, v2) hex_digits /\ b = 16 * v1 + v2.

(** The text of a sequence of octets, each one escaped. *)
Inductive escapes : list N -> jsstring -> Prop :=
| escapes_nil : escapes [] []
| escapes_cons b bs h1 h2 t :
    hex_pair h1 h2 b -> escapes bs t -> escapes (b :: bs) (ch "%" :: h1 :: h2 :: t).

(** The octets of the scalar value [v] in UTF-8. *)
Definition utf8 (v : N) : list N :=
  if v <? 128 then [v]
  else if v <? 2048 then [192 + v / 64; 128 + v mod 64]
  else if v <? 65536 then [224 + v / 4096; 128 + (v / 64) mod 64; 128 + v mod 64]
  else [240 + v / 262144; 128 + (v / 4096) mod 64; 128 + (v / 64) mod 64; 128 + v mod 64].

(** A code point that is no surrogate. *)
Definition scalar_value (v : N) : Prop := v < 55296 \/ (57343 < v /\ v <= 1114111).

(** The code units [u] are the scalar value [v] in UTF-16. *)
Definition utf16 (v : N) (u : jsstring) : Prop :=
  (v < 65536 /\ u = [v])
  \/ exists hi lo, hi < 1024 /\ lo < 1024 /\ v = 65536 + 1024 * hi + lo
                   /\ u = [55296 + hi; 56320 + lo].

(** [percent_decoded s r]: [r] is the text that [s] encodes. *)
Inductive percent_decoded : jsstring -> jsstring -> Prop :=
| decoded_nil : percent_decoded [] []
| decoded_unit c s r :
    c <> ch "%" -> percent_decoded s r -> percent_decoded (c :: s) (c :: r)
| decoded_escape v t u s r :
    scalar_value v -> escapes (utf8 v) t -> utf16 v u -> percent_decoded s r ->
    percent_decoded (t ++ s) (u ++ r).

Local Close Scope N_scope.

(** The code units that [escapeDomainPattern] escapes. *)
Definition is_special (c : char) : bool := existsb (N.eqb c) (str ".+?^${}()|[]\").

(** What [escapeDomainPattern] writes for one code unit of the domain. *)
Definition esc1 (c : char) : jsstring :=
  if is_special c then [ch "\"; c]
  else if N.eqb c (ch "*") then str ".*"
  else [c].

(** The tokens and the term that one code unit of the domain becomes. *)
Definition tok1 (c : char) : list token :=
  if N.eqb c (ch "*") then [TTerm RAny; TQuant 0 None true] else [TTerm (RChar c)].

Definition term1 (c : char) : regex :=
  if N.eqb c (ch "*") then RQuant 0 None true RAny else RChar c.

(** The terms of [^https?:\/\/]. *)
Definition protocol_terms : list regex :=
  [RBol; RChar (ch "h"); RChar (ch "t"); RChar (ch "t"); RChar (ch "p");
   RQuant 0 (Some 1) true (RChar (ch "s")); RChar (ch ":"); RChar (ch "/");
   RChar (ch "/")].

Definition domain_ast (d : jsstring) : regex := seq_of (protocol_terms ++ map term1 d).

Fixpoint any_suffix (P : jsstring -> bool) (s : jsstring) : bool :=
  P s || match s with
         | [] => false
         | _ :: t => any_suffix P t
         end.

(** The domain matcher as the specification words it: [s] starts with the
    domain pattern [d], where a star stands for any sequence of code units,
    the empty one included, and every other code unit for itself. *)
Fixpoint wildcard_prefix (d s : jsstring) : bool :=
  match d with
  | [] => true
  | c :: d' =>
      if N.eqb c (ch "*") then any_suffix (wildcard_prefix d') s
      else
        match s with
        | a :: t => N.eqb a c && wildcard_prefix d' t
        | [] => false
        end
  end.

(** A term that matches exactly one code unit, and which ones. *)
Definition one_char (r : regex) : option (char -> bool) :=
  match r with
  | RSeq (RChar a) REmpty => Some (fun c => N.eqb c a)
  | RSeq (RClass neg items) REmpty => Some (class_mem neg items)
  | _ => None
  end.

Definition digit_class : regex := RClass false [CsDigit false].

(** [y] lies at or after [x] in the same input. *)
Definition after (x y : mstate) : Prop :=
  pos y + length (rest y) = pos x + length (rest x) /\ pos x <= pos y.

Definition agree_after (x : mstate) (k k' : cont) : Prop :=
  forall y, after x y -> k y = k' y.

(** A token that reads the same with and without named groups, and names
    no group. *)
Definition simple_token (tok : token) : bool :=
  match tok with
  | TModal _ _ | TOpen (GNamed _) => false
  | _ => true
  end.

(** [y] lies at or before [x], as the states inside a lookbehind do. *)
Definition before (x y : mstate) : Prop := pos y <= pos x.

Definition agree_before (x : mstate) (k k' : cont) : Prop :=
  forall y, before x y -> k y = k' y.

(** A text without a dollar sign, and an expression that starts with one. *)
Definition no_dollar (s : jsstring) : bool :=
  forallb (fun c => negb (N.eqb c (ch "$"))) s.

Definition dollar_led (r : regex) : bool :=
  match r with
  | RSeq (RChar c) _ => N.eqb c (ch "$")
  | _ => false
  end.

Definition no_line_terminator (s : jsstring) : bool :=
  forallb (fun c => negb (is_line_terminator c)) s.

(** ** utils.ts: the checks of the settings dialog *)

(** [/[^a-zA-Z0-9.*\-\/]/g] *)
Definition re_not_domain_char : RegExp :=
  Eval vm_compute in regex_literal "[^a-zA-Z0-9.*\-\/]" true.

(** [sanitizeDomain] *)
Definition sanitizeDomain (domain : jsstring) : jsstring :=
  String_replace domain re_not_domain_char [].

(** [validateRegexPattern]: [None] stands for the [null] of a valid pattern.
    The text after a failed construction is the message of the engine's
    error, [message e]; every error of [new RegExp] is an [Error].  The
    function itself never throws: the result is [Throw OutsideModel] only
    for a pattern that the dialect above leaves open. *)
Definition validateRegexPattern (message : error -> jsstring) (pattern : jsstring)
  : result (option jsstring) :=
  if falsy pattern || falsy (String_trim pattern) then
    Ok (Some (str "Pattern cannot be empty"))
  else
    try_catch (_ <- RegExp_new pattern false ;; Ok None)
      (fun e => Ok (Some (message e))).

(** ** presets.ts *)

(** [Omit<LinkPattern, 'id' | 'enabled'>] *)
Module Preset.
Record t := mk {
  name : jsstring;
  domainPattern : jsstring;
  pathPattern : jsstring;
  outputTemplate : jsstring;
  description : option jsstring;
  isPreset : option bool
}.
End Preset.

Definition preset (name domain path template description : string) : Preset.t :=
  Preset.mk (str name) (str domain) (str path) (str template)
    (Some (str description)) (Some true).

(** The table, in the order of the source. *)
Definition PRESET_PATTERNS : list (string * Preset.t) :=
  [ ("jira"%string,
     preset "JIRA Issues" "*.atlassian.net" "\/.*\/([A-Z][A-Z0-9]*-\d+)" "[${1}](${url})"
       "Formats JIRA issue links to show issue key (e.g., DEV-123)");
    ("jiraSelfHosted"%string,
     preset "JIRA (Self-Hosted)" "jira.example.com" "\/.*\/([A-Z][A-Z0-9]*-\d+)"
       "[${1}](${url})"
       "For self-hosted JIRA instances. Update the domain pattern to match your server.");
    ("confluence"%string,
     preset "Confluence Pages" "*.atlassian.net"
       "\/wiki\/spaces\/[^\/]+\/pages\/\d+\/([^?]+)" "[${1}](${url})"
       "Formats Confluence links to show page title from URL");
    ("confluenceSelfHosted"%string,
     preset "Confluence (Self-Hosted)" "confluence.example.com"
       "\/wiki\/spaces\/[^\/]+\/pages\/\d+\/([^?]+)" "[${1}](${url})"
       "For self-hosted Confluence instances. Update the domain pattern.");
    ("gitlabIssue"%string,
     preset "GitLab Issues" "gitlab.com" "\/([^\/]+\/[^\/]+)\/-\/issues\/(\d+)"
       "[${1}#${2}](${url})" "Formats GitLab issue links (e.g., group/project#123)");
    ("gitlabMergeRequest"%string,
     preset "GitLab Merge Requests" "gitlab.com"
       "\/([^\/]+\/[^\/]+)\/-\/merge_requests\/(\d+)" "[${1}!${2}](${url})"
       "Formats GitLab MR links (e.g., group/project!123)");
    ("gitlabSelfHosted"%string,
     preset "GitLab (Self-Hosted)" "gitlab.example.com"
       "\/([^\/]+\/[^\/]+)\/-\/(issues|merge_requests)\/(\d+)" "[${1}#${3}](${url})"
       "For self-hosted GitLab. Update domain pattern. Uses # for both issues and MRs.");
    ("github"%string,
     preset "GitHub Issues/PRs" "github.com" "\/([^\/]+\/[^\/]+)\/(issues|pull)\/(\d+)"
       "[${1}#${3}](${url})" "Formats GitHub issue and PR links (e.g., owner/repo#123)");
    ("bitbucketPr"%string,
     preset "Bitbucket PRs" "bitbucket.org" "\/([^\/]+\/[^\/]+)\/pull-requests\/(\d+)"
       "[${1}#${2}](${url})" "Formats Bitbucket pull request links (e.g., team/repo#123)");
    ("bitbucketIssue"%string,
     preset "Bitbucket Issues" "bitbucket.org" "\/([^\/]+\/[^\/]+)\/issues\/(\d+)"
       "[${1}#${2}](${url})" "Formats Bitbucket issue links (e.g., team/repo#45)");
    ("azureDevOpsWorkItem"%string,
     preset "Azure DevOps Work Items" "dev.azure.com"
       "\/[^\/]+\/[^\/]+\/_workitems\/edit\/(\d+)" "[#${1}](${url})"
       "Formats Azure DevOps work item links (e.g., #1234)");
    ("azureDevOpsPr"%string,
     preset "Azure DevOps PRs" "dev.azure.com"
       "\/[^\/]+\/[^\/]+\/_git\/[^\/]+\/pullrequest\/(\d+)" "[PR-${1}](${url})"
       "Formats Azure DevOps pull request links (e.g., PR-56)");
    ("trello"%string,
     preset "Trello Cards" "trello.com" "\/c\/[^\/]+\/([^?]+)" "[${1}](${url})"
       "Formats Trello card links to show card title");
    ("linear"%string,
     preset "Linear Issues" "linear.app" "\/[^\/]+\/issue\/([A-Z]+-\d+)" "[${1}](${url})"
       "Formats Linear issue links (e.g., TEAM-123)");
    ("notion"%string,
     preset "Notion Pages" "notion.so" "\/([^-]+-[^-]+-[a-f0-9]+)" "[${1}](${url})"
       "Formats Notion page links to show page title");
    ("figma"%string,
     preset "Figma Files" "figma.com" "\/file\/[^\/]+\/([^?]+)" "[${1}](${url})"
       "Formats Figma file links to show design name");
    ("sentry"%string,
     preset "Sentry Issues" "sentry.io" "\/organizations\/[^\/]+\/issues\/(\d+)"
       "[SENTRY-${1}](${url})" "Formats Sentry issue links (e.g., SENTRY-123)");
    ("stackoverflow"%string,
     preset "Stack Overflow" "stackoverflow.com" "\/questions\/\d+\/([^?]+)"
       "[SO: ${1}](${url})" "Formats Stack Overflow question links");
    ("npm"%string,
     preset "npm Packages" "npmjs.com" "\/package\/([^?]+)" "[npm: ${1}](${url})"
       "Formats npm package links (e.g., npm: lodash)") ].

(** [getPresetKeys] *)
Definition getPresetKeys : list string := map fst PRESET_PATTERNS.

(** The object that [createPatternFromPreset] returns for a preset of the
    table when no overrides are given; [newId] is the identifier that
    [generatePatternId] made for it. *)
Definition pattern_of_preset (newId : jsstring) (p : Preset.t) : LinkPattern :=
  mkLinkPattern newId (Preset.name p) true (Preset.domainPattern p) (Preset.pathPattern p)
    (Preset.outputTemplate p) (Preset.description p) (Preset.isPreset p).

(** ** settings-tab.ts *)

(** [pattern.enabled = value] (the toggle of a list item) *)
Definition set_enabled (value : bool) (p : LinkPattern) : LinkPattern :=
  mkLinkPattern (id p) (name p) value (domainPattern p) (pathPattern p)
    (outputTemplate p) (description p) (isPreset p).

(** The toggle of the item at [index]: the rule object is changed in place. *)
Definition toggle_at (patterns : list LinkPattern) (index : nat) (value : bool)
  : list LinkPattern :=
  match nth_error patterns index with
  | Some p => set_nth index (set_enabled value p) patterns
  | None => patterns
  end.

(** [patterns.splice(index, 1)] (the delete button): nothing is removed when
    [index] is not below the length. *)
Definition splice_one (patterns : list LinkPattern) (index : nat) : list LinkPattern :=
  firstn index patterns ++ skipn (S index) patterns.

(** [swapPatterns]: both reads come first, then the two writes.  Its two
    callers pass an index of the list and a neighbour that exists; an index
    outside the list would store [undefined], which is [None] here. *)
Definition swapPatterns (patterns : list LinkPattern) (indexA indexB : nat)
  : option (list LinkPattern) :=
  match nth_error patterns indexB, nth_error patterns indexA with
  | Some b, Some a => Some (set_nth indexB a (set_nth indexA b patterns))
  | _, _ => None
  end.

(** [patterns.findIndex(p => p.id === id)] *)
Fixpoint findIndex_id (wanted : jsstring) (patterns : list LinkPattern) : option nat :=
  match patterns with
  | [] => None
  | p :: rest =>
      if jseqb (id p) wanted then Some 0
      else option_map S (findIndex_id wanted rest)
  end.

(** The callback that [openPatternModal] hands to the edit dialog. *)
Definition on_modal_save (patterns : list LinkPattern) (existingPattern : option LinkPattern)
    (pattern : LinkPattern) : list LinkPattern :=
  match existingPattern with
  | Some existing =>
      match findIndex_id (id existing) patterns with
      | Some index => set_nth index pattern patterns
      | None => patterns
      end
  | None => patterns ++ [pattern]
  end.

(** settings-tab.ts: what the Save button of the edit dialog does;
    [SaveOutsideModel] when the path pattern is outside the model. *)
Inductive save_outcome :=
| Notice (text : jsstring)
| Saved (pattern : LinkPattern)
| SaveOutsideModel.

(** [if (error)] on a value that is a string or [null] *)
Definition truthy (v : option jsstring) : bool :=
  match v with
  | Some (_ :: _) => true
  | _ => false
  end.

Definition savePattern (message : error -> jsstring) (pattern : LinkPattern) : save_outcome :=
  if falsy (String_trim (name pattern)) then Notice (str "Name is required")
  else if falsy (String_trim (domainPattern pattern)) then
    Notice (str "Domain pattern is required")
  else
    match validateRegexPattern message (pathPattern pattern) with
    | Throw _ => SaveOutsideModel
    | Ok regexError =>
        if truthy regexError then
          Notice (str "Invalid path pattern: "
                  ++ match regexError with Some text => text | None => [] end)
        else
          let templateError := validateOutputTemplate (outputTemplate pattern) in
          if truthy templateError then
            Notice (str "Invalid template: "
                    ++ match templateError with Some text => text | None => [] end)
          else Saved pattern
    end.

(** settings-tab.ts: what [updateTestResult] shows for the text of the
    test field, both elements of the dialog being there;
    [TestOutsideModel] when the path pattern is outside the model. *)
Inductive test_result :=
| EnterUrl
| TestMatch (result : jsstring)
| NoMatch
| TestError (e : error)
| TestOutsideModel.

Definition updateTestResult (testInput : jsstring) (pattern : LinkPattern) : test_result :=
  let testUrl := String_trim testInput in
  if falsy testUrl then EnterUrl
  else
    match matchPattern testUrl pattern with
    | Ok (Some result) => if falsy result then NoMatch else TestMatch result
    | Ok None => NoMatch
    | Throw OutsideModel => TestOutsideModel
    | Throw e => TestError e
    end.

(** ** main.ts *)

(** main.ts: what the paste handler does with the event. *)
Inductive paste_action :=
| DefaultPaste
| ReplaceSelection (text : jsstring).

(** The [editor-paste] handler; [clipboard] is [None] when the event carries
    no clipboard data. *)
Definition on_editor_paste (clipboard : option jsstring) (patterns : list LinkPattern)
  : result paste_action :=
  match clipboard with
  | None => Ok DefaultPaste
  | Some pastedText =>
      if falsy pastedText then Ok DefaultPaste
      else
        modifiedText <- formatLink pastedText patterns ;;
        match modifiedText with
        | None => Ok DefaultPaste
        | Some text => if falsy text then Ok DefaultPaste else Ok (ReplaceSelection text)
        end
  end.

(** ** Vocabulary of the further statements *)

(** The characters a domain pattern may hold. *)
Definition domain_char (c : char) : bool :=
  is_ascii_letter c || is_digit c
  || N.eqb c (ch ".") || N.eqb c (ch "*") || N.eqb c (ch "-") || N.eqb c (ch "/").

(** A rule that returns null for the candidate. *)
Definition returns_null (s : jsstring) (p : LinkPattern) : bool :=
  match matchPattern s p with
  | Ok None => true
  | _ => false
  end.

(** The exchange of the indices [a] and [b]. *)
Definition transpose (a b n : nat) : nat :=
  if Nat.eqb n a then b else if Nat.eqb n b then a else n.

(** What decides whether a token list is well formed: the open groups,
    the innermost first, each with the flag of a lookbehind; whether a
    quantifier may follow; [top_bar] records a bar outside every group, and
    [seen] the names of the groups read so far. *)
Record pstate := PState {
  frames : list bool;
  quant_ok : bool;
  top_bar : bool;
  seen : list jsstring
}.

Definition is_lookbehind (k : gkind) : bool :=
  match k with
  | GLookbehind _ => true
  | _ => false
  end.

(** Whether a quantifier may follow the terms [plain], [q] telling whether
    one might before them. *)
Definition last_quantifiable (plain : list regex) (q : bool) : bool :=
  fold_left (fun _ r => quantifiable r) plain q.

Definition is_lookbehind_frame (k : fkind) : bool :=
  match k with
  | FLookbehind _ => true
  | _ => false
  end.

(** One token; [names] are the names of all groups of the pattern, which
    decide what [TModal] means. *)
Definition step (names : list jsstring) (tok : token) (st : pstate) : option pstate :=
  match tok with
  | TTerm r => Some (PState (frames st) (quantifiable r) (top_bar st) (seen st))
  | TQuant mn mx _ =>
      if quant_ok st && bounds_ok mn mx
      then Some (PState (frames st) false (top_bar st) (seen st))
      else None
  | TBar =>
      Some (PState (frames st) false
              (top_bar st || Nat.eqb (length (frames st)) 0) (seen st))
  | TOpen k =>
      Some (PState (is_lookbehind k :: frames st) false (top_bar st)
              (seen st ++ match k with GNamed n => [n] | _ => [] end))
  | TClose =>
      match frames st with
      | b :: fs => Some (PState fs (negb b) (top_bar st) (seen st))
      | [] => None
      end
  | TModal plain nm =>
      match names with
      | [] => Some (PState (frames st) (last_quantifiable plain (quant_ok st))
                      (top_bar st) (seen st))
      | _ :: _ =>
          match nm with
          | NRef name =>
              if existsb (jseqb name) names
              then Some (PState (frames st) true (top_bar st) (seen st))
              else None
          | NError _ => None
          end
      end
  end.

Fixpoint run (names : list jsstring) (toks : list token) (st : pstate) : option pstate :=
  match toks with
  | [] => Some st
  | tok :: toks' =>
      match step names tok st with
      | Some st' => run names toks' st'
      | None => None
      end
  end.

Definition head_quantifiable (cur : list regex) : bool :=
  match cur with
  | a :: _ => quantifiable a
  | [] => false
  end.

(** The same on the text of a pattern. *)
Definition run_text (ng : nat) (names : list jsstring) (s : jsstring) (st : pstate)
  : option pstate :=
  match lex ng 0 s with
  | Ok toks => run names toks st
  | Throw _ => None
  end.

(** The state in which a pattern starts. *)
Definition start : pstate := PState [] false false [].

(** The flags of the open groups of the parser. *)
Definition frames_of (stack : list (fkind * list regex * list regex)) : list bool :=
  map (fun f => is_lookbehind_frame (fst (fst f))) stack.

(** The state [st] with the flag of the quantifier set to [q]. *)
Definition allow_quant (q : bool) (st : pstate) : pstate :=
  PState (frames st) q (top_bar st) (seen st).

(** A bar outside the groups, [depth] groups being open. *)
Fixpoint bar_outside (toks : list token) (depth : nat) : bool :=
  match toks with
  | [] => false
  | TBar :: toks' => Nat.eqb depth 0 || bar_outside toks' depth
  | TOpen _ :: toks' => bar_outside toks' (S depth)
  | TClose :: toks' => bar_outside toks' (Nat.pred depth)
  | _ :: toks' => bar_outside toks' depth
  end.

(** Whether a pattern has an alternative outside every group. *)
Definition top_level_alternative (pattern : jsstring) : bool :=
  match lex 0 0 pattern with
  | Ok toks => bar_outside toks 0
  | Throw _ => false
  end.

(** A token as the lexer makes it: a term holds no group. *)
Definition tok_plain (tok : token) : Prop :=
  match tok with
  | TTerm r => groups_of r = []
  | TModal plain _ => Forall (fun r => groups_of r = []) plain
  | _ => True
  end.

(** All groups of [r] are numbered [lo] or more. *)
Definition above (lo : nat) (r : regex) : Prop := Forall (le lo) (groups_of r).

Definition kind_above (lo : nat) (k : fkind) : Prop :=
  match k with
  | FCapture i => lo <= i
  | _ => True
  end.

(** The state of the parser after the terms [base] of the outermost
    disjunction, no bar having been read outside the groups: the
    outermost frame is [base] and terms with groups from [lo] on, at least one
    when the flag says that a quantifier may follow. *)
Fixpoint frames_ok (lo : nat) (base : list regex) (q : bool) (alts cur : list regex)
    (stack : list (fkind * list regex * list regex)) : Prop :=
  match stack with
  | [] => alts = [] /\ exists new, cur = new ++ base /\ Forall (above lo) new
                                   /\ (q = true -> new <> [])
  | (k, alts0, cur0) :: stack' =>
      Forall (above lo) alts /\ Forall (above lo) cur /\ kind_above lo k
      /\ frames_ok lo base false alts0 cur0 stack'
  end.

(** [y] has the captures of [x], those of the groups [ids] apart. *)
Definition keeps (ids : list nat) (x y : mstate) : Prop :=
  length (caps y) = length (caps x)
  /\ forall i, ~ In i ids -> get_cap i (caps y) = get_cap i (caps x).

(** An expression that starts like that of [matchPattern]: the start of
    the input, then group 1, which no later term contains. *)
Definition wrapper_first (re : RegExp) : bool :=
  Nat.leb 1 (re_ngroups re)
  && match re_ast re with
     | RSeq RBol (RSeq (RGroup 1 _) r) => negb (existsb (Nat.eqb 1) (groups_of r))
     | _ => false
     end.

(** The tokens that [matchPattern] puts before the domain and after the
    path pattern. *)
Definition wrapper_tokens : list token :=
  [TTerm RBol; TOpen GCapture; TTerm (RChar (ch "h")); TTerm (RChar (ch "t"));
   TTerm (RChar (ch "t")); TTerm (RChar (ch "p")); TTerm (RChar (ch "s"));
   TQuant 0 (Some 1) true;
   TTerm (RChar (ch ":")); TTerm (RChar (ch "/")); TTerm (RChar (ch "/"))].

Definition query_tokens : list token :=
  [TOpen GCapture; TTerm (RChar (ch "?")); TTerm RAny; TQuant 0 None true; TClose;
   TQuant 0 (Some 1) true; TTerm REol].

(** What is checked of every preset of the table, by computation. *)
Definition preset_ok (p : Preset.t) : bool :=
  negb (falsy (String_trim (Preset.name p)))
  && negb (falsy (String_trim (Preset.domainPattern p)))
  && match validateRegexPattern (fun _ => []) (Preset.pathPattern p) with
     | Ok None => true
     | _ => false
     end
  && match validateOutputTemplate (Preset.outputTemplate p) with
     | None => true
     | Some _ => false
     end
  && jseqb (sanitizeDomain (Preset.domainPattern p)) (Preset.domainPattern p)
  && negb (top_level_alternative (Preset.pathPattern p)).

(** * Properties of the runtime model *)

(** ** The literals are what their source text compiles to *)

Lemma re_plus_source : RegExp_new (str "\+") true = Ok re_plus.
Proof. vm_compute. reflexivity. Qed.

Lemma re_special_source : RegExp_new (str "[.+?^${}()|[\]\\]") true = Ok re_special.
Proof. vm_compute. reflexivity. Qed.

Lemma re_star_source : RegExp_new (str "\*") true = Ok re_star.
Proof. vm_compute. reflexivity. Qed.

Lemma re_group_ref_source : RegExp_new (str "\$\{\d+\}") false = Ok re_group_ref.
Proof. vm_compute. reflexivity. Qed.

Lemma re_url_source : RegExp_new (str "\$\{url\}") true = Ok re_url.
Proof. vm_compute. reflexivity. Qed.

Lemma re_protocol_source : RegExp_new (str "^https?:\/\/") false = Ok re_protocol.
Proof. vm_compute. reflexivity. Qed.

Lemma re_domain_source : RegExp_new (str "\$\{domain\}") true = Ok re_domain.
Proof. vm_compute. reflexivity. Qed.

Lemma re_space_source : RegExp_new (str "\s") false = Ok re_space.
Proof. vm_compute. reflexivity. Qed.

(** ** The quantifier loop never runs out of fuel *)

Lemma after_refl x : after x x.
Proof. split; lia. Qed.

Lemma after_trans x y z : after x y -> after y z -> after x z.
Proof. unfold after. intros [? ?] [? ?]. split; lia. Qed.

Lemma after_advance x a t : rest x = a :: t -> after x (advance x t).
Proof. intros H. unfold after, advance. rewrite H. cbn. lia. Qed.

Lemma after_clear ids x y : after (clear_caps ids x) y <-> after x y.
Proof. unfold after, clear_caps. cbn. tauto. Qed.

Lemma jseqb_length a b : jseqb a b = true -> length a = length b.
Proof.
  revert b. induction a as [|x a IH]; destruct b as [|y b]; cbn; try discriminate; auto.
  intros H. apply andb_true_iff in H. destruct H as [_ H]. now rewrite (IH _ H).
Qed.

Section Fuel.

(** The iteration [mr] calls its continuation only on later states. *)
Variable mr : mstate -> cont -> option mstate.
Hypothesis mr_ext : forall x k k', agree_after x k k' -> mr x k = mr x k'.

Lemma repeat_matcher_ext ids greedy : forall fuel mn mx x k k',
  agree_after x k k' ->
  repeat_matcher mr ids greedy k fuel mn mx x
  = repeat_matcher mr ids greedy k' fuel mn mx x.
Proof.
  induction fuel as [|fuel IH]; intros mn mx x k k' H; [reflexivity|].
  cbn [repeat_matcher].
  assert (Hd : mr (clear_caps ids x)
                 (fun y => if Nat.eqb mn 0 && Nat.eqb (pos y) (pos x) then None
                           else repeat_matcher mr ids greedy k fuel (Nat.pred mn)
                                  (option_map Nat.pred mx) y)
               = mr (clear_caps ids x)
                 (fun y => if Nat.eqb mn 0 && Nat.eqb (pos y) (pos x) then None
                           else repeat_matcher mr ids greedy k' fuel (Nat.pred mn)
                                  (option_map Nat.pred mx) y)).
  { apply mr_ext. intros y Hy. apply after_clear in Hy.
    destruct (Nat.eqb mn 0 && Nat.eqb (pos y) (pos x)); [reflexivity|].
    apply IH. intros z Hz. apply H. eapply after_trans; eauto. }
  rewrite Hd, (H x (after_refl x)). reflexivity.
Qed.

(** Beyond [mn] plus the remaining length, more fuel changes nothing. *)
Lemma repeat_matcher_fuel ids greedy k : forall f1 f2 mn mx x,
  mn + length (rest x) < f1 ->
  mn + length (rest x) < f2 ->
  repeat_matcher mr ids greedy k f1 mn mx x
  = repeat_matcher mr ids greedy k f2 mn mx x.
Proof.
  induction f1 as [|f1 IH]; intros f2 mn mx x H1 H2; [lia|].
  destruct f2 as [|f2]; [lia|]. cbn [repeat_matcher].
  assert (Hd : mr (clear_caps ids x)
                 (fun y => if Nat.eqb mn 0 && Nat.eqb (pos y) (pos x) then None
                           else repeat_matcher mr ids greedy k f1 (Nat.pred mn)
                                  (option_map Nat.pred mx) y)
               = mr (clear_caps ids x)
                 (fun y => if Nat.eqb mn 0 && Nat.eqb (pos y) (pos x) then None
                           else repeat_matcher mr ids greedy k f2 (Nat.pred mn)
                                  (option_map Nat.pred mx) y)).
  { apply mr_ext. intros y Hy. apply after_clear in Hy. destruct Hy as [Hsum Hle].
    destruct (Nat.eqb_spec mn 0) as [->|Hmn]; cbn [andb].
    - destruct (Nat.eqb_spec (pos y) (pos x)); [reflexivity|].
      apply IH; cbn [Nat.pred]; lia.
    - apply IH; lia. }
  rewrite Hd. reflexivity.
Qed.

End Fuel.

Lemma m_ext input r : forall x k k', agree_after x k k' -> m input r x k = m input r x k'.
Proof.
  induction r as [| c | | neg items | r1 IH1 r2 IH2 | r1 IH1 r2 IH2 | i r1 IH1
                 | mn mx g r1 IH1 | | | neg | neg r1 IH1 | n | neg r1 IH1];
    intros x k k' H; cbn [m].
  - apply H, after_refl.
  - destruct (rest x) as [|a t] eqn:E; [reflexivity|].
    destruct (N.eqb a c); [|reflexivity]. apply H. eapply after_advance, E.
  - destruct (rest x) as [|a t] eqn:E; [reflexivity|].
    destruct (is_line_terminator a); [reflexivity|]. apply H. eapply after_advance, E.
  - destruct (rest x) as [|a t] eqn:E; [reflexivity|].
    destruct (class_mem neg items a); [|reflexivity]. apply H. eapply after_advance, E.
  - apply IH1. intros y Hy. apply IH2. intros z Hz. apply H. eapply after_trans; eauto.
  - rewrite (IH1 x k k' H), (IH2 x k k' H). reflexivity.
  - apply IH1. intros y Hy. apply H. exact Hy.
  - apply repeat_matcher_ext; auto.
  - destruct (Nat.eqb (pos x) 0); [|reflexivity]. apply H, after_refl.
  - destruct (rest x); [|reflexivity]. apply H, after_refl.
  - destruct (xorb neg _); [|reflexivity]. apply H, after_refl.
  - destruct (m input r1 x (fun y => Some y)) as [y|]; destruct neg; try reflexivity;
      apply H; split; cbn; lia.
  - destruct (get_cap n (caps x)) as [[s e]|]; [|apply H, after_refl].
    destruct (jseqb _ _) eqn:E; [|reflexivity].
    apply H. apply jseqb_length in E. rewrite length_firstn in E.
    split; cbn [pos rest]; [rewrite length_skipn|]; lia.
  - destruct (mb input r1 x (fun y => Some y)) as [y|]; destruct neg; try reflexivity;
      apply H; split; cbn; lia.
Qed.

(** Inside a lookbehind the position bounds the rounds. *)
Section FuelBack.

Variable mr : mstate -> cont -> option mstate.
Hypothesis mr_ext : forall x k k', agree_before x k k' -> mr x k = mr x k'.

Lemma repeat_matcher_ext_back ids greedy : forall fuel mn mx x k k',
  agree_before x k k' ->
  repeat_matcher mr ids greedy k fuel mn mx x
  = repeat_matcher mr ids greedy k' fuel mn mx x.
Proof.
  induction fuel as [|fuel IH]; intros mn mx x k k' H; [reflexivity|].
  cbn [repeat_matcher].
  assert (Hd : mr (clear_caps ids x)
                 (fun y => if Nat.eqb mn 0 && Nat.eqb (pos y) (pos x) then None
                           else repeat_matcher mr ids greedy k fuel (Nat.pred mn)
                                  (option_map Nat.pred mx) y)
               = mr (clear_caps ids x)
                 (fun y => if Nat.eqb mn 0 && Nat.eqb (pos y) (pos x) then None
                           else repeat_matcher mr ids greedy k' fuel (Nat.pred mn)
                                  (option_map Nat.pred mx) y)).
  { apply mr_ext. intros y Hy. unfold before, clear_caps in Hy. cbn [pos] in Hy.
    destruct (Nat.eqb mn 0 && Nat.eqb (pos y) (pos x)); [reflexivity|].
    apply IH. intros z Hz. apply H. unfold before in *. lia. }
  rewrite Hd, (H x (Nat.le_refl _)). reflexivity.
Qed.

Lemma repeat_matcher_fuel_back ids greedy k : forall f1 f2 mn mx x,
  mn + pos x < f1 ->
  mn + pos x < f2 ->
  repeat_matcher mr ids greedy k f1 mn mx x
  = repeat_matcher mr ids greedy k f2 mn mx x.
Proof.
  induction f1 as [|f1 IH]; intros f2 mn mx x H1 H2; [lia|].
  destruct f2 as [|f2]; [lia|]. cbn [repeat_matcher].
  assert (Hd : mr (clear_caps ids x)
                 (fun y => if Nat.eqb mn 0 && Nat.eqb (pos y) (pos x) then None
                           else repeat_matcher mr ids greedy k f1 (Nat.pred mn)
                                  (option_map Nat.pred mx) y)
               = mr (clear_caps ids x)
                 (fun y => if Nat.eqb mn 0 && Nat.eqb (pos y) (pos x) then None
                           else repeat_matcher mr ids greedy k f2 (Nat.pred mn)
                                  (option_map Nat.pred mx) y)).
  { apply mr_ext. intros y Hy. unfold before, clear_caps in Hy. cbn [pos] in Hy.
    destruct (Nat.eqb_spec mn 0) as [->|Hmn]; cbn [andb].
    - destruct (Nat.eqb_spec (pos y) (pos x)); [reflexivity|].
      apply IH; cbn [Nat.pred]; lia.
    - apply IH; lia. }
  rewrite Hd. reflexivity.
Qed.

End FuelBack.

Lemma back_before input x a y : back input x = Some (a, y) -> S (pos y) = pos x.
Proof.
  unfold back. destruct (pos x) as [|p]; [discriminate|].
  destruct (nth_error input p); [|discriminate]. now intros [= _ <-].
Qed.

Lemma mb_ext input r : forall x k k', agree_before x k k' -> mb input r x k = mb input r x k'.
Proof.
  induction r as [| c | | neg items | r1 IH1 r2 IH2 | r1 IH1 r2 IH2 | i r1 IH1
                 | mn mx g r1 IH1 | | | neg | neg r1 IH1 | n | neg r1 IH1];
    intros x k k' H; cbn [mb].
  - apply H, Nat.le_refl.
  - destruct (back input x) as [[a y]|] eqn:E; [|reflexivity].
    destruct (N.eqb a c); [|reflexivity]. apply H. apply back_before in E.
    unfold before. lia.
  - destruct (back input x) as [[a y]|] eqn:E; [|reflexivity].
    destruct (is_line_terminator a); [reflexivity|]. apply H. apply back_before in E.
    unfold before. lia.
  - destruct (back input x) as [[a y]|] eqn:E; [|reflexivity].
    destruct (class_mem neg items a); [|reflexivity]. apply H. apply back_before in E.
    unfold before. lia.
  - apply IH2. intros y Hy. apply IH1. intros z Hz. apply H. unfold before in *. lia.
  - rewrite (IH1 x k k' H), (IH2 x k k' H). reflexivity.
  - apply IH1. intros y Hy. apply H. exact Hy.
  - apply repeat_matcher_ext_back; auto.
  - destruct (Nat.eqb (pos x) 0); [|reflexivity]. apply H, Nat.le_refl.
  - destruct (rest x); [|reflexivity]. apply H, Nat.le_refl.
  - destruct (xorb neg _); [|reflexivity]. apply H, Nat.le_refl.
  - destruct (m input r1 x (fun y => Some y)) as [y|]; destruct neg; try reflexivity;
      apply H; unfold before; cbn; lia.
  - destruct (get_cap n (caps x)) as [[s e]|]; [|apply H, Nat.le_refl].
    destruct (_ && _); [|reflexivity]. apply H. unfold before. cbn [pos]. lia.
  - destruct (mb input r1 x (fun y => Some y)) as [y|]; destruct neg; try reflexivity;
      apply H; unfold before; cbn; lia.
Qed.

(** The fuel a quantifier starts with is enough: any larger amount gives the
    same result. *)
Lemma quantifier_fuel_enough input mn mx greedy r x k fuel :
  mn + length (rest x) < fuel ->
  repeat_matcher (m input r) (groups_of r) greedy k fuel mn mx x
  = m input (RQuant mn mx greedy r) x k.
Proof.
  intros H. cbn [m]. apply repeat_matcher_fuel; [apply m_ext | exact H | lia].
Qed.

Lemma quantifier_fuel_enough_back input mn mx greedy r x k fuel :
  mn + pos x < fuel ->
  repeat_matcher (mb input r) (groups_of r) greedy k fuel mn mx x
  = mb input (RQuant mn mx greedy r) x k.
Proof.
  intros H. cbn [mb]. apply repeat_matcher_fuel_back; [apply mb_ext | exact H | lia].
Qed.

(** ** Expressions that match one code unit *)

Lemma match_at_one_char s r P ng i suffix :
  one_char r = Some P ->
  match_at s r ng i suffix =
    match suffix with
    | c :: t => if P c then Some (MState (S i) t (repeat None ng)) else None
    | [] => None
    end.
Proof.
  destruct r as [| | | | r1 r2 | | | | | | | | |]; try discriminate.
  destruct r1; try discriminate; destruct r2; try discriminate;
    intros [= <-]; unfold match_at; simpl; destruct suffix as [|a0 t0]; reflexivity.
Qed.

Lemma search_one_char s r P ng : one_char r = Some P ->
  forall suffix i,
  (exists y, search_from s r ng i suffix = Some y) <-> existsb P suffix = true.
Proof.
  intros Hr. induction suffix as [|c t IH]; intros i; simpl;
    rewrite (match_at_one_char _ _ _ _ _ _ Hr).
  - split; [intros [y Hy]; discriminate | discriminate].
  - destruct (P c); simpl.
    + split; eauto.
    + apply IH.
Qed.

Lemma test_space s : RegExp_test re_space s = existsb is_whitespace s.
Proof.
  unfold RegExp_test, RegExp_exec.
  pose proof (search_one_char s (re_ast re_space) (class_mem false [CsSpace false]) (re_ngroups re_space) eq_refl s 0) as H.
  assert (E : existsb (class_mem false [CsSpace false]) s = existsb is_whitespace s).
  { clear. induction s as [|c t IH]; simpl; [reflexivity|]. rewrite IH. f_equal.
    unfold class_mem. simpl. rewrite orb_false_r. reflexivity. }
  rewrite E in H.
  destruct (search_from s (re_ast re_space) (re_ngroups re_space) 0 s) as [[i y]|].
  - symmetry. apply H. eauto.
  - destruct (existsb is_whitespace s); [|reflexivity].
    destruct (proj2 H eq_refl) as [y Hy]. discriminate.
Qed.

Lemma skipn_cons_S {A} (s : list A) i c t : skipn i s = c :: t -> skipn (S i) s = t.
Proof.
  revert s. induction i as [|i IH]; intros s H.
  - simpl in H. subst. reflexivity.
  - destruct s as [|a s']; [discriminate|]. simpl in H. apply IH in H. exact H.
Qed.

Lemma replace_all_one_char s re P f repl :
  one_char (re_ast re) = Some P ->
  re_ngroups re = 0 ->
  (forall c pre suf, get_substitution [c] pre suf [] repl = f c) ->
  forall suffix i, skipn i s = suffix ->
  replace_all_from s re repl i 0 suffix
  = flat_map (fun c => if P c then f c else [c]) suffix.
Proof.
  intros Hr Hng Hf. induction suffix as [|c t IH]; intros i Hs; simpl;
    rewrite (match_at_one_char _ _ _ _ _ _ Hr).
  - reflexivity.
  - pose proof (skipn_cons_S _ _ _ _ Hs) as Hs'.
    destruct (P c).
    + unfold replacement_at, match_array, substring. simpl pos. simpl caps.
      rewrite Hng. simpl map.
      replace (S i - i) with 1 by lia. rewrite Hs. simpl firstn.
      rewrite Hf. f_equal.
      replace (S i =? i) with false by (symmetry; apply Nat.eqb_neq; lia).
      replace (S i - i - 1) with 0 by lia. apply IH, Hs'.
    + simpl. f_equal. apply IH, Hs'.
Qed.

Lemma replace_plus s : String_replace s re_plus (str " ") = plus_to_space s.
Proof.
  unfold String_replace. simpl re_global. cbv iota.
  rewrite (replace_all_one_char s re_plus (fun c => N.eqb c (ch "+")) (fun _ => str " "));
    try reflexivity.
  unfold plus_to_space. induction s as [|c t IH]; [reflexivity|].
  cbn [flat_map map]. rewrite IH. destruct (N.eqb c (ch "+")); reflexivity.
Qed.

(** ** The checks at the head of formatLink *)

Lemma trim_start_id s : (forall c, In c s -> is_whitespace c = false) -> trim_start s = s.
Proof.
  destruct s as [|c t]; intros H; simpl; [reflexivity|].
  now rewrite (H c (or_introl eq_refl)).
Qed.

Lemma trim_id s : (forall c, In c s -> is_whitespace c = false) -> String_trim s = s.
Proof.
  intros H. unfold String_trim. rewrite (trim_start_id s H), trim_start_id.
  - apply rev_involutive.
  - intros c Hc. apply H. now apply in_rev.
Qed.

Lemma no_whitespace_in s c :
  has_whitespace s = false -> In c s -> is_whitespace c = false.
Proof.
  unfold has_whitespace. intros H Hc. destruct (is_whitespace c) eqn:E; [|reflexivity].
  assert (existsb is_whitespace s = true) by (apply existsb_exists; eauto). congruence.
Qed.

Lemma gate_open s ps : single_token s = true -> formatLink s ps = try_patterns s ps.
Proof.
  unfold single_token. intros H. apply andb_true_iff in H. destruct H as [Hne Hws].
  apply negb_true_iff in Hne, Hws.
  unfold formatLink. rewrite (trim_id s (fun c => no_whitespace_in s c Hws)), Hne, test_space.
  unfold has_whitespace in Hws. rewrite Hws. reflexivity.
Qed.

Lemma trim_start_keeps c s :
  In c s -> is_whitespace c = false -> In c (trim_start s).
Proof.
  induction s as [|a t IH]; intros Hin Hc; [destruct Hin|].
  cbn [trim_start]. destruct (is_whitespace a) eqn:Ea; [|exact Hin].
  destruct Hin as [-> | Hin]; [congruence|]. now apply IH.
Qed.

Lemma trim_not_blank c s :
  In c s -> is_whitespace c = false -> falsy (String_trim s) = false.
Proof.
  intros Hin Hc. unfold String_trim.
  assert (H : In c (rev (trim_start (rev (trim_start s))))).
  { apply -> in_rev. apply trim_start_keeps; [|exact Hc].
    apply -> in_rev. now apply trim_start_keeps. }
  destruct (rev _); [destruct H | reflexivity].
Qed.

(** ** The loop over the rules *)

Lemma matchPattern_skipped url pattern :
  enabled pattern = false \/ domainPattern pattern = [] \/ pathPattern pattern = [] ->
  matchPattern url pattern = Ok None.
Proof.
  intros H. unfold matchPattern.
  destruct (enabled pattern); cbn [negb]; [|reflexivity].
  destruct H as [H | [H | H]]; [discriminate| |]; rewrite H; cbn [falsy orb]; [reflexivity|].
  rewrite orb_true_r. reflexivity.
Qed.

Lemma try_patterns_all_null s ps :
  (forall p, In p ps -> matchPattern s p = Ok None) -> try_patterns s ps = Ok None.
Proof.
  induction ps as [|p ps IH]; intros H; simpl; [reflexivity|].
  rewrite (H p (or_introl eq_refl)). simpl. apply IH. intros q Hq. apply H. now right.
Qed.

Lemma formatLink_all_null s ps :
  (forall p, In p ps -> matchPattern s p = Ok None) -> formatLink s ps = Ok None.
Proof.
  intros H. unfold formatLink.
  destruct (falsy _); [reflexivity|]. destruct (RegExp_test _ _); [reflexivity|].
  now apply try_patterns_all_null.
Qed.

Lemma try_patterns_first s pre p post r :
  (forall q, In q pre -> matchPattern s q = Ok None) ->
  matchPattern s p = r ->
  r <> Ok None ->
  try_patterns s (pre ++ p :: post) = try_patterns s [p].
Proof.
  induction pre as [|q pre IH]; intros Hpre Hp Hr; simpl.
  - rewrite Hp. destruct r as [[v|]|e]; simpl; congruence.
  - rewrite (Hpre q (or_introl eq_refl)). simpl. apply IH; auto.
    intros q' Hq'. apply Hpre. now right.
Qed.

Lemma try_patterns_ok s ps :
  (forall p, In p ps -> exists v, matchPattern s p = Ok v) ->
  exists v, try_patterns s ps = Ok v.
Proof.
  induction ps as [|p ps IH]; intros H; cbn [try_patterns]; [eauto|].
  destruct (H p (or_introl eq_refl)) as [v Hv]. rewrite Hv. cbn [bind].
  destruct v; [eauto|]. apply IH. intros q Hq. apply H. now right.
Qed.

(** ** decodeURIComponent *)

Lemma decode_no_percent s :
  (forall c, In c s -> c <> ch "%") -> decodeURIComponent s = Ok s.
Proof.
  unfold decodeURIComponent. induction s as [|c t IH]; intros H; simpl; [reflexivity|].
  destruct (N.eqb_spec c 37) as [E|E].
  - exfalso. apply (H c); [now left | exact E].
  - rewrite IH; [reflexivity|]. intros a Ha. apply H. now right.
Qed.

Lemma decode_plain_prefix a b :
  (forall c, In c a -> c <> ch "%") ->
  decode 0 (a ++ b) = (r <- decode 0 b ;; Ok (a ++ r)).
Proof.
  induction a as [|c a IH]; intros H; cbn [app].
  - destruct (decode 0 b); reflexivity.
  - cbn [decode]. destruct (N.eqb_spec c (ch "%")) as [E|E].
    + exfalso. apply (H c); [now left | exact E].
    + rewrite IH by (intros x Hx; apply H; now right).
      destruct (decode 0 b); reflexivity.
Qed.

(** The decoder has one error. *)
Lemma decode_escape_throws t e : decode_escape t = Throw e -> e = URIError.
Proof.
  unfold decode_escape.
  repeat match goal with
         | |- context [match ?x with _ => _ end] => destruct x
         end; congruence.
Qed.

Lemma decode_throws s : forall skip e, decode skip s = Throw e -> e = URIError.
Proof.
  induction s as [|c t IH]; intros skip e; cbn [decode]; [discriminate|].
  destruct skip as [|n]; [|apply IH].
  destruct (N.eqb c (ch "%")).
  - destruct (decode_escape t) as [x|e1] eqn:E; cbn [bind].
    + destruct (decode (snd x) t) as [r|e2] eqn:E2; cbn [bind]; [discriminate|].
      intros H. injection H as <-. exact (IH _ _ E2).
    + intros H. injection H as <-. exact (decode_escape_throws _ _ E).
  - destruct (decode 0 t) as [r|e2] eqn:E2; cbn [bind]; [discriminate|].
    intros H. injection H as <-. exact (IH _ _ E2).
Qed.

Lemma decodeURIComponent_throws s e : decodeURIComponent s = Throw e -> e = URIError.
Proof. apply decode_throws. Qed.

(** An escape below 128 is one code unit. *)
Lemma decode_ascii_escape h1 h2 v b :
  hex_octet (h1 :: h2 :: b) = Some v -> (v < 128)%N ->
  decode 0 (ch "%" :: h1 :: h2 :: b) = (r <- decode 0 b ;; Ok (v :: r)).
Proof.
  intros Hv Hlt. cbn [decode]. change (N.eqb (ch "%") (ch "%")) with true. cbv iota.
  unfold decode_escape. rewrite Hv. apply N.ltb_lt in Hlt. rewrite Hlt.
  cbn [bind snd fst decode app]. destruct (decode 0 b); reflexivity.
Qed.

(** A percent sign that two hexadecimal digits do not follow is an error. *)
Lemma decode_malformed_escape a t :
  (forall c, In c a -> c <> ch "%") ->
  hex_octet t = None ->
  decodeURIComponent (a ++ ch "%" :: t) = Throw URIError.
Proof.
  intros Ha Ht. unfold decodeURIComponent. rewrite (decode_plain_prefix a _ Ha).
  cbn [decode]. change (N.eqb (ch "%") (ch "%")) with true. cbv iota.
  unfold decode_escape. rewrite Ht. reflexivity.
Qed.

Local Open Scope N_scope.

Ltac divmod v d :=
  let H1 := fresh "Hdiv" in let H2 := fresh "Hmod" in
  let q := fresh "q" in let r := fresh "r" in
  assert (H1 : v = d * (v / d) + v mod d) by (apply N.div_mod; discriminate);
  assert (H2 : v mod d < d) by (apply N.mod_lt; discriminate);
  set (q := v / d) in *; set (r := v mod d) in *; clearbody q r.

Ltac ltb_is b :=
  match goal with
  | |- context [?x <? ?y] =>
      replace (x <? y) with b
        by (symmetry; first [apply N.ltb_lt; lia | apply N.ltb_ge; lia])
  end.

Ltac leb_is b :=
  match goal with
  | |- context [?x <=? ?y] =>
      replace (x <=? y) with b
        by (symmetry; first [apply N.leb_le; lia | apply N.leb_gt; lia])
  end.

(** ** The digits of the decoder are those of the table *)

Lemma hex_val_table c v : hex_val c = Some v <-> In (c, v) hex_digits.
Proof.
  split.
  - unfold hex_val, is_digit.
    destruct ((48 <=? c) && (c <=? 57)) eqn:E1.
    { apply andb_true_iff in E1. destruct E1 as [A B]. apply N.leb_le in A, B.
      intros [= <-].
      assert (H : c = 48 \/ c = 49 \/ c = 50 \/ c = 51 \/ c = 52 \/ c = 53 \/ c = 54
                  \/ c = 55 \/ c = 56 \/ c = 57) by lia.
      repeat (destruct H as [-> | H];
              [vm_compute; repeat (first [left; reflexivity | right])|]).
      subst c. vm_compute. repeat (first [left; reflexivity | right]). }
    destruct ((65 <=? c) && (c <=? 70)) eqn:E2.
    { apply andb_true_iff in E2. destruct E2 as [A B]. apply N.leb_le in A, B.
      intros [= <-].
      assert (H : c = 65 \/ c = 66 \/ c = 67 \/ c = 68 \/ c = 69 \/ c = 70) by lia.
      repeat (destruct H as [-> | H];
              [vm_compute; repeat (first [left; reflexivity | right])|]).
      subst c. vm_compute. repeat (first [left; reflexivity | right]). }
    destruct ((97 <=? c) && (c <=? 102)) eqn:E3; [|discriminate].
    apply andb_true_iff in E3. destruct E3 as [A B]. apply N.leb_le in A, B.
    intros [= <-].
    assert (H : c = 97 \/ c = 98 \/ c = 99 \/ c = 100 \/ c = 101 \/ c = 102) by lia.
    repeat (destruct H as [-> | H];
            [vm_compute; repeat (first [left; reflexivity | right])|]).
    subst c. vm_compute. repeat (first [left; reflexivity | right]).
  - intros H. cbn [In hex_digits] in H.
    repeat (destruct H as [H | H]; [injection H as <- <-; reflexivity|]). destruct H.
Qed.

Lemma hex_octet_spec t b :
  hex_octet t = Some b <-> exists h1 h2 t', t = h1 :: h2 :: t' /\ hex_pair h1 h2 b.
Proof.
  unfold hex_octet, hex_pair. split.
  - destruct t as [|h1 [|h2 t']]; try discriminate.
    destruct (hex_val h1) as [a|] eqn:E1; [|discriminate].
    destruct (hex_val h2) as [c|] eqn:E2; [|discriminate].
    intros [= <-]. exists h1, h2, t'. split; [reflexivity|].
    exists a, c. rewrite <- !hex_val_table. repeat split; auto. lia.
  - intros (h1 & h2 & t' & -> & v1 & v2 & H1 & H2 & ->).
    apply hex_val_table in H1, H2. rewrite H1, H2. f_equal. lia.
Qed.

Lemma hex_pair_bound h1 h2 b : hex_pair h1 h2 b -> b < 256.
Proof.
  intros (v1 & v2 & H1 & H2 & ->).
  assert (B : forall h v, In (h, v) hex_digits -> v < 16).
  { intros h v H. cbn [In hex_digits] in H.
    repeat (destruct H as [H | H]; [injection H as <- <-; reflexivity|]). destruct H. }
  apply B in H1, H2. lia.
Qed.

Lemma cont_octet_spec t x :
  cont_octet t = Some x <->
  exists h1 h2 t', t = ch "%" :: h1 :: h2 :: t' /\ hex_pair h1 h2 (128 + x) /\ x < 64.
Proof.
  unfold cont_octet. split.
  - destruct t as [|p t1]; [discriminate|].
    destruct (N.eqb_spec p (ch "%")) as [->|]; [|discriminate].
    destruct (hex_octet t1) as [b|] eqn:E; [|discriminate].
    apply hex_octet_spec in E. destruct E as (h1 & h2 & t' & -> & Hp).
    destruct ((128 <=? b) && (b <=? 191)) eqn:Eb; [|discriminate].
    apply andb_true_iff in Eb. destruct Eb as [A B]. apply N.leb_le in A, B.
    intros [= <-]. exists h1, h2, t'. split; [reflexivity|].
    replace (128 + (b - 128)) with b by lia. split; [exact Hp | lia].
  - intros (h1 & h2 & t' & -> & Hp & Hx).
    change (N.eqb (ch "%") (ch "%")) with true. cbv iota.
    assert (E : hex_octet (h1 :: h2 :: t') = Some (128 + x)).
    { apply hex_octet_spec. eauto. }
    rewrite E. repeat leb_is true. cbn [andb]. f_equal. lia.
Qed.

(** ** UTF-8 by octets *)

Lemma utf8_1 b : b < 128 -> utf8 b = [b].
Proof. intros H. unfold utf8. ltb_is true. reflexivity. Qed.

Lemma utf8_2 b x :
  192 <= b -> b < 224 -> x < 64 -> 128 <= (b - 192) * 64 + x ->
  utf8 ((b - 192) * 64 + x) = [b; 128 + x].
Proof.
  intros H1 H2 H3 H4. unfold utf8. set (v := (b - 192) * 64 + x) in *.
  ltb_is false. ltb_is true.
  assert (Hq : v / 64 = b - 192) by (symmetry; apply (N.div_unique v 64 _ x); subst v; lia).
  assert (Hr : v mod 64 = x) by (symmetry; apply (N.mod_unique v 64 (b - 192) x); subst v; lia).
  rewrite Hq, Hr. f_equal. lia.
Qed.

Lemma utf8_3 b x y :
  224 <= b -> b < 240 -> x < 64 -> y < 64 -> 2048 <= ((b - 224) * 64 + x) * 64 + y ->
  utf8 (((b - 224) * 64 + x) * 64 + y) = [b; 128 + x; 128 + y].
Proof.
  intros H1 H2 H3 H4 H5. unfold utf8. set (v := ((b - 224) * 64 + x) * 64 + y) in *.
  ltb_is false. ltb_is false. ltb_is true.
  assert (Hq1 : v / 64 = (b - 224) * 64 + x)
    by (symmetry; apply (N.div_unique v 64 _ y); subst v; lia).
  assert (Hr1 : v mod 64 = y)
    by (symmetry; apply (N.mod_unique v 64 ((b - 224) * 64 + x) y); subst v; lia).
  assert (Hq2 : v / 4096 = b - 224)
    by (symmetry; apply (N.div_unique v 4096 _ (x * 64 + y)); subst v; lia).
  assert (Hr2 : ((b - 224) * 64 + x) mod 64 = x)
    by (symmetry; apply (N.mod_unique _ 64 (b - 224) x); lia).
  rewrite Hq1, Hr1, Hq2, Hr2. f_equal. lia.
Qed.

Lemma utf8_4 b x y z :
  240 <= b -> b < 248 -> x < 64 -> y < 64 -> z < 64 ->
  65536 <= (((b - 240) * 64 + x) * 64 + y) * 64 + z ->
  utf8 ((((b - 240) * 64 + x) * 64 + y) * 64 + z) = [b; 128 + x; 128 + y; 128 + z].
Proof.
  intros H1 H2 H3 H4 H5 H6. unfold utf8.
  set (v := (((b - 240) * 64 + x) * 64 + y) * 64 + z) in *.
  ltb_is false. ltb_is false. ltb_is false.
  assert (Hq1 : v / 64 = ((b - 240) * 64 + x) * 64 + y)
    by (symmetry; apply (N.div_unique v 64 _ z); subst v; lia).
  assert (Hr1 : v mod 64 = z)
    by (symmetry; apply (N.mod_unique v 64 (((b - 240) * 64 + x) * 64 + y) z); subst v; lia).
  assert (Hq2 : v / 4096 = (b - 240) * 64 + x)
    by (symmetry; apply (N.div_unique v 4096 _ (y * 64 + z)); subst v; lia).
  assert (Hq3 : v / 262144 = b - 240)
    by (symmetry; apply (N.div_unique v 262144 _ ((x * 64 + y) * 64 + z)); subst v; lia).
  assert (Hr2 : (((b - 240) * 64 + x) * 64 + y) mod 64 = y)
    by (symmetry; apply (N.mod_unique _ 64 ((b - 240) * 64 + x) y); lia).
  assert (Hr3 : ((b - 240) * 64 + x) mod 64 = x)
    by (symmetry; apply (N.mod_unique _ 64 (b - 240) x); lia).
  rewrite Hq1, Hr1, Hq2, Hq3, Hr2, Hr3. f_equal. lia.
Qed.

(** The octets of a scalar value: the first tells their number, the others
    are continuation octets, and together they hold the value. *)
Lemma utf8_octets v :
  v <= 1114111 ->
  (v < 128 /\ utf8 v = [v])
  \/ (128 <= v < 2048 /\
      exists b x, utf8 v = [b; 128 + x] /\ 192 <= b < 224 /\ x < 64 /\ v = (b - 192) * 64 + x)
  \/ (2048 <= v < 65536 /\
      exists b x y, utf8 v = [b; 128 + x; 128 + y] /\ 224 <= b < 240 /\ x < 64 /\ y < 64
                    /\ v = ((b - 224) * 64 + x) * 64 + y)
  \/ (65536 <= v /\
      exists b x y z, utf8 v = [b; 128 + x; 128 + y; 128 + z] /\ 240 <= b < 248
                      /\ x < 64 /\ y < 64 /\ z < 64
                      /\ v = (((b - 240) * 64 + x) * 64 + y) * 64 + z).
Proof.
  intros Hv.
  destruct (N.ltb_spec v 128) as [H1|H1]; [left; split; [exact H1 | now apply utf8_1]|].
  right. destruct (N.ltb_spec v 2048) as [H2|H2].
  { left. split; [lia|]. unfold utf8. ltb_is false. ltb_is true.
    exists (192 + v / 64), (v mod 64). split; [reflexivity|].
    divmod v 64. lia. }
  right. destruct (N.ltb_spec v 65536) as [H3|H3].
  { left. split; [lia|]. unfold utf8. ltb_is false. ltb_is false. ltb_is true.
    exists (224 + v / 4096), ((v / 64) mod 64), (v mod 64). split; [reflexivity|].
    assert (E : v / 4096 = v / 64 / 64) by (rewrite N.Div0.div_div; reflexivity).
    rewrite E. divmod v 64. divmod q 64. lia. }
  right. split; [lia|]. unfold utf8. ltb_is false. ltb_is false. ltb_is false.
  exists (240 + v / 262144), ((v / 4096) mod 64), ((v / 64) mod 64), (v mod 64).
  split; [reflexivity|].
  assert (E1 : v / 4096 = v / 64 / 64) by (rewrite N.Div0.div_div; reflexivity).
  assert (E2 : v / 262144 = v / 64 / 64 / 64) by (rewrite !N.Div0.div_div; reflexivity).
  rewrite E1, E2. divmod v 64. divmod q 64. divmod q0 64. lia.
Qed.

(** ** UTF-16 *)

Lemma utf16_encode_spec v : v <= 1114111 -> utf16 v (utf16_encode v).
Proof.
  intros H. unfold utf16, utf16_encode. destruct (N.ltb_spec v 65536) as [L|L]; [now left|].
  right. exists ((v - 65536) / 1024), ((v - 65536) mod 1024).
  divmod (v - 65536) 1024. repeat split; try lia.
Qed.

Lemma utf16_unique v u : utf16 v u -> u = utf16_encode v.
Proof.
  unfold utf16, utf16_encode. intros [[L ->] | (hi & lo & Hh & Hl & -> & ->)].
  - ltb_is true. reflexivity.
  - ltb_is false.
    assert (Hq : (65536 + 1024 * hi + lo - 65536) / 1024 = hi)
      by (symmetry; apply (N.div_unique _ 1024 _ lo); lia).
    assert (Hr : (65536 + 1024 * hi + lo - 65536) mod 1024 = lo)
      by (symmetry; apply (N.mod_unique _ 1024 hi lo); lia).
    now rewrite Hq, Hr.
Qed.

Lemma scalar_from_spec lo v :
  scalar_from lo v = true <-> lo <= v /\ scalar_value v.
Proof.
  unfold scalar_from, scalar_value.
  rewrite !andb_true_iff, negb_true_iff, andb_false_iff, !N.leb_le, !N.leb_gt. lia.
Qed.

(** ** The decoder against the description *)

Lemma decode_skip s : forall n, decode n s = decode 0 (skipn n s).
Proof.
  induction s as [|c t IH]; intros [|n]; try reflexivity.
  cbn [decode skipn]. apply IH.
Qed.

Lemma decode_percent t :
  decode 0 (ch "%" :: t)
  = (e <- decode_escape t ;; r <- decode 0 (skipn (snd e) t) ;; Ok (fst e ++ r)).
Proof.
  cbn [decode]. change (N.eqb (ch "%") (ch "%")) with true. cbv iota.
  destruct (decode_escape t) as [e|]; cbn [bind]; [|reflexivity].
  now rewrite decode_skip.
Qed.

(** What the decoder takes for an escape is the text of a scalar value. *)
Lemma decode_escape_sound t u n :
  decode_escape t = Ok (u, n) ->
  exists v e rest, t = e ++ rest /\ length e = n /\ scalar_value v
                   /\ escapes (utf8 v) (ch "%" :: e) /\ utf16 v u.
Proof.
  unfold decode_escape.
  destruct (hex_octet t) as [b|] eqn:Eb; [|discriminate].
  apply hex_octet_spec in Eb. destruct Eb as (h1 & h2 & t2 & -> & Hp).
  cbn [skipn].
  destruct (N.ltb_spec b 128) as [L1|L1].
  { intros [= <- <-]. exists b, [h1; h2], t2. repeat split.
    - left. lia.
    - rewrite utf8_1 by exact L1. repeat constructor. exact Hp.
    - left. split; [lia | reflexivity]. }
  destruct (N.ltb_spec b 192) as [L2|L2]; [discriminate|].
  destruct (N.ltb_spec b 224) as [L3|L3].
  { destruct (cont_octet t2) as [x|] eqn:E2; [|discriminate].
    apply cont_octet_spec in E2. destruct E2 as (h3 & h4 & t3 & -> & Hp2 & Hx).
    destruct (scalar_from 128 _) eqn:Es; [|discriminate].
    apply scalar_from_spec in Es. destruct Es as [Hlo Hs].
    intros [= <- <-]. exists ((b - 192) * 64 + x), [h1; h2; ch "%"; h3; h4], t3.
    repeat split; [exact Hs | | apply utf16_encode_spec; unfold scalar_value in Hs; lia].
    rewrite utf8_2 by assumption. repeat constructor; assumption. }
  destruct (N.ltb_spec b 240) as [L4|L4].
  { destruct (cont_octet t2) as [x|] eqn:E2; [|discriminate].
    apply cont_octet_spec in E2. destruct E2 as (h3 & h4 & t3 & -> & Hp2 & Hx).
    cbn [skipn].
    destruct (cont_octet t3) as [y|] eqn:E3; [|discriminate].
    apply cont_octet_spec in E3. destruct E3 as (h5 & h6 & t4 & -> & Hp3 & Hy).
    destruct (scalar_from 2048 _) eqn:Es; [|discriminate].
    apply scalar_from_spec in Es. destruct Es as [Hlo Hs].
    intros [= <- <-].
    exists (((b - 224) * 64 + x) * 64 + y), [h1; h2; ch "%"; h3; h4; ch "%"; h5; h6], t4.
    repeat split; [exact Hs | | apply utf16_encode_spec; unfold scalar_value in Hs; lia].
    rewrite utf8_3 by assumption. repeat constructor; assumption. }
  destruct (N.ltb_spec b 248) as [L5|L5]; [|discriminate].
  destruct (cont_octet t2) as [x|] eqn:E2; [|discriminate].
  apply cont_octet_spec in E2. destruct E2 as (h3 & h4 & t3 & -> & Hp2 & Hx).
  cbn [skipn].
  destruct (cont_octet t3) as [y|] eqn:E3; [|discriminate].
  apply cont_octet_spec in E3. destruct E3 as (h5 & h6 & t4 & -> & Hp3 & Hy).
  cbn [skipn].
  destruct (cont_octet t4) as [z|] eqn:E4; [|discriminate].
  apply cont_octet_spec in E4. destruct E4 as (h7 & h8 & t5 & -> & Hp4 & Hz).
  destruct (scalar_from 65536 _) eqn:Es; [|discriminate].
  apply scalar_from_spec in Es. destruct Es as [Hlo Hs].
  intros [= <- <-].
  exists ((((b - 240) * 64 + x) * 64 + y) * 64 + z),
    [h1; h2; ch "%"; h3; h4; ch "%"; h5; h6; ch "%"; h7; h8], t5.
  repeat split; [exact Hs | | apply utf16_encode_spec; unfold scalar_value in Hs; lia].
  rewrite utf8_4 by assumption. repeat constructor; assumption.
Qed.

Lemma hex_octet_pair h1 h2 b t : hex_pair h1 h2 b -> hex_octet (h1 :: h2 :: t) = Some b.
Proof. intros H. apply hex_octet_spec. eauto. Qed.

Lemma cont_octet_pair h1 h2 x t :
  hex_pair h1 h2 (128 + x) -> x < 64 -> cont_octet (ch "%" :: h1 :: h2 :: t) = Some x.
Proof. intros H Hx. apply cont_octet_spec. exists h1, h2, t. auto. Qed.

Ltac scalar_ok :=
  match goal with
  | Hs : scalar_value _ |- context [scalar_from ?a ?w] =>
      replace (scalar_from a w) with true
        by (symmetry; apply scalar_from_spec; split; [lia | exact Hs])
  end.

(** The text of a scalar value is an escape for the decoder. *)
Lemma decode_escape_complete v e u s :
  scalar_value v -> escapes (utf8 v) (ch "%" :: e) -> utf16 v u ->
  decode_escape (e ++ s) = Ok (u, length e).
Proof.
  intros Hs He Hu. apply utf16_unique in Hu. subst u.
  assert (Hv : v <= 1114111) by (unfold scalar_value in Hs; lia).
  unfold decode_escape.
  destruct (utf8_octets v Hv)
    as [[L E] | [[L (b & x & E & Hb & Hx & Ev)]
       | [[L (b & x & y & E & Hb & Hx & Hy & Ev)]
         | [L (b & x & y & z & E & Hb & Hx & Hy & Hz & Ev)]]]];
    rewrite E in He.
  - inversion He as [|? ? h1 h2 t1 Hp1 He1]; subst. inversion He1; subst.
    cbn [app]. rewrite (hex_octet_pair _ _ _ _ Hp1). unfold utf16_encode.
    replace (v <? 128) with true by (symmetry; apply N.ltb_lt; lia).
    replace (v <? 65536) with true by (symmetry; apply N.ltb_lt; lia).
    reflexivity.
  - inversion He as [|? ? h1 h2 t1 Hp1 He1]; subst.
    inversion He1 as [|? ? h3 h4 t2 Hp2 He2]; subst. inversion He2; subst.
    cbn [app]. rewrite (hex_octet_pair _ _ _ _ Hp1).
    ltb_is false. ltb_is false. ltb_is true. cbn [skipn].
    rewrite (cont_octet_pair _ _ _ _ Hp2 Hx).
    scalar_ok.
    reflexivity.
  - inversion He as [|? ? h1 h2 t1 Hp1 He1]; subst.
    inversion He1 as [|? ? h3 h4 t2 Hp2 He2]; subst.
    inversion He2 as [|? ? h5 h6 t3 Hp3 He3]; subst. inversion He3; subst.
    cbn [app]. rewrite (hex_octet_pair _ _ _ _ Hp1).
    ltb_is false. ltb_is false. ltb_is false. ltb_is true. cbn [skipn].
    rewrite (cont_octet_pair _ _ _ _ Hp2 Hx), (cont_octet_pair _ _ _ _ Hp3 Hy).
    scalar_ok.
    reflexivity.
  - inversion He as [|? ? h1 h2 t1 Hp1 He1]; subst.
    inversion He1 as [|? ? h3 h4 t2 Hp2 He2]; subst.
    inversion He2 as [|? ? h5 h6 t3 Hp3 He3]; subst.
    inversion He3 as [|? ? h7 h8 t4 Hp4 He4]; subst. inversion He4; subst.
    cbn [app]. rewrite (hex_octet_pair _ _ _ _ Hp1).
    ltb_is false. ltb_is false. ltb_is false. ltb_is false. ltb_is true. cbn [skipn].
    rewrite (cont_octet_pair _ _ _ _ Hp2 Hx), (cont_octet_pair _ _ _ _ Hp3 Hy),
      (cont_octet_pair _ _ _ _ Hp4 Hz).
    scalar_ok.
    reflexivity.
Qed.

Lemma escapes_percent bs t : escapes bs t -> bs <> [] -> exists e, t = ch "%" :: e.
Proof. intros H Hn. destruct H; [congruence | eauto]. Qed.

Lemma utf8_not_nil v : utf8 v <> [].
Proof. unfold utf8. repeat (destruct (_ <? _); [discriminate|]). discriminate. Qed.

Lemma decode_sound n : forall s r,
  (length s <= n)%nat -> decode 0 s = Ok r -> percent_decoded s r.
Proof.
  induction n as [|n IH]; intros s r Hn H.
  - destruct s; [|cbn in Hn; lia]. cbn in H. injection H as <-. constructor.
  - destruct s as [|c t]; [cbn in H; injection H as <-; constructor|].
    cbn [length] in Hn. destruct (N.eqb_spec c (ch "%")) as [->|Hc].
    + rewrite decode_percent in H.
      destruct (decode_escape t) as [[u k]|] eqn:E; cbn [bind fst snd] in H; [|discriminate].
      destruct (decode 0 (skipn k t)) as [r'|] eqn:E'; cbn [bind] in H; [|discriminate].
      injection H as <-.
      apply decode_escape_sound in E.
      destruct E as (v & e & rest & -> & <- & Hs & He & Hu).
      rewrite skipn_app, skipn_all, Nat.sub_diag in E'. cbn [skipn app] in E'.
      change (ch "%" :: e ++ rest) with ((ch "%" :: e) ++ rest).
      apply (decoded_escape v); auto. apply IH; [|exact E'].
      rewrite length_app in Hn. lia.
    + cbn [decode] in H. apply N.eqb_neq in Hc. rewrite Hc in H. apply N.eqb_neq in Hc.
      destruct (decode 0 t) as [r'|] eqn:E'; cbn [bind] in H; [|discriminate].
      injection H as <-. constructor; [exact Hc|]. apply IH; [lia | exact E'].
Qed.

Lemma decode_complete s r : percent_decoded s r -> decode 0 s = Ok r.
Proof.
  induction 1 as [|c s r Hc _ IH|v t u s r Hs He Hu _ IH].
  - reflexivity.
  - cbn [decode]. apply N.eqb_neq in Hc. rewrite Hc, IH. reflexivity.
  - destruct (escapes_percent _ _ He (utf8_not_nil v)) as [e ->].
    cbn [app]. rewrite decode_percent.
    rewrite (decode_escape_complete v e u s Hs He Hu). cbn [bind fst snd].
    rewrite skipn_app, skipn_all, Nat.sub_diag. cbn [skipn app]. rewrite IH. reflexivity.
Qed.

(** [decodeURIComponent] returns a text exactly when the argument encodes
    it, and throws otherwise. *)
Lemma decodeURIComponent_spec s r :
  decodeURIComponent s = Ok r <-> percent_decoded s r.
Proof.
  unfold decodeURIComponent. split.
  - apply (decode_sound (length s)). reflexivity.
  - apply decode_complete.
Qed.

Lemma decodeURIComponent_fails s :
  decodeURIComponent s = Throw URIError <-> forall r, ~ percent_decoded s r.
Proof.
  split.
  - intros H r Hr. apply decodeURIComponent_spec in Hr. congruence.
  - intros H. destruct (decodeURIComponent s) as [r|e] eqn:E.
    + apply decodeURIComponent_spec in E. now apply H in E.
    + now rewrite (decodeURIComponent_throws _ _ E).
Qed.

Local Close Scope N_scope.

(** ** escapeDomainPattern and the expression built from it *)

Lemma flat_map_flat_map {A B C} (f : A -> list B) (g : B -> list C) l :
  flat_map g (flat_map f l) = flat_map (fun a => flat_map g (f a)) l.
Proof.
  induction l as [|a l IH]; simpl; [reflexivity|].
  now rewrite flat_map_app, IH.
Qed.

Lemma special_cases c :
  is_special c = true ->
  In c (str ".+?^${}()|[]\").
Proof.
  unfold is_special. intros H. apply existsb_exists in H. destruct H as [a [Ha E]].
  apply N.eqb_eq in E. now subst a.
Qed.

Lemma special_not_star c : is_special c = true -> N.eqb c (ch "*") = false.
Proof.
  unfold is_special. intros H. apply existsb_exists in H. destruct H as [a [Ha E]].
  apply N.eqb_eq in E. subst a.
  simpl in Ha. repeat (destruct Ha as [<- | Ha]; [reflexivity|]). destruct Ha.
Qed.

Lemma escapeDomainPattern_spec d : escapeDomainPattern d = flat_map esc1 d.
Proof.
  unfold escapeDomainPattern, String_replace. simpl re_global. cbv iota.
  rewrite (replace_all_one_char d re_special is_special (fun c => [ch "\"; c]));
    try reflexivity.
  rewrite (replace_all_one_char _ re_star (fun c => N.eqb c (ch "*")) (fun _ => str ".*"));
    try reflexivity.
  rewrite flat_map_flat_map. apply flat_map_ext. intros c. unfold esc1.
  destruct (is_special c) eqn:E.
  - cbn [flat_map]. rewrite (special_not_star c E). reflexivity.
  - cbn [flat_map]. rewrite app_nil_r. reflexivity.
Qed.

Lemma lex_special ng c t :
  is_special c = true -> lex ng 0 (ch "\" :: c :: t) = toks <- lex ng 0 t ;; Ok (TTerm (RChar c) :: toks).
Proof.
  intros H. apply special_cases in H. simpl in H.
  repeat (destruct H as [<- | H]; [reflexivity|]). destruct H.
Qed.

Lemma plain_tests c :
  is_special c = false ->
  N.eqb c 46 = false /\ N.eqb c 43 = false /\ N.eqb c 63 = false /\ N.eqb c 94 = false
  /\ N.eqb c 36 = false /\ N.eqb c 123 = false /\ N.eqb c 125 = false /\ N.eqb c 40 = false
  /\ N.eqb c 41 = false /\ N.eqb c 124 = false /\ N.eqb c 91 = false /\ N.eqb c 93 = false
  /\ N.eqb c 92 = false.
Proof.
  unfold is_special. simpl. rewrite !orb_false_iff. tauto.
Qed.

Lemma lex_plain ng c t :
  is_special c = false -> N.eqb c (ch "*") = false ->
  lex ng 0 (c :: t) = toks <- lex ng 0 t ;; Ok (TTerm (RChar c) :: toks).
Proof.
  intros H Hs. apply plain_tests in H.
  destruct H as (H1 & H2 & H3 & H4 & H5 & H6 & H7 & H8 & H9 & H10 & H11 & H12 & H13).
  change (ch "*") with 42%N in Hs.
  cbn [lex]. unfold lex1.
  change (ch "\") with 92%N; change (ch "[") with 91%N; change (ch "(") with 40%N;
  change (ch ")") with 41%N; change (ch "|") with 124%N; change (ch "*") with 42%N;
  change (ch "+") with 43%N; change (ch "?") with 63%N; change (ch "{") with 123%N;
  change (ch "^") with 94%N; change (ch "$") with 36%N; change (ch ".") with 46%N.
  rewrite H13, H11, H8, H9, H10, Hs, H2, H3, H6, H4, H5, H1. reflexivity.
Qed.

Lemma esc_head_not_question d :
  match flat_map esc1 d with
  | c :: _ => N.eqb c (ch "?") = false
  | [] => True
  end.
Proof.
  destruct d as [|c d]; simpl; [exact I|]. unfold esc1.
  destruct (is_special c) eqn:E; [reflexivity|].
  destruct (N.eqb c (ch "*")) eqn:E2; [reflexivity|].
  simpl. apply plain_tests in E. tauto.
Qed.

Lemma lex_star ng d :
  lex ng 0 (str ".*" ++ flat_map esc1 d)
  = toks <- lex ng 0 (flat_map esc1 d) ;; Ok (TTerm RAny :: TQuant 0 None true :: toks).
Proof.
  pose proof (esc_head_not_question d) as H.
  change (str ".*" ++ flat_map esc1 d) with (46 :: 42 :: flat_map esc1 d)%N.
  cbn [lex]. unfold lex1 at 1. cbn -[lex lex1 flat_map].
  unfold lex1. cbn -[lex flat_map]. unfold quant. cbn [skipn].
  destruct (flat_map esc1 d) as [|c t].
  - reflexivity.
  - change (ch "?") with 63%N in *. rewrite H. cbn [snd fst].
    destruct (lex ng 0 (c :: t)); reflexivity.
Qed.

Lemma lex_wild ng d : lex ng 0 (flat_map esc1 d) = Ok (flat_map tok1 d).
Proof.
  induction d as [|c d IH]; [reflexivity|].
  cbn [flat_map]. unfold esc1 at 1, tok1 at 1.
  destruct (is_special c) eqn:E.
  - rewrite (special_not_star c E). cbn [app].
    rewrite (lex_special ng c _ E), IH. reflexivity.
  - destruct (N.eqb c (ch "*")) eqn:E2.
    + rewrite lex_star, IH. reflexivity.
    + cbn [app]. rewrite (lex_plain ng c _ E E2), IH. reflexivity.
Qed.

Lemma parse_wild d : forall toks next alts cur stack,
  parse (flat_map tok1 d ++ toks) next alts cur stack
  = parse toks next alts (rev (map term1 d) ++ cur) stack.
Proof.
  induction d as [|c d IH]; intros; [reflexivity|].
  cbn [flat_map map rev]. rewrite <- !app_assoc.
  assert (Ht : tok1 c = if N.eqb c (ch "*") then [TTerm RAny; TQuant 0 None true]
                        else [TTerm (RChar c)]) by reflexivity.
  assert (Hr : term1 c = if N.eqb c (ch "*") then RQuant 0 None true RAny else RChar c)
    by reflexivity.
  rewrite Ht, Hr.
  destruct (N.eqb c (ch "*")); cbn [app parse quantifiable bounds_ok andb]; rewrite IH; reflexivity.
Qed.

Lemma count_groups_wild d : count_groups (flat_map tok1 d) = 0.
Proof.
  unfold count_groups. induction d as [|c d IH]; [reflexivity|].
  cbn [flat_map]. rewrite filter_app, length_app, IH. unfold tok1.
  destruct (N.eqb c (ch "*")); reflexivity.
Qed.

Lemma lex_protocol ng x :
  lex ng 0 (str "^https?:\/\/" ++ x) =
  toks <- lex ng 0 x ;;
  Ok ([TTerm RBol; TTerm (RChar (ch "h")); TTerm (RChar (ch "t")); TTerm (RChar (ch "t"));
       TTerm (RChar (ch "p")); TTerm (RChar (ch "s")); TQuant 0 (Some 1) true;
       TTerm (RChar (ch ":")); TTerm (RChar (ch "/")); TTerm (RChar (ch "/"))] ++ toks).
Proof.
  cbn -[lex]. cbn [lex]. cbn -[lex]. destruct (lex ng 0 x); reflexivity.
Qed.

Lemma resolve_all_simple named all toks :
  forallb simple_token toks = true -> resolve_all named all toks = Ok toks.
Proof.
  induction toks as [|tok toks IH]; intros H; [reflexivity|].
  cbn [forallb] in H. apply andb_true_iff in H. destruct H as [Ht H].
  cbn [resolve_all]. rewrite (IH H).
  destruct tok as [r|k| | |mn mx g|plain nm]; try discriminate; reflexivity.
Qed.

Lemma group_names_simple toks : forallb simple_token toks = true -> group_names toks = [].
Proof.
  induction toks as [|tok toks IH]; intros H; [reflexivity|].
  cbn [forallb] in H. apply andb_true_iff in H. destruct H as [Ht H].
  unfold group_names in *. cbn [flat_map]. rewrite (IH H).
  destruct tok as [r|[| |neg|neg|n]| | |mn mx g|plain nm]; try discriminate; reflexivity.
Qed.

(** Without named groups and without [\k] the tokens are read as they are. *)
Lemma resolve_simple toks : forallb simple_token toks = true -> resolve toks = Ok toks.
Proof.
  intros H. unfold resolve. rewrite (group_names_simple _ H). cbn [has_duplicate length Nat.eqb negb].
  now apply resolve_all_simple.
Qed.

Lemma simple_wild d : forallb simple_token (flat_map tok1 d) = true.
Proof.
  induction d as [|c d IH]; [reflexivity|]. cbn [flat_map]. rewrite forallb_app, IH.
  unfold tok1. destruct (N.eqb c (ch "*")); reflexivity.
Qed.

Lemma domainRegex_new d :
  RegExp_new (str "^https?:\/\/" ++ escapeDomainPattern d) false
  = Ok (mkRegExp (domain_ast d) 0 false).
Proof.
  unfold RegExp_new. rewrite escapeDomainPattern_spec, !lex_protocol, !lex_wild.
  cbn [bind]. unfold count_groups. cbn [app filter is_capture].
  fold (count_groups (flat_map tok1 d)). rewrite count_groups_wild.
  rewrite lex_protocol, lex_wild. cbn [bind].
  rewrite resolve_simple by (cbn [app forallb simple_token andb]; apply simple_wild).
  cbn [bind app parse quantifiable bounds_ok andb Nat.leb].
  rewrite <- (app_nil_r (flat_map tok1 d)), parse_wild. cbn [parse bind].
  unfold close_frame, domain_ast, protocol_terms. cbn [rev app alt_of].
  rewrite rev_app_distr, rev_involutive. reflexivity.
Qed.

(** ** The domain expression matches only what the wildcard admits *)

Lemma m_seq_char input c r x k z :
  m input (RSeq (RChar c) r) x k = Some z ->
  exists t, rest x = c :: t /\ m input r (advance x t) k = Some z.
Proof.
  cbn [m]. destruct (rest x) as [|a t]; [discriminate|].
  destruct (N.eqb_spec a c) as [->|]; [|discriminate]. eauto.
Qed.

Lemma star_any_sound input ids K P z :
  (forall y, K y = Some z -> P (rest y) = true) ->
  forall fuel x,
  repeat_matcher (m input RAny) ids true K fuel 0 None x = Some z ->
  any_suffix P (rest x) = true.
Proof.
  intros HK. induction fuel as [|fuel IH]; intros x H; [discriminate|].
  cbn [repeat_matcher] in H.
  destruct (m input RAny (clear_caps ids x) _) as [z'|] eqn:E.
  - inversion H; subst z'. clear H. cbn [m] in E. cbn [clear_caps rest] in E.
    destruct (rest x) as [|a t] eqn:Er; [discriminate|].
    destruct (is_line_terminator a); [discriminate|].
    cbn [Nat.eqb andb] in E.
    destruct (Nat.eqb _ _); [discriminate|].
    apply IH in E. cbn [advance rest] in E. cbn [any_suffix]. rewrite E. apply orb_true_r.
  - apply HK in H. destruct (rest x); cbn [any_suffix]; rewrite H; reflexivity.
Qed.

Lemma m_wild_sound input d : forall x k z,
  m input (seq_of (map term1 d)) x k = Some z -> wildcard_prefix d (rest x) = true.
Proof.
  induction d as [|c d IH]; intros x k z H; [reflexivity|].
  cbn [map seq_of fold_right] in H. fold (seq_of (map term1 d)) in H.
  cbn [wildcard_prefix]. unfold term1 in H.
  destruct (N.eqb c (ch "*")).
  - cbn [m] in H.
    apply (star_any_sound input _ (fun y => m input (seq_of (map term1 d)) y k)
             (wildcard_prefix d) z) in H; [exact H|].
    intros y Hy. exact (IH y k z Hy).
  - apply m_seq_char in H. destruct H as [t [Hr H]]. rewrite Hr.
    rewrite N.eqb_refl. cbn [andb]. apply IH in H. exact H.
Qed.

Lemma search_from_sound s r ng : forall suf i j y,
  search_from s r ng i suf = Some (j, y) ->
  (j = i /\ match_at s r ng i suf = Some y)
  \/ (i < j /\ exists suf', match_at s r ng j suf' = Some y).
Proof.
  induction suf as [|c t IH]; intros i j y H; cbn [search_from] in H.
  - destruct (match_at s r ng i []) eqn:E; [|discriminate].
    inversion H; subst. now left.
  - destruct (match_at s r ng i (c :: t)) eqn:E.
    + inversion H; subst. now left.
    + apply IH in H. right. destruct H as [[-> H] | [Hlt [suf' H]]].
      * split; [lia|]. eauto.
      * split; [lia|]. eauto.
Qed.

Lemma opt_char_unfold input c K x :
  repeat_matcher (m input (RChar c)) [] true K (S (length (rest x))) 0 (Some 1) x
  = match rest x with
    | a :: t =>
        if N.eqb a c then
          match K (advance x t) with
          | Some z => Some z
          | None => K x
          end
        else K x
    | [] => K x
    end.
Proof.
  destruct x as [p rs cs].
  cbn [repeat_matcher m clear_caps fold_left rest pos caps].
  destruct rs as [|a t]; [reflexivity|].
  destruct (N.eqb a c); [|reflexivity].
  unfold clear_caps, advance. cbn [pos rest caps fold_left].
  change (0 =? 0) with true. cbn [andb].
  replace (S p =? p) with false by (symmetry; apply Nat.eqb_neq; lia).
  reflexivity.
Qed.

Lemma m_opt_char input c r x k z :
  m input (RSeq (RQuant 0 (Some 1) true (RChar c)) r) x k = Some z ->
  (exists t, rest x = c :: t /\ m input r (advance x t) k = Some z)
  \/ m input r x k = Some z.
Proof.
  change (m input (RSeq (RQuant 0 (Some 1) true (RChar c)) r) x k)
    with (repeat_matcher (m input (RChar c)) [] true (fun y => m input r y k)
            (S (length (rest x))) 0 (Some 1) x).
  rewrite opt_char_unfold.
  destruct (rest x) as [|a t] eqn:Er; [now right|].
  destruct (N.eqb_spec a c) as [->|]; [|now right].
  destruct (m input r (advance x t) k) as [z'|] eqn:E.
  - intros [= <-]. left. exists t. split; [reflexivity|]. exact E.
  - intros H. now right.
Qed.

Lemma domain_test_sound d url :
  RegExp_test (mkRegExp (domain_ast d) 0 false) url = true ->
  exists tail, (url = str "http://" ++ tail \/ url = str "https://" ++ tail)
               /\ wildcard_prefix d tail = true.
Proof.
  unfold RegExp_test, RegExp_exec. cbn [re_ast re_ngroups].
  destruct (search_from url (domain_ast d) 0 0 url) as [[j y]|] eqn:E; [|discriminate].
  intros _. apply search_from_sound in E.
  assert (H : match_at url (domain_ast d) 0 0 url = Some y).
  { destruct E as [[_ H] | [Hlt [suf' H]]]; [exact H|].
    exfalso. unfold match_at, domain_ast in H. cbn [protocol_terms app seq_of fold_right m pos] in H.
    destruct j; [lia|]. discriminate. }
  clear E. unfold match_at, domain_ast in H.
  cbn [protocol_terms app seq_of fold_right] in H. fold (seq_of (map term1 d)) in H.
  cbn [m] in H. cbn [pos Nat.eqb] in H.
  change (m url (RSeq (RChar (ch "h")) (RSeq (RChar (ch "t")) (RSeq (RChar (ch "t"))
            (RSeq (RChar (ch "p")) (RSeq (RQuant 0 (Some 1) true (RChar (ch "s")))
            (RSeq (RChar (ch ":")) (RSeq (RChar (ch "/")) (RSeq (RChar (ch "/"))
            (seq_of (map term1 d))))))))))
            (MState 0 url (repeat None 0)) (fun y => Some y) = Some y) in H.
  apply m_seq_char in H. destruct H as [t1 [E1 H]]. cbn [rest] in E1.
  apply m_seq_char in H. destruct H as [t2 [E2 H]]. cbn [advance rest] in E2.
  apply m_seq_char in H. destruct H as [t3 [E3 H]]. cbn [advance rest] in E3.
  apply m_seq_char in H. destruct H as [t4 [E4 H]]. cbn [advance rest] in E4.
  subst url t1 t2 t3.
  apply m_opt_char in H. destruct H as [[t5 [E5 H]] | H].
  - cbn [advance rest] in E5. subst t4.
    apply m_seq_char in H. destruct H as [t6 [E6 H]]. cbn [advance rest] in E6.
    apply m_seq_char in H. destruct H as [t7 [E7 H]]. cbn [advance rest] in E7.
    apply m_seq_char in H. destruct H as [t8 [E8 H]]. cbn [advance rest] in E8.
    subst t5 t6 t7. apply m_wild_sound in H. cbn [advance rest] in H.
    exists t8. split; [right; reflexivity | exact H].
  - apply m_seq_char in H. destruct H as [t6 [E6 H]]. cbn [advance rest] in E6.
    apply m_seq_char in H. destruct H as [t7 [E7 H]]. cbn [advance rest] in E7.
    apply m_seq_char in H. destruct H as [t8 [E8 H]]. cbn [advance rest] in E8.
    subst t4 t6 t7. apply m_wild_sound in H. cbn [advance rest] in H.
    exists t8. split; [left; reflexivity | exact H].
Qed.

Lemma starts_with_app s tail : starts_with (s ++ tail) s = true.
Proof. induction s as [|c s IH]; simpl; [reflexivity|]. now rewrite N.eqb_refl, IH. Qed.

Lemma matchPattern_reaches url pattern :
  matchPattern url pattern <> Ok None ->
  enabled pattern = true /\ domainPattern pattern <> [] /\ pathPattern pattern <> []
  /\ RegExp_test (mkRegExp (domain_ast (domainPattern pattern)) 0 false) url = true.
Proof.
  unfold matchPattern. destruct (enabled pattern); cbn [negb]; [|congruence].
  destruct (domainPattern pattern) as [|c d] eqn:Ed; cbn [falsy orb]; [congruence|].
  destruct (pathPattern pattern) as [|c' p'] eqn:Ep; cbn [falsy]; [congruence|].
  rewrite domainRegex_new. cbn [bind].
  destruct (RegExp_test _ url); cbn [negb]; [|congruence].
  intros _. repeat split; congruence.
Qed.

Lemma matchPattern_throws url p e re :
  enabled p = true -> domainPattern p <> [] -> pathPattern p <> [] ->
  RegExp_new (domainRegex_source p) false = Ok re ->
  RegExp_test re url = true ->
  RegExp_new (fullRegex_source p) false = Throw e ->
  matchPattern url p = Throw e.
Proof.
  intros He Hd Hp Hre Ht Hfull. unfold matchPattern. rewrite He. cbn [negb].
  destruct (domainPattern p) as [|c d] eqn:Ed; [congruence|].
  destruct (pathPattern p) as [|c' p'] eqn:Ep; [congruence|]. cbn [falsy orb].
  unfold domainRegex_source, fullRegex_source in *. rewrite Ed in *. rewrite Ep in *.
  rewrite Hre. cbn [bind]. rewrite Ht. cbn [negb]. rewrite Hfull. reflexivity.
Qed.

(** ** The domain expression matches all that the wildcard admits *)

Lemma line_terminator_is_whitespace c :
  is_line_terminator c = true -> is_whitespace c = true.
Proof.
  unfold is_line_terminator. rewrite !orb_true_iff.
  intros [[[H | H] | H] | H]; apply N.eqb_eq in H; subst c; reflexivity.
Qed.

Lemma single_token_no_line_terminator s :
  single_token s = true -> no_line_terminator s = true.
Proof.
  unfold single_token. intros H. apply andb_true_iff in H. destruct H as [_ H].
  apply negb_true_iff in H. apply forallb_forall. intros c Hc.
  apply negb_true_iff. destruct (is_line_terminator c) eqn:E; [|reflexivity].
  apply line_terminator_is_whitespace in E.
  rewrite (no_whitespace_in s c H Hc) in E. discriminate.
Qed.

Lemma star_any_step input K fuel p a t cs :
  is_line_terminator a = false ->
  repeat_matcher (m input RAny) [] true K (S fuel) 0 None (MState p (a :: t) cs)
  = match repeat_matcher (m input RAny) [] true K fuel 0 None (MState (S p) t cs) with
    | Some z => Some z
    | None => K (MState p (a :: t) cs)
    end.
Proof.
  intros Ha. cbn [repeat_matcher].
  set (loop := repeat_matcher (m input RAny) [] true K fuel).
  unfold clear_caps, advance. cbn [m pos rest caps fold_left]. rewrite Ha.
  unfold advance. cbn [pos rest caps option_map Nat.pred].
  replace (S p =? p) with false by (symmetry; apply Nat.eqb_neq; lia).
  rewrite andb_false_r. reflexivity.
Qed.

Lemma star_any_end input K fuel p cs :
  repeat_matcher (m input RAny) [] true K (S fuel) 0 None (MState p [] cs)
  = K (MState p [] cs).
Proof. reflexivity. Qed.

(** The greedy star finds a continuation point whenever there is one. *)
Lemma star_any_complete input K P :
  (forall y, P (rest y) = true -> no_line_terminator (rest y) = true ->
             exists z, K y = Some z) ->
  forall s p cs fuel,
  length s < fuel ->
  no_line_terminator s = true ->
  any_suffix P s = true ->
  exists z, repeat_matcher (m input RAny) [] true K fuel 0 None (MState p s cs) = Some z.
Proof.
  intros HK. induction s as [|a t IH]; intros p cs fuel Hf Hs HP;
    (destruct fuel as [|fuel]; [cbn [length] in Hf; lia|]).
  - rewrite star_any_end. cbn [any_suffix] in HP. rewrite orb_false_r in HP.
    apply (HK (MState p [] cs) HP Hs).
  - cbn [no_line_terminator forallb] in Hs. apply andb_true_iff in Hs.
    destruct Hs as [Ha Ht]. apply negb_true_iff in Ha.
    rewrite (star_any_step _ _ _ _ _ _ _ Ha).
    destruct (repeat_matcher (m input RAny) [] true K fuel 0 None (MState (S p) t cs))
      as [z|] eqn:E; [eauto|].
    cbn [any_suffix] in HP. apply orb_true_iff in HP. destruct HP as [HP | HP].
    + apply (HK (MState p (a :: t) cs) HP). cbn [rest no_line_terminator forallb].
      rewrite Ha. exact Ht.
    + exfalso. cbn [length] in Hf.
      destruct (IH (S p) cs fuel) as [z Hz]; [lia | exact Ht | exact HP |]. congruence.
Qed.

Lemma m_wild_complete input d : forall x K,
  (forall y, exists z, K y = Some z) ->
  no_line_terminator (rest x) = true ->
  wildcard_prefix d (rest x) = true ->
  exists z, m input (seq_of (map term1 d)) x K = Some z.
Proof.
  induction d as [|c d IH]; intros x K HK Hx Hw; [apply HK|].
  cbn [map seq_of fold_right]. fold (seq_of (map term1 d)).
  cbn [wildcard_prefix] in Hw. unfold term1.
  destruct (N.eqb c (ch "*")).
  - cbn [m groups_of Nat.add]. destruct x as [p s cs]. cbn [rest] in *.
    apply (star_any_complete input _ (wildcard_prefix d)); [| lia | exact Hx | exact Hw].
    intros y Hy Hl. apply IH; assumption.
  - cbn [m]. destruct (rest x) as [|a t] eqn:Er; [discriminate|].
    apply andb_true_iff in Hw. destruct Hw as [Ha Hw]. rewrite Ha.
    apply IH; [exact HK | | exact Hw].
    cbn [advance rest]. cbn [no_line_terminator forallb] in Hx.
    apply andb_true_iff in Hx. tauto.
Qed.

Lemma search_from_head s r ng i suf y :
  match_at s r ng i suf = Some y -> search_from s r ng i suf = Some (i, y).
Proof. intros H. destruct suf; cbn [search_from]; rewrite H; reflexivity. Qed.

Lemma m_bol_eq input r s cs k :
  m input (RSeq RBol r) (MState 0 s cs) k = m input r (MState 0 s cs) k.
Proof. reflexivity. Qed.

Lemma m_char_eq input c r p t cs k :
  m input (RSeq (RChar c) r) (MState p (c :: t) cs) k = m input r (MState (S p) t cs) k.
Proof. cbn [m rest]. rewrite N.eqb_refl. reflexivity. Qed.

Lemma m_opt_eq input c r x k :
  m input (RSeq (RQuant 0 (Some 1) true (RChar c)) r) x k
  = match rest x with
    | a :: t =>
        if N.eqb a c then
          match m input r (advance x t) k with
          | Some z => Some z
          | None => m input r x k
          end
        else m input r x k
    | [] => m input r x k
    end.
Proof.
  change (m input (RSeq (RQuant 0 (Some 1) true (RChar c)) r) x k)
    with (repeat_matcher (m input (RChar c)) [] true (fun y => m input r y k)
            (S (length (rest x))) 0 (Some 1) x).
  apply opt_char_unfold.
Qed.

Lemma domain_test_complete d tail :
  no_line_terminator tail = true ->
  wildcard_prefix d tail = true ->
  RegExp_test (mkRegExp (domain_ast d) 0 false) (str "http://" ++ tail) = true
  /\ RegExp_test (mkRegExp (domain_ast d) 0 false) (str "https://" ++ tail) = true.
Proof.
  intros Hl Hw.
  assert (H : forall url p, exists z,
             m url (seq_of (map term1 d)) (MState p tail []) (fun y => Some y) = Some z).
  { intros url p. apply m_wild_complete; [eauto | exact Hl | exact Hw]. }
  unfold RegExp_test, RegExp_exec. cbn [re_ast re_ngroups]. split.
  - destruct (H (str "http://" ++ tail) 7) as [z Hz].
    rewrite (search_from_head _ _ _ _ _ z); [reflexivity|].
    unfold match_at, domain_ast. cbn [protocol_terms app seq_of fold_right repeat].
    fold (seq_of (map term1 d)).
    etransitivity; [apply m_bol_eq|].
    do 4 (etransitivity; [apply m_char_eq|]).
    etransitivity; [apply m_opt_eq|]. cbn [rest].
    change (N.eqb (ch ":") (ch "s")) with false. cbv iota.
    do 3 (etransitivity; [apply m_char_eq|]). exact Hz.
  - destruct (H (str "https://" ++ tail) 8) as [z Hz].
    rewrite (search_from_head _ _ _ _ _ z); [reflexivity|].
    unfold match_at, domain_ast. cbn [protocol_terms app seq_of fold_right repeat].
    fold (seq_of (map term1 d)).
    etransitivity; [apply m_bol_eq|].
    do 4 (etransitivity; [apply m_char_eq|]).
    etransitivity; [apply m_opt_eq|]. cbn [rest advance pos caps].
    rewrite N.eqb_refl.
    match goal with
    | |- match ?X with _ => _ end = _ => assert (E : X = Some z)
    end.
    { do 3 (etransitivity; [apply m_char_eq|]). exact Hz. }
    rewrite E. reflexivity.
Qed.

(** For a candidate that passes the checks at the head of [formatLink], the
    domain check of a rule is exactly what the specification says. *)
Lemma domain_test_exact d url :
  single_token url = true ->
  RegExp_test (mkRegExp (domain_ast d) 0 false) url = true
  <-> exists tail,
        (url = str "http://" ++ tail \/ url = str "https://" ++ tail)
        /\ wildcard_prefix d tail = true.
Proof.
  intros Hs. split; [apply domain_test_sound|].
  intros [tail [Hu Hw]]. apply single_token_no_line_terminator in Hs.
  assert (Hl : no_line_terminator tail = true).
  { unfold no_line_terminator in *. destruct Hu as [-> | ->];
      rewrite forallb_app in Hs; apply andb_true_iff in Hs; tauto. }
  destruct (domain_test_complete d tail Hl Hw) as [H1 H2].
  destruct Hu as [-> | ->]; assumption.
Qed.

(** ** The placeholder test of the template validator *)

Lemma search_from_complete s r ng pre : forall suf i,
  (exists y, match_at s r ng (i + length pre) suf = Some y) ->
  exists j y', search_from s r ng i (pre ++ suf) = Some (j, y').
Proof.
  induction pre as [|c pre IH]; intros suf i [y H].
  - cbn [length app] in *. rewrite Nat.add_0_r in H.
    destruct suf; cbn [search_from]; rewrite H; eauto.
  - cbn [app search_from]. destruct (match_at s r ng i (c :: pre ++ suf)); [eauto|].
    apply (IH suf (S i)). exists y. cbn [length] in H.
    replace (S i + length pre) with (i + S (length pre)) by lia. exact H.
Qed.

Lemma digits_greedy input K post : forall D fuel mn p cs,
  Forall (fun c => is_digit c = true) D ->
  length D < fuel ->
  mn <= length D ->
  (exists z, K (MState (p + length D) post cs) = Some z) ->
  exists z, repeat_matcher (m input digit_class) [] true K fuel mn None
              (MState p (D ++ post) cs) = Some z.
Proof.
  induction D as [|c D IH]; intros fuel mn p cs HD Hf Hmn [z HK].
  - cbn [length] in *. rewrite Nat.add_0_r in HK.
    destruct fuel as [|fuel]; [lia|]. assert (mn = 0) by lia. subst mn.
    cbn [repeat_matcher app]. unfold clear_caps. cbn [pos rest caps fold_left].
    destruct (m input digit_class _ _) as [z'|]; [eauto|]. rewrite HK. eauto.
  - inversion HD as [|? ? Hc HD']; subst.
    destruct fuel as [|fuel]; [cbn [length] in Hf; lia|].
    cbn [length] in *.
    assert (Hstep : exists z', m input digit_class (MState p ((c :: D) ++ post) cs)
               (fun y => if Nat.eqb mn 0 && Nat.eqb (pos y) p then None
                         else repeat_matcher (m input digit_class) [] true K fuel
                                (Nat.pred mn) None y) = Some z').
    { cbn [m digit_class rest app]. unfold class_mem. cbn [existsb cset_mem xorb].
      rewrite Hc. cbn [orb]. unfold advance. cbn [pos caps].
      replace (S p =? p) with false by (symmetry; apply Nat.eqb_neq; lia).
      rewrite andb_false_r.
      apply IH; try assumption; try lia. exists z.
      replace (S p + length D) with (p + S (length D)) by lia. exact HK. }
    destruct Hstep as [z' Hz'].
    cbn [repeat_matcher option_map]. unfold clear_caps. cbn [pos rest caps fold_left].
    destruct mn as [|mn']; rewrite Hz'; eauto.
Qed.

Lemma group_ref_test pre D post :
  D <> [] -> Forall (fun c => is_digit c = true) D ->
  RegExp_test re_group_ref (pre ++ str "${" ++ D ++ str "}" ++ post) = true.
Proof.
  intros Hne HD. unfold RegExp_test, RegExp_exec.
  set (s := pre ++ str "${" ++ D ++ str "}" ++ post).
  destruct (search_from_complete s (re_ast re_group_ref) (re_ngroups re_group_ref) pre
              (str "${" ++ D ++ str "}" ++ post) 0) as [j [y' H]].
  - unfold match_at. cbn [re_group_ref re_ast re_ngroups repeat].
    change (str "${" ++ D ++ str "}" ++ post) with (36 :: 123 :: D ++ 125 :: post)%N.
    cbn [m rest]. cbn [N.eqb Pos.eqb advance pos rest caps groups_of].
    fold digit_class.
    apply (digits_greedy s
      (fun y => m s (RSeq (RChar 125%N) REmpty) y (fun y0 => Some y0)) (125 :: post)%N
      D (S (1 + length (D ++ 125 :: post)%N)) 1 (S (S (0 + length pre))) []);
      try assumption.
    + rewrite length_app. lia.
    + destruct D; [congruence | cbn [length]; lia].
    + cbn [m rest N.eqb Pos.eqb]. eauto.
  - subst s. rewrite H. reflexivity.
Qed.

(** ** Replacing placeholders in a text without a dollar sign *)

Lemma get_substitution_plain matched prefix suffix captures tpl :
  no_dollar tpl = true ->
  get_substitution matched prefix suffix captures tpl = tpl.
Proof.
  induction tpl as [|c t IH]; intros H; [reflexivity|].
  cbn [no_dollar forallb] in H. apply andb_true_iff in H. destruct H as [Hc Ht].
  apply negb_true_iff in Hc. cbn [get_substitution]. rewrite Hc. f_equal. exact (IH Ht).
Qed.

Lemma match_at_dollar_led s r ng i c t :
  dollar_led r = true -> N.eqb c (ch "$") = false ->
  match_at s r ng i (c :: t) = None.
Proof.
  destruct r as [| | | | r1 r2 | | | | | | | | |]; try discriminate.
  destruct r1 as [|a| | | | | | | | | | | |]; try discriminate.
  cbn [dollar_led]. intros Ha Hc. apply N.eqb_eq in Ha. subst a.
  unfold match_at. cbn [m rest]. now rewrite Hc.
Qed.

Lemma match_at_dollar_led_end s r ng i :
  dollar_led r = true -> match_at s r ng i [] = None.
Proof.
  destruct r as [| | | | r1 r2 | | | | | | | | |]; try discriminate.
  destruct r1; try discriminate. reflexivity.
Qed.

Lemma replace_all_no_dollar s re repl :
  dollar_led (re_ast re) = true ->
  forall suffix i, no_dollar suffix = true ->
  replace_all_from s re repl i 0 suffix = suffix.
Proof.
  intros Hr. induction suffix as [|c t IH]; intros i H; cbn [replace_all_from].
  - now rewrite match_at_dollar_led_end.
  - cbn [no_dollar forallb] in H. apply andb_true_iff in H. destruct H as [Hc Ht].
    apply negb_true_iff in Hc. rewrite (match_at_dollar_led _ _ _ _ _ _ Hr Hc).
    f_equal. exact (IH _ Ht).
Qed.

Lemma String_replace_no_dollar s re repl :
  re_global re = true -> dollar_led (re_ast re) = true -> no_dollar s = true ->
  String_replace s re repl = s.
Proof.
  intros Hg Hr Hs. unfold String_replace. rewrite Hg. now apply replace_all_no_dollar.
Qed.

Lemma decodeUrlString_ok s : exists r, decodeUrlString s = Ok r.
Proof.
  unfold decodeUrlString. destruct (decodeURIComponent _) as [r|e] eqn:E; cbn [try_catch]; [eauto|].
  rewrite (decodeURIComponent_throws _ _ E). eauto.
Qed.

Lemma capture_step_no_dollar mt output i :
  In i (seq 1 9) -> no_dollar output = true -> capture_step mt output i = Ok output.
Proof.
  intros Hi Ho. unfold capture_step.
  destruct (decodeUrlString_ok (match nth (i + 1) mt None with Some v => v | None => [] end))
    as [cv Hcv].
  rewrite Hcv. cbn [bind].
  cbn [seq In] in Hi.
  repeat (destruct Hi as [<- | Hi];
          [ vm_compute (RegExp_new _ _); cbn [bind]; f_equal;
            apply String_replace_no_dollar; [reflexivity | reflexivity | exact Ho] |]).
  destruct Hi.
Qed.

Lemma capture_loop_no_dollar mt output :
  no_dollar output = true -> capture_loop mt output 1 9 = Ok output.
Proof.
  intros Ho. cbn [capture_loop].
  repeat (rewrite capture_step_no_dollar; [cbn [bind] | cbn; tauto | exact Ho]).
  reflexivity.
Qed.

Lemma url_template_step url :
  String_replace (str "${url}") re_url url
  = get_substitution (str "${url}") [] [] [] url.
Proof.
  unfold String_replace. cbn [re_url re_global].
  cbv -[get_substitution app]. apply app_nil_r.
Qed.

(** * The tests of the repository, run on the model *)

Example test_empty_text : formatLink [] [createJiraPattern "*.atlassian.net"] = Ok None.
Proof. vm_compute. reflexivity. Qed.

Example test_not_a_hyperlink :
  formatLink (str "random text") [createJiraPattern "*.atlassian.net"] = Ok None.
Proof. vm_compute. reflexivity. Qed.

Example test_not_http :
  formatLink (str "ftp://examplecompany.atlassian.net/browse/DEV-456")
             [createJiraPattern "*.atlassian.net"] = Ok None.
Proof. vm_compute. reflexivity. Qed.

Example test_reverse_proxy_path :
  formatLink (str "https://atlassian.examplecompany.net/jira/browse/DEV-456")
             [createJiraPattern "atlassian.examplecompany.net"]
  = Ok (Some (str "[DEV-456](https://atlassian.examplecompany.net/jira/browse/DEV-456)")).
Proof. vm_compute. reflexivity. Qed.

Example test_query_string_kept :
  formatLink (str "https://atlassian.examplecompany.net/jira/browse/DEV-456?foo=bar")
             [createJiraPattern "atlassian.examplecompany.net"]
  = Ok (Some (str "[DEV-456](https://atlassian.examplecompany.net/jira/browse/DEV-456?foo=bar)")).
Proof. vm_compute. reflexivity. Qed.

Example test_wildcard_domain :
  formatLink (str "https://examplecompany.atlassian.net/browse/DEV-456")
             [createJiraPattern "*.atlassian.net"]
  = Ok (Some (str "[DEV-456](https://examplecompany.atlassian.net/browse/DEV-456)")).
Proof. vm_compute. reflexivity. Qed.

Example test_wildcard_mismatch :
  formatLink (str "https://examplecompany.atlassian.net/browse/DEV-456")
             [createJiraPattern "*.selfhosted.com"] = Ok None.
Proof. vm_compute. reflexivity. Qed.

Example test_text_with_spaces :
  formatLink (str "https://examplecompany.atlassian.net/browse/DEV-456 is a link")
             [createJiraPattern "*.atlassian.net"] = Ok None.
Proof. vm_compute. reflexivity. Qed.

Example test_second_pattern :
  formatLink (str "https://github.com/owner/repo/issues/42")
             [createJiraPattern "*.atlassian.net"; github_rule]
  = Ok (Some (str "[owner/repo#42](https://github.com/owner/repo/issues/42)")).
Proof. vm_compute. reflexivity. Qed.

Example test_skip_disabled :
  formatLink (str "https://company.atlassian.net/browse/DEV-123")
             [disable (createJiraPattern "*.atlassian.net"); github_rule] = Ok None.
Proof. vm_compute. reflexivity. Qed.

Example test_domain_placeholder :
  matchPattern (str "https://sub.example.com/page/123")
               (rule "*.example.com" "\/page\/(\d+)" "[Page ${1} on ${domain}](${url})")
  = Ok (Some (str "[Page 123 on sub.example.com](https://sub.example.com/page/123)")).
Proof. vm_compute. reflexivity. Qed.

Example test_missing_groups :
  matchPattern (str "https://example.com/page/123")
               (rule "example.com" "\/page\/(\d+)" "[${1} ${2} ${3}](${url})")
  = Ok (Some (str "[123  ](https://example.com/page/123)")).
Proof. vm_compute. reflexivity. Qed.

Example test_plus_in_title :
  matchPattern
    (str "https://confluence.corp.xtb.com/spaces/AIRND/pages/201901327/Claude+Code+z+LiteLLM")
    (rule "confluence.corp.xtb.com" "\/spaces\/[^\/]+\/pages\/\d+\/([^?]+)" "[${1}](${url})")
  = Ok (Some (str "[Claude Code z LiteLLM](https://confluence.corp.xtb.com/spaces/AIRND/pages/201901327/Claude+Code+z+LiteLLM)")).
Proof. vm_compute. reflexivity. Qed.

Example test_percent_in_title :
  matchPattern (str "https://example.com/page/Hello%20World")
               (rule "example.com" "\/page\/([^?]+)" "[${1}](${url})")
  = Ok (Some (str "[Hello World](https://example.com/page/Hello%20World)")).
Proof. vm_compute. reflexivity. Qed.

Example test_decode_mixed : decodeUrlString (str "Hello+World%21") = Ok (str "Hello World!").
Proof. vm_compute. reflexivity. Qed.

Example test_decode_utf8 :
  decodeUrlString (str "%C3%A9%E4%BD%A0%F0%9F%98%80") = Ok [233; 20320; 55357; 56832]%N.
Proof. vm_compute. reflexivity. Qed.

Example test_decode_malformed : decodeUrlString (str "50%+off") = Ok (str "50% off").
Proof. vm_compute. reflexivity. Qed.

Example test_template_without_placeholder :
  validateOutputTemplate (str "[static text]")
  = Some (str "Template must include ${url} or at least one capture group (${1}, ${2}, etc.)").
Proof. vm_compute. reflexivity. Qed.

(** Two examples of ECMA-262 on the matcher: groups are cleared at every
    round of a quantifier, and a round that consumes nothing is refused. *)
Example exec_groups_cleared :
  exec_str "(z)((a+)?(b+)?(c))*" "zaacbbbcac"
  = Ok (Some [Some (str "zaacbbbcac"); Some (str "z"); Some (str "ac"); Some (str "a");
              None; Some (str "c")]).
Proof. vm_compute. reflexivity. Qed.

Example exec_empty_round :
  exec_str "(a*)*" "b" = Ok (Some [Some []; None]).
Proof. vm_compute. reflexivity. Qed.

Example exec_lookahead_backreference :
  exec_str "(?=(a+))a*b\1" "baaabac" = Ok (Some [Some (str "aba"); Some (str "a")]).
Proof. vm_compute. reflexivity. Qed.

Example new_unterminated_group : RegExp_new (str "(") false = Throw SyntaxError.
Proof. vm_compute. reflexivity. Qed.

Example new_nothing_to_repeat : RegExp_new (str "a**") false = Throw SyntaxError.
Proof. vm_compute. reflexivity. Qed.

(** * The claims *)

(** ** C1: a rule whose expression cannot be built *)

(** C1, as stated, fails: [formatLink] has no handler around a rule.  The
    first rule below passes the domain check, its path pattern is an
    unclosed group, [new RegExp] throws, and the error leaves [formatLink];
    the second rule, which matches the candidate, is never tried. *)
Lemma formatLink_throws_on_unclosed_group :
  formatLink page_url [unclosed_rule; page_rule] = Throw SyntaxError
  /\ formatLink page_url [page_rule] = Ok (Some (str "[123](https://example.com/page/123)")).
Proof. split; vm_compute; reflexivity. Qed.

(** C1, amended: [formatLink] returns without error whenever [matchPattern]
    does for every rule of the list; a rule that is disabled, lacks a domain
    or path pattern, or whose domain expression does not match the candidate
    is skipped as a non-match before its path pattern is compiled, whatever
    that pattern is; and when the expression of a rule that is reached
    (enabled, both patterns present, domain expression matching, every
    earlier rule returning null) cannot be built, the error is thrown out of
    [formatLink] and the rules after it are not tried. *)
Theorem formatLink_failure_propagates :
  (forall s ps,
      (forall p, In p ps -> exists v, matchPattern s p = Ok v) ->
      exists v, formatLink s ps = Ok v)
  /\ (forall s p,
      enabled p = false \/ domainPattern p = [] \/ pathPattern p = []
      \/ (exists re, RegExp_new (domainRegex_source p) false = Ok re
                     /\ RegExp_test re s = false) ->
      matchPattern s p = Ok None)
  /\ (forall s pre p post e re,
      single_token s = true ->
      (forall q, In q pre -> matchPattern s q = Ok None) ->
      enabled p = true -> domainPattern p <> [] -> pathPattern p <> [] ->
      RegExp_new (domainRegex_source p) false = Ok re ->
      RegExp_test re s = true ->
      RegExp_new (fullRegex_source p) false = Throw e ->
      formatLink s (pre ++ p :: post) = Throw e).
Proof.
  split; [|split].
  - intros s ps H. unfold formatLink.
    destruct (falsy _); [eauto|]. destruct (RegExp_test _ _); [eauto|].
    now apply try_patterns_ok.
  - intros s p [H | [H | [H | [re [Hre Ht]]]]];
      try (apply matchPattern_skipped; tauto).
    destruct (matchPattern s p) as [[v|]|e] eqn:E; [| reflexivity |];
      exfalso;
      (destruct (matchPattern_reaches s p) as (_ & _ & _ & Ht'); [congruence|]);
      unfold domainRegex_source in Hre; rewrite domainRegex_new in Hre;
      inversion Hre; subst re; congruence.
  - intros s pre p post e re Hs Hpre He Hd Hp Hre Ht Hfull.
    rewrite (gate_open _ _ Hs).
    rewrite (try_patterns_first s pre p post (Throw e)); auto.
    + cbn [try_patterns]. now rewrite (matchPattern_throws s p e re).
    + now apply (matchPattern_throws s p e re).
    + discriminate.
Qed.

Lemma formatLink_failure_propagates_witness :
  (exists v, formatLink page_url [page_rule] = Ok v)
  /\ matchPattern page_url elsewhere_rule = Ok None
  /\ formatLink page_url ([] ++ unclosed_rule :: [page_rule]) = Throw SyntaxError.
Proof.
  destruct formatLink_failure_propagates as (Ha & Hb & Hc).
  split; [|split].
  - apply Ha. intros p [<- | []]. eexists. vm_compute. reflexivity.
  - apply Hb. right; right; right.
    exists (mkRegExp (domain_ast (str "elsewhere.org")) 0 false).
    split; vm_compute; reflexivity.
  - apply (Hc page_url [] unclosed_rule [page_rule] SyntaxError
             (mkRegExp (domain_ast (str "example.com")) 0 false)).
    + reflexivity.
    + intros q [].
    + reflexivity.
    + discriminate.
    + discriminate.
    + vm_compute. reflexivity.
    + vm_compute. reflexivity.
    + vm_compute. reflexivity.
Defined.

(** A valid path pattern can throw as well: with an alternative at its top
    level the wrapper group may take no part in the match, and reading
    [match[1]] then fails.  So the first part of the theorem asks that
    [matchPattern] return, not that the patterns be valid. *)
Remark wrapper_group_left_out :
  RegExp_new (str "\/a|.*") false <> Throw SyntaxError
  /\ matchPattern page_url (rule "example.com" "\/a|.*" "${url}") = Throw TypeError.
Proof. split; [discriminate | vm_compute; reflexivity]. Qed.

(** ** C2: placeholders beyond the groups of the path pattern *)

(** C2 on the code: the query-string group that [matchPattern] appends to
    the expression is a capturing one, so it is group K + 1 for a path
    pattern with K groups.  With one group in the path pattern and a query
    string in the URL, the placeholder 2 is rendered as that query string,
    not as the empty text. *)
Theorem query_string_fills_next_placeholder :
  matchPattern (str "https://example.com/page/123?foo=bar")
               (rule "example.com" "\/page\/(\d+)" "[${1} ${2} ${3}](${url})")
  = Ok (Some (str "[123 ?foo=bar ](https://example.com/page/123?foo=bar)")).
Proof. vm_compute. reflexivity. Qed.

(** ** C3: first match wins *)

(** C3, as stated, fails on a list with a rule that throws: the second rule
    is the earliest, and only, rule that matches the candidate, and
    [formatLink] does not return its result. *)
Lemma later_match_lost_behind_throwing_rule :
  matchPattern page_url unclosed_class_rule = Throw SyntaxError
  /\ matchPattern page_url page_rule = Ok (Some (str "[123](https://example.com/page/123)"))
  /\ formatLink page_url [unclosed_class_rule; page_rule] = Throw SyntaxError.
Proof. repeat split; vm_compute; reflexivity. Qed.

(** C3, amended: when every rule before the earliest matching one returns
    null, none of them throwing, [formatLink] on the list is [formatLink] on
    that rule alone, and for a candidate that passes the checks at the head
    of [formatLink] it is the result of that rule. *)
Theorem first_match_wins s pre p post v :
  (forall q, In q pre -> matchPattern s q = Ok None) ->
  matchPattern s p = Ok (Some v) ->
  formatLink s (pre ++ p :: post) = formatLink s [p]
  /\ (single_token s = true -> formatLink s (pre ++ p :: post) = Ok (Some v)).
Proof.
  intros Hpre Hp.
  assert (E : try_patterns s (pre ++ p :: post) = try_patterns s [p]).
  { apply (try_patterns_first s pre p post (Ok (Some v))); auto. discriminate. }
  split.
  - unfold formatLink. now rewrite E.
  - intros Hs. rewrite (gate_open _ _ Hs), E. cbn [try_patterns]. now rewrite Hp.
Qed.

Lemma first_match_wins_witness :
  formatLink (str "https://github.com/owner/repo/issues/42")
    ([createJiraPattern "*.atlassian.net"] ++ github_rule :: [page_rule])
  = formatLink (str "https://github.com/owner/repo/issues/42") [github_rule]
  /\ formatLink (str "https://github.com/owner/repo/issues/42")
       ([createJiraPattern "*.atlassian.net"] ++ github_rule :: [page_rule])
     = Ok (Some (str "[owner/repo#42](https://github.com/owner/repo/issues/42)")).
Proof.
  destruct (first_match_wins (str "https://github.com/owner/repo/issues/42")
              [createJiraPattern "*.atlassian.net"] github_rule [page_rule]
              (str "[owner/repo#42](https://github.com/owner/repo/issues/42)"))
    as [Ha Hb].
  - intros q [<- | []]. vm_compute. reflexivity.
  - vm_compute. reflexivity.
  - split; [exact Ha | apply Hb; reflexivity].
Defined.

(** A rule can match a text that [formatLink] refuses at its head, which is
    why the second part asks for a candidate that passes those checks. *)
Remark match_behind_the_checks :
  matchPattern (str "https://example.com/a b") (rule "example.com" "\/.*" "${url}")
  = Ok (Some (str "https://example.com/a b"))
  /\ formatLink (str "https://example.com/a b") [rule "example.com" "\/.*" "${url}"]
     = Ok None.
Proof. split; vm_compute; reflexivity. Qed.

(** ** C4: candidates with white space *)

(** C4: for every rule list, a candidate that is empty, made of white space
    only, or that contains a white space character anywhere makes
    [formatLink] return null. *)
Theorem formatLink_whitespace (patterns : list LinkPattern) (pastedText : jsstring) :
  pastedText = [] \/ forallb is_whitespace pastedText = true
  \/ has_whitespace pastedText = true ->
  formatLink pastedText patterns = Ok None.
Proof.
  intros H. unfold formatLink.
  destruct (falsy (String_trim pastedText)) eqn:E; [reflexivity|].
  assert (Hw : has_whitespace pastedText = true).
  { destruct H as [-> | [H | H]]; [discriminate E | | exact H].
    destruct pastedText as [|c t]; [discriminate E|].
    cbn [forallb] in H. apply andb_true_iff in H. destruct H as [Hc _].
    unfold has_whitespace. cbn [existsb]. now rewrite Hc. }
  rewrite test_space. unfold has_whitespace in Hw. rewrite Hw. reflexivity.
Qed.

Lemma formatLink_whitespace_witness :
  formatLink (str "https://a.atlassian.net/browse/DEV-1 https://b.atlassian.net/browse/DEV-2")
             [createJiraPattern "*.atlassian.net"] = Ok None.
Proof.
  apply formatLink_whitespace. right; right. vm_compute. reflexivity.
Defined.

(** ** C5: a template that is the URL placeholder *)

(** C5 on the code: the URL is handed to [replace] as a replacement
    pattern, in which a dollar sign followed by an ampersand stands for the
    matched text.  A URL with that sequence in its query string is not
    rendered verbatim by the template that is only the URL placeholder. *)
Theorem url_placeholder_not_verbatim :
  formatLink (str "https://example.com/search?q=$&lang=en")
             [rule "example.com" "\/search" "${url}"]
  = Ok (Some (str "https://example.com/search?q=${url}lang=en")).
Proof. vm_compute. reflexivity. Qed.

(** Where C5 does hold: a URL without a dollar sign is rendered verbatim by
    the template that is only the URL placeholder, whatever the rule. *)
Lemma url_placeholder_verbatim url pattern out :
  no_dollar url = true ->
  outputTemplate pattern = str "${url}" ->
  matchPattern url pattern = Ok (Some out) ->
  out = url.
Proof.
  intros Hu Ht. unfold matchPattern.
  destruct (negb (enabled pattern)); [discriminate|].
  destruct (falsy _ || falsy _); [discriminate|].
  destruct (RegExp_new _ false) as [dre|]; [|discriminate]. cbn [bind].
  destruct (negb (RegExp_test dre url)); [discriminate|].
  destruct (RegExp_new _ false) as [fre|]; [|discriminate]. cbn [bind].
  destruct (String_match url fre) as [mt|]; [|discriminate].
  rewrite Ht, url_template_step, (get_substitution_plain _ _ _ _ _ Hu).
  destruct (nth 1 mt None) as [m1|]; [|discriminate]. cbn [bind].
  rewrite (String_replace_no_dollar url re_domain _ eq_refl eq_refl Hu).
  rewrite (capture_loop_no_dollar mt url Hu). cbn [bind]. congruence.
Qed.

(** ** C6: the domain check *)

(** C6: a rule matches a URL only if the URL starts with [http://] or
    [https://] and what follows starts with the domain pattern, a star
    standing for any sequence of code units and every other code unit of
    the pattern for itself; so for a candidate that starts with neither,
    [formatLink] returns null, whatever the rules. *)
Theorem domain_gate :
  (forall url pattern out,
      matchPattern url pattern = Ok (Some out) ->
      exists tail,
        (url = str "http://" ++ tail \/ url = str "https://" ++ tail)
        /\ wildcard_prefix (domainPattern pattern) tail = true)
  /\ (forall patterns pastedText,
      starts_with pastedText (str "http://") = false ->
      starts_with pastedText (str "https://") = false ->
      formatLink pastedText patterns = Ok None).
Proof.
  split.
  - intros url p out H.
    destruct (matchPattern_reaches url p) as (_ & _ & _ & Ht); [congruence|].
    now apply domain_test_sound.
  - intros ps s H1 H2. apply formatLink_all_null. intros p _.
    destruct (matchPattern s p) as [[v|]|e] eqn:E; [| reflexivity |];
      exfalso;
      (destruct (matchPattern_reaches s p) as (_ & _ & _ & Ht); [congruence|]);
      apply domain_test_sound in Ht; destruct Ht as [tail [[-> | ->] _]];
      rewrite starts_with_app in *; discriminate.
Qed.

Lemma domain_gate_witness :
  (exists tail,
      (str "https://sub.example.com/page/123" = str "http://" ++ tail
       \/ str "https://sub.example.com/page/123" = str "https://" ++ tail)
      /\ wildcard_prefix (str "*.example.com") tail = true)
  /\ formatLink (str "ftp://examplecompany.atlassian.net/browse/DEV-456")
                [createJiraPattern "*.atlassian.net"] = Ok None.
Proof.
  destruct domain_gate as (Ha & Hb). split.
  - apply (Ha (str "https://sub.example.com/page/123")
              (rule "*.example.com" "\/page\/(\d+)" "[Page ${1} on ${domain}](${url})")
              (str "[Page 123 on sub.example.com](https://sub.example.com/page/123)")).
    vm_compute. reflexivity.
  - apply Hb; vm_compute; reflexivity.
Defined.

(** ** C7: rules that take no part *)

(** C7: [matchPattern] returns null, without error, for a rule that is
    disabled or whose domain or path pattern is empty, whatever the URL; so
    [formatLink] returns null for every candidate when every rule of the
    list is disabled. *)
Theorem disabled_rules_never_match :
  (forall url pattern,
      enabled pattern = false \/ domainPattern pattern = [] \/ pathPattern pattern = [] ->
      matchPattern url pattern = Ok None)
  /\ (forall patterns pastedText,
      forallb (fun p => negb (enabled p)) patterns = true ->
      formatLink pastedText patterns = Ok None).
Proof.
  split; [exact matchPattern_skipped|].
  intros ps s Hall. apply formatLink_all_null. intros p Hp.
  apply matchPattern_skipped. left.
  rewrite forallb_forall in Hall. apply Hall in Hp. now apply negb_true_iff in Hp.
Qed.

Lemma disabled_rules_never_match_witness :
  matchPattern page_url (disable unclosed_rule) = Ok None
  /\ formatLink page_url [disable page_rule; disable unclosed_rule] = Ok None.
Proof.
  destruct disabled_rules_never_match as (Ha & Hb). split.
  - apply Ha. left. reflexivity.
  - apply Hb. reflexivity.
Defined.

(** ** C8: decodeUrlString *)

(** ** The plus signs and the escapes *)

Lemma plus_to_space_app a b : plus_to_space (a ++ b) = plus_to_space a ++ plus_to_space b.
Proof. apply map_app. Qed.

Lemma plus_to_space_no_percent a :
  (forall c, In c a -> c <> ch "%") -> forall c, In c (plus_to_space a) -> c <> ch "%".
Proof.
  intros H c Hc. unfold plus_to_space in Hc. apply in_map_iff in Hc.
  destruct Hc as (x & <- & Hx). destruct (N.eqb x (ch "+")); [discriminate | now apply H].
Qed.

Lemma hex_val_plus c : hex_val (if N.eqb c (ch "+") then ch " " else c) = hex_val c.
Proof. destruct (N.eqb_spec c (ch "+")) as [->|]; reflexivity. Qed.

Lemma hex_octet_plus t : hex_octet (plus_to_space t) = hex_octet t.
Proof.
  destruct t as [|h1 [|h2 t]]; try reflexivity.
  cbn [plus_to_space map hex_octet]. now rewrite !hex_val_plus.
Qed.

Lemma hex_digit_no_plus h v :
  In (h, v) hex_digits -> (if N.eqb h (ch "+") then ch " " else h) = h.
Proof.
  intros H. apply hex_val_table in H.
  destruct (N.eqb_spec h (ch "+")) as [->|]; [discriminate | reflexivity].
Qed.

(** C8: for every input, [decodeUrlString] returns, never throws; its
    first step turns every plus sign into a space; when the text after that
    step encodes a text, in the sense of [percent_decoded], that text is the
    result, and otherwise the result is the text after the first step.  So an
    escape below 128 between code units that are no percent signs becomes
    its one code unit, and a percent sign that two hexadecimal digits do not
    follow leaves only the first step. *)
Theorem decodeUrlString_total s :
  String_replace s re_plus (str " ") = plus_to_space s
  /\ decodeUrlString s
     = Ok (match decodeURIComponent (plus_to_space s) with
           | Ok r => r
           | Throw _ => plus_to_space s
           end)
  /\ (forall r, percent_decoded (plus_to_space s) r -> decodeUrlString s = Ok r)
  /\ ((forall r, ~ percent_decoded (plus_to_space s) r) ->
      decodeUrlString s = Ok (plus_to_space s))
  /\ (forall a h1 h2 b v,
        s = a ++ ch "%" :: h1 :: h2 :: b ->
        (forall c, In c a -> c <> ch "%") -> (forall c, In c b -> c <> ch "%") ->
        hex_pair h1 h2 v -> (v < 128)%N ->
        decodeUrlString s = Ok (plus_to_space a ++ v :: plus_to_space b))
  /\ (forall a t,
        s = a ++ ch "%" :: t ->
        (forall c, In c a -> c <> ch "%") ->
        (forall h1 h2 t' v, t = h1 :: h2 :: t' -> ~ hex_pair h1 h2 v) ->
        decodeUrlString s = Ok (plus_to_space s)).
Proof.
  assert (Hbody : decodeUrlString s
                  = Ok (match decodeURIComponent (plus_to_space s) with
                        | Ok r => r
                        | Throw _ => plus_to_space s
                        end)).
  { unfold decodeUrlString. rewrite replace_plus.
    destruct (decodeURIComponent (plus_to_space s)) as [r|e] eqn:E; [reflexivity|].
    rewrite (decodeURIComponent_throws _ _ E). reflexivity. }
  split; [apply replace_plus|]. split; [exact Hbody|]. rewrite Hbody.
  split; [|split; [|split]].
  - intros r Hr. apply decodeURIComponent_spec in Hr. now rewrite Hr.
  - intros Hn. apply decodeURIComponent_fails in Hn. now rewrite Hn.
  - intros a h1 h2 b v -> Ha Hb Hp Hv.
    rewrite plus_to_space_app. cbn [plus_to_space map]. fold (plus_to_space b).
    destruct Hp as (v1 & v2 & H1 & H2 & Ev).
    rewrite (hex_digit_no_plus _ _ H1), (hex_digit_no_plus _ _ H2).
    change (N.eqb (ch "%") (ch "+")) with false. cbv iota.
    unfold decodeURIComponent.
    rewrite (decode_plain_prefix _ _ (plus_to_space_no_percent _ Ha)).
    rewrite (decode_ascii_escape h1 h2 v _); [| |exact Hv].
    + fold (decodeURIComponent (plus_to_space b)).
      rewrite (decode_no_percent _ (plus_to_space_no_percent _ Hb)). reflexivity.
    + apply hex_octet_spec. exists h1, h2, (plus_to_space b). split; [reflexivity|].
      exists v1, v2. auto.
  - intros a t -> Ha Ht.
    rewrite plus_to_space_app. cbn [plus_to_space map]. fold (plus_to_space t).
    change (N.eqb (ch "%") (ch "+")) with false. cbv iota.
    rewrite (decode_malformed_escape _ _ (plus_to_space_no_percent _ Ha)); [reflexivity|].
    rewrite hex_octet_plus. destruct (hex_octet t) as [b|] eqn:E; [|reflexivity].
    apply hex_octet_spec in E. destruct E as (h1 & h2 & t' & E & Hp).
    exfalso. exact (Ht _ _ _ _ E Hp).
Qed.

Lemma decodeUrlString_total_witness :
  decodeUrlString (str "Hello+World%21") = Ok (str "Hello World!")
  /\ decodeUrlString (str "50%+off") = Ok (str "50% off")
  /\ decodeUrlString (str "caf%C3%A9") = Ok (str "caf" ++ [233%N]).
Proof.
  split; [|split].
  - destruct (decodeUrlString_total (str "Hello+World%21")) as (_ & _ & _ & _ & H & _).
    apply (H (str "Hello+World") (ch "2") (ch "1") [] 33%N).
    + reflexivity.
    + intros c Hc. cbn in Hc. intros ->.
      repeat (destruct Hc as [Hc | Hc]; [discriminate|]). exact Hc.
    + intros c [].
    + exists 2%N, 1%N. cbn. tauto.
    + reflexivity.
  - destruct (decodeUrlString_total (str "50%+off")) as (_ & _ & _ & _ & _ & H).
    apply (H (str "50") (str "+off")).
    + reflexivity.
    + intros c Hc. cbn in Hc. intros ->.
      repeat (destruct Hc as [Hc | Hc]; [discriminate|]). exact Hc.
    + intros h1 h2 t' v [= <- <- <-] (v1 & v2 & H1 & _).
      apply hex_val_table in H1. discriminate.
  - destruct (decodeUrlString_total (str "caf%C3%A9")) as (_ & _ & H & _).
    apply H. apply decodeURIComponent_spec. vm_compute. reflexivity.
Defined.

(** The text of [é], of a CJK ideograph and of an emoji. *)
Example percent_decoded_multibyte :
  percent_decoded (str "%C3%A9%E4%BD%A0%F0%9F%98%80") [233; 20320; 55357; 56832]%N.
Proof. apply decodeURIComponent_spec. vm_compute. reflexivity. Qed.

Example decode_overlong_and_surrogate :
  decodeUrlString (str "%C0%80+") = Ok (str "%C0%80 ")
  /\ decodeUrlString (str "%ED%A0%80") = Ok (str "%ED%A0%80")
  /\ decodeUrlString (str "%80") = Ok (str "%80")
  /\ decodeUrlString (str "%E4%BD") = Ok (str "%E4%BD")
  /\ decodeUrlString (str "%F4%90%80%80") = Ok (str "%F4%90%80%80")
  /\ decodeUrlString (str "a%2Bb+c%2fd") = Ok (str "a+b c/d").
Proof. repeat split; vm_compute; reflexivity. Qed.

(** ** C9: the wildcard crosses the end of the host *)

(** C9: the star of a domain pattern becomes a fragment that also matches a
    slash, so a rule for [*.atlassian.net] matches a URL on another host
    whose path contains that suffix; the JIRA and the Confluence preset both
    do, on a URL of the host [evil.com]. *)
Theorem wildcard_crosses_host :
  escapeDomainPattern (str "*.atlassian.net") = str ".*\.atlassian\.net"
  /\ is_line_terminator (ch "/") = false
  /\ exists url out,
       matchPattern url (createJiraPattern "*.atlassian.net") = Ok (Some out)
       /\ url = str "https://evil.com/x.atlassian.net/browse/DEV-1"
       /\ out = str "[DEV-1](https://evil.com/x.atlassian.net/browse/DEV-1)"
       /\ url_host url = str "evil.com"
       /\ String_includes (url_host url) (str "atlassian.net") = false
       /\ matchPattern (str "https://evil.com/x.atlassian.net/wiki/spaces/T/pages/1/Page+Title")
            (rule "*.atlassian.net" "\/wiki\/spaces\/[^\/]+\/pages\/\d+\/([^?]+)"
                  "[${1}](${url})")
          = Ok (Some (str "[Page Title](https://evil.com/x.atlassian.net/wiki/spaces/T/pages/1/Page+Title)")).
Proof.
  split; [vm_compute; reflexivity|]. split; [reflexivity|].
  exists (str "https://evil.com/x.atlassian.net/browse/DEV-1"),
         (str "[DEV-1](https://evil.com/x.atlassian.net/browse/DEV-1)").
  repeat split; vm_compute; reflexivity.
Qed.

(** The domain check of that rule lets every URL of the other host through
    whose path starts with the suffix, whatever follows. *)
Lemma foreign_host_passes_domain_check tail :
  no_line_terminator tail = true ->
  RegExp_test (mkRegExp (domain_ast (str "*.atlassian.net")) 0 false)
    (str "https://" ++ str "evil.com/x.atlassian.net" ++ tail) = true.
Proof.
  intros Hl. apply domain_test_complete.
  - unfold no_line_terminator. rewrite forallb_app. apply andb_true_iff. split.
    + reflexivity.
    + exact Hl.
  - change (str "*.atlassian.net") with (ch "*" :: str ".atlassian.net").
    cbn [wildcard_prefix]. change (N.eqb (ch "*") (ch "*")) with true. cbv iota.
    change (str "evil.com/x.atlassian.net" ++ tail)
      with (str "evil.com/x" ++ (str ".atlassian.net" ++ tail)).
    generalize (str "evil.com/x"). intros w.
    induction w as [|a w IH]; cbn [app any_suffix].
    + replace (wildcard_prefix (str ".atlassian.net") (str ".atlassian.net" ++ tail))
        with true; [reflexivity|].
      symmetry. cbn. reflexivity.
    + rewrite IH. apply orb_true_r.
Qed.

(** ** C10: what the validator takes for a placeholder *)

(** C10: [validateOutputTemplate] accepts every template that contains a
    dollar sign, an opening brace, one or more digits and a closing brace,
    whatever the digits, while rendering replaces the placeholders 1 to 9
    only: the template below passes validation and is rendered unchanged on
    a successful match. *)
Theorem validator_accepts_any_digits :
  (forall pre D post,
      D <> [] -> forallb is_digit D = true ->
      validateOutputTemplate (pre ++ str "${" ++ D ++ str "}" ++ post) = None)
  /\ validateOutputTemplate (str "[${0}](${12})") = None
  /\ matchPattern page_url (rule "example.com" "\/page\/(\d+)" "[${0}](${12})")
     = Ok (Some (str "[${0}](${12})")).
Proof.
  split; [|split; vm_compute; reflexivity].
  intros pre D post Hne HD. unfold validateOutputTemplate.
  rewrite (trim_not_blank (ch "$")); [| apply in_or_app; right; now left | reflexivity].
  rewrite forallb_forall in HD.
  rewrite (group_ref_test pre D post Hne); [|apply Forall_forall; exact HD].
  rewrite andb_false_r.
  destruct (pre ++ str "${" ++ D ++ str "}" ++ post) eqn:E; [|reflexivity].
  destruct pre; discriminate.
Qed.

Lemma validator_accepts_any_digits_witness :
  validateOutputTemplate (str "[" ++ str "${" ++ str "12" ++ str "}" ++ str "](x)") = None.
Proof.
  apply (proj1 validator_accepts_any_digits); [discriminate | reflexivity].
Defined.

(** * Further properties of the code *)

(** ** The tests of the repository for sanitizeDomain and validateRegexPattern *)

Example test_sanitize_empty : sanitizeDomain [] = [].
Proof. vm_compute. reflexivity. Qed.

Example test_sanitize_illegal :
  sanitizeDomain (str "!@#$%^&()domain.com") = str "domain.com".
Proof. vm_compute. reflexivity. Qed.

Example test_sanitize_wildcard :
  sanitizeDomain (str "*.example.domain.com") = str "*.example.domain.com"
  /\ sanitizeDomain (str "example.com/jira") = str "example.com/jira".
Proof. split; vm_compute; reflexivity. Qed.

Example test_validate_regex_valid :
  validateRegexPattern (fun _ => str "Invalid regular expression") (str "\d+") = Ok None
  /\ validateRegexPattern (fun _ => str "Invalid regular expression") (str "([A-Z]+-\d+)")
     = Ok None
  /\ validateRegexPattern (fun _ => str "Invalid regular expression")
       (str "\/browse\/([A-Z]+-\d+)") = Ok None.
Proof. repeat split; vm_compute; reflexivity. Qed.

Example test_validate_regex_empty :
  validateRegexPattern (fun _ => str "Invalid regular expression") []
  = Ok (Some (str "Pattern cannot be empty"))
  /\ validateRegexPattern (fun _ => str "Invalid regular expression") (str "   ")
     = Ok (Some (str "Pattern cannot be empty")).
Proof. split; vm_compute; reflexivity. Qed.

Example test_validate_regex_invalid :
  validateRegexPattern (fun _ => str "Invalid regular expression") (str "[")
  = Ok (Some (str "Invalid regular expression"))
  /\ validateRegexPattern (fun _ => str "Invalid regular expression") (str "(unclosed")
     = Ok (Some (str "Invalid regular expression")).
Proof. split; vm_compute; reflexivity. Qed.

(** Named groups and lookbehind are part of the language of the validator. *)
Example validate_named_group_and_lookbehind :
  validateRegexPattern (fun _ => str "Invalid regular expression")
    (str "\/page\/(?<n>\d+)") = Ok None
  /\ validateRegexPattern (fun _ => str "Invalid regular expression")
       (str "(?<=\/item\/)(\d+)") = Ok None
  /\ validateRegexPattern (fun _ => str "Invalid regular expression")
       (str "(?<!x)(?<a>\w+)-\k<a>") = Ok None
  /\ validateRegexPattern (fun _ => str "Invalid regular expression")
       (str "(?<a>x)\k<b>") = Ok (Some (str "Invalid regular expression"))
  /\ validateRegexPattern (fun _ => str "Invalid regular expression")
       (str "(?<=a)*") = Ok (Some (str "Invalid regular expression")).
Proof. repeat split; vm_compute; reflexivity. Qed.

(** ** sanitizeDomain *)

Lemma re_not_domain_char_source :
  RegExp_new (str "[^a-zA-Z0-9.*\-\/]") true = Ok re_not_domain_char.
Proof. vm_compute. reflexivity. Qed.

Lemma not_domain_char_class c :
  class_mem true [CsRange 97 122; CsRange 65 90; CsRange 48 57; CsChar 46; CsChar 42;
                  CsChar 45; CsChar 47]%N c = negb (domain_char c).
Proof.
  unfold class_mem, domain_char, is_ascii_letter, is_digit. cbn [existsb cset_mem xorb].
  change (ch ".") with 46%N; change (ch "*") with 42%N; change (ch "-") with 45%N;
  change (ch "/") with 47%N.
  destruct ((97 <=? c)%N && (c <=? 122)%N), ((65 <=? c)%N && (c <=? 90)%N),
    ((48 <=? c)%N && (c <=? 57)%N), (N.eqb c 46), (N.eqb c 42), (N.eqb c 45), (N.eqb c 47);
    reflexivity.
Qed.

Lemma sanitizeDomain_filter d : sanitizeDomain d = filter domain_char d.
Proof.
  unfold sanitizeDomain, String_replace. cbn [re_not_domain_char re_global].
  rewrite (replace_all_one_char d re_not_domain_char
             (class_mem true [CsRange 97 122; CsRange 65 90; CsRange 48 57; CsChar 46;
                              CsChar 42; CsChar 45; CsChar 47]%N)
             (fun _ => []) []); try reflexivity.
  induction d as [|c d IH]; [reflexivity|].
  cbn [flat_map filter]. rewrite IH, not_domain_char_class.
  destruct (domain_char c); reflexivity.
Qed.

(** X1: [sanitizeDomain] keeps the letters, the digits and the characters
    [. * - /] of its argument, in their order, and drops every other code
    unit; so its result holds only such characters, applying it twice is
    applying it once, and it leaves a text as it is exactly when the text
    holds only such characters. *)
Theorem sanitizeDomain_keeps_domain_chars d :
  sanitizeDomain d = filter domain_char d
  /\ forallb domain_char (sanitizeDomain d) = true
  /\ sanitizeDomain (sanitizeDomain d) = sanitizeDomain d
  /\ (sanitizeDomain d = d <-> forallb domain_char d = true).
Proof.
  rewrite !sanitizeDomain_filter. repeat split.
  - apply forallb_forall. intros c Hc. apply filter_In in Hc. tauto.
  - induction d as [|c d IH]; [reflexivity|]. cbn [filter].
    destruct (domain_char c) eqn:E; [cbn [filter]; rewrite E; f_equal; exact IH | exact IH].
  - intros H. rewrite <- H. apply forallb_forall. intros c Hc. apply filter_In in Hc. tauto.
  - intros H. induction d as [|c d IH]; [reflexivity|].
    cbn [forallb] in H. apply andb_true_iff in H. destruct H as [Hc Hd].
    cbn [filter]. rewrite Hc. f_equal. exact (IH Hd).
Qed.

(** ** The templates that validateOutputTemplate accepts *)

Lemma starts_with_sound sub : forall s,
  starts_with s sub = true -> exists post, s = sub ++ post.
Proof.
  induction sub as [|b sub IH]; intros s H; [exists s; reflexivity|].
  destruct s as [|a s]; cbn [starts_with] in H; [discriminate|].
  apply andb_true_iff in H. destruct H as [Ha Hs]. apply N.eqb_eq in Ha. subst b.
  destruct (IH _ Hs) as [post ->]. exists post. reflexivity.
Qed.

Lemma String_includes_spec sub s :
  String_includes s sub = true <-> exists pre post, s = pre ++ sub ++ post.
Proof.
  split.
  - induction s as [|c s IH]; cbn [String_includes]; intros H.
    + rewrite orb_false_r in H. apply starts_with_sound in H.
      destruct H as [post ->]. exists [], post. reflexivity.
    + apply orb_true_iff in H. destruct H as [H|H].
      * apply starts_with_sound in H. destruct H as [post ->]. exists [], post. reflexivity.
      * destruct (IH H) as (pre & post & ->). exists (c :: pre), post. reflexivity.
  - intros (pre & post & ->). induction pre as [|c pre IH].
    + cbn [app]. destruct (sub ++ post) eqn:E; cbn [String_includes];
        rewrite <- E, starts_with_app; reflexivity.
    + cbn [app String_includes]. rewrite IH. apply orb_true_r.
Qed.

Lemma search_from_suffix s r ng : forall suf i j y,
  search_from s r ng i suf = Some (j, y) ->
  exists pre suf', suf = pre ++ suf' /\ match_at s r ng j suf' = Some y.
Proof.
  induction suf as [|c t IH]; intros i j y H; cbn [search_from] in H.
  - destruct (match_at s r ng i []) eqn:E; [|discriminate].
    inversion H; subst. exists [], []. auto.
  - destruct (match_at s r ng i (c :: t)) eqn:E.
    + inversion H; subst. exists [], (c :: t). auto.
    + apply IH in H. destruct H as (pre & suf' & -> & H). exists (c :: pre), suf'. auto.
Qed.

Lemma digits_sound input K z : forall fuel mn x,
  repeat_matcher (m input digit_class) [] true K fuel mn None x = Some z ->
  exists D y, rest x = D ++ rest y /\ forallb is_digit D = true /\ mn <= length D
              /\ K y = Some z.
Proof.
  induction fuel as [|fuel IH]; intros mn x H; [discriminate|].
  cbn [repeat_matcher option_map] in H.
  assert (Step : forall d, m input digit_class (clear_caps [] x) d
                 = match rest x with
                   | a :: t => if is_digit a then d (advance (clear_caps [] x) t) else None
                   | [] => None
                   end).
  { intros d. unfold digit_class. cbn [m clear_caps rest].
    destruct (rest x) as [|a t]; [reflexivity|].
    unfold class_mem. cbn [existsb cset_mem xorb]. now rewrite orb_false_r. }
  rewrite !Step in H. clear Step.
  destruct (rest x) as [|a t] eqn:Er.
  - destruct mn; [|discriminate]. exists [], x. rewrite Er. auto.
  - destruct (is_digit a) eqn:Ea.
    + set (d := if Nat.eqb mn 0 && Nat.eqb (pos (advance (clear_caps [] x) t)) (pos x)
                then None
                else repeat_matcher (m input digit_class) [] true K fuel (Nat.pred mn) None
                       (advance (clear_caps [] x) t)) in H.
      assert (Hd : d = Some z -> exists D y, a :: t = D ++ rest y
                      /\ forallb is_digit D = true /\ mn <= length D /\ K y = Some z).
      { subst d. destruct (_ && _); [discriminate|]. intros Hd. apply IH in Hd.
        destruct Hd as (D & y & E & HD & Hmn & HK). cbn [advance rest] in E.
        exists (a :: D), y. cbn [app forallb length]. rewrite E, Ea, HD.
        repeat split; auto. lia. }
      destruct mn as [|mn]; [|exact (Hd H)].
      destruct d as [z'|] eqn:Ed.
      * inversion H; subst z'. exact (Hd eq_refl).
      * exists [], x. rewrite Er. auto.
    + destruct mn; [|discriminate]. exists [], x. rewrite Er. auto.
Qed.

Lemma group_ref_sound t :
  RegExp_test re_group_ref t = true ->
  exists pre D post,
    D <> [] /\ forallb is_digit D = true /\ t = pre ++ str "${" ++ D ++ str "}" ++ post.
Proof.
  unfold RegExp_test, RegExp_exec.
  destruct (search_from t (re_ast re_group_ref) (re_ngroups re_group_ref) 0 t)
    as [[j y]|] eqn:E; [|discriminate].
  intros _. apply search_from_suffix in E. destruct E as (pre & suf & -> & H).
  unfold match_at in H. cbn [re_group_ref re_ast re_ngroups repeat] in H.
  cbn [m rest] in H.
  destruct suf as [|c1 suf]; [discriminate|].
  destruct (N.eqb_spec c1 36) as [->|]; [|discriminate].
  cbn [advance rest pos caps] in H.
  destruct suf as [|c2 suf]; [discriminate|].
  destruct (N.eqb_spec c2 123) as [->|]; [|discriminate].
  fold digit_class in H. cbn [groups_of digit_class] in H.
  apply (digits_sound []) in H. destruct H as (D & y1 & Er & HD & Hmn & HK).
  cbn [advance rest] in Er. cbn [m] in HK.
  destruct (rest y1) as [|c3 post]; [discriminate|].
  destruct (N.eqb_spec c3 125) as [->|]; [|discriminate].
  exists pre, D, post. split; [destruct D; [cbn in Hmn; lia | discriminate]|].
  split; [exact HD|]. rewrite Er. reflexivity.
Qed.

(** X2: the templates that [validateOutputTemplate] accepts are exactly
    those that contain the URL placeholder, or a dollar sign, an opening
    brace, one or more digits and a closing brace; every other template gets
    a message. *)
Theorem validateOutputTemplate_accepts template :
  validateOutputTemplate template = None
  <-> (exists pre post, template = pre ++ str "${url}" ++ post)
      \/ (exists pre D post,
            D <> [] /\ forallb is_digit D = true
            /\ template = pre ++ str "${" ++ D ++ str "}" ++ post).
Proof.
  split.
  - unfold validateOutputTemplate.
    destruct (falsy template || falsy (String_trim template)); [discriminate|].
    destruct (String_includes template (str "${url}")) eqn:Ei.
    + intros _. left. now apply String_includes_spec.
    + destruct (RegExp_test re_group_ref template) eqn:Et; [|discriminate].
      intros _. right. now apply group_ref_sound.
  - intros H.
    assert (Hd : In (ch "$") template).
    { destruct H as [(pre & post & ->) | (pre & D & post & _ & _ & ->)];
        apply in_or_app; right; now left. }
    unfold validateOutputTemplate.
    rewrite (trim_not_blank (ch "$") template Hd eq_refl).
    destruct template as [|c t]; [destruct Hd|]. cbn [falsy orb].
    destruct H as [H | (pre & D & post & Hne & HD & E)].
    + apply String_includes_spec in H. rewrite H. reflexivity.
    + rewrite E. rewrite (group_ref_test pre D post Hne).
      * now rewrite andb_false_r.
      * apply Forall_forall. now apply forallb_forall.
Qed.

(** ** The list of rules and its buttons *)

Lemma try_patterns_skip_null s ps :
  try_patterns s ps = try_patterns s (filter (fun p => negb (returns_null s p)) ps).
Proof.
  induction ps as [|p ps IH]; [reflexivity|].
  cbn [filter]. unfold returns_null at 1.
  destruct (matchPattern s p) as [[v|]|e] eqn:E; cbn [negb].
  - cbn [try_patterns]. rewrite E. reflexivity.
  - cbn [try_patterns]. rewrite E. exact IH.
  - cbn [try_patterns]. rewrite E. reflexivity.
Qed.

(** X3: the rules that return null for a candidate have no part in what
    [formatLink] does with it: taking them out of the list changes neither
    the result nor the error. *)
Theorem formatLink_skips_null_rules s ps :
  formatLink s ps = formatLink s (filter (fun p => negb (returns_null s p)) ps).
Proof. unfold formatLink. now rewrite <- try_patterns_skip_null. Qed.

Lemma try_patterns_app_null s pre post :
  (forall q, In q pre -> matchPattern s q = Ok None) ->
  try_patterns s (pre ++ post) = try_patterns s post.
Proof.
  induction pre as [|q pre IH]; intros H; [reflexivity|].
  cbn [app try_patterns]. rewrite (H q (or_introl eq_refl)). cbn [bind].
  apply IH. intros q' Hq'. apply H. now right.
Qed.

Lemma try_patterns_cons_null s p ps :
  matchPattern s p = Ok None -> try_patterns s (p :: ps) = try_patterns s ps.
Proof. intros H. cbn [try_patterns]. now rewrite H. Qed.

Lemma try_patterns_drop s pre p post :
  matchPattern s p = Ok None ->
  try_patterns s (pre ++ p :: post) = try_patterns s (pre ++ post).
Proof.
  intros H. induction pre as [|q pre IH]; cbn [app].
  - now apply try_patterns_cons_null.
  - cbn [try_patterns]. destruct (matchPattern s q) as [[v|]|e]; cbn [bind]; auto.
Qed.

Lemma nth_error_split_at {A} (l : list A) n a :
  nth_error l n = Some a ->
  l = firstn n l ++ a :: skipn (S n) l /\ length (firstn n l) = n.
Proof.
  revert l. induction n as [|n IH]; intros [|x l] H; try discriminate.
  - inversion H. subst. split; reflexivity.
  - cbn [nth_error] in H. destruct (IH l H) as [E L]. split.
    + cbn [firstn skipn app]. f_equal. exact E.
    + cbn [firstn length]. now rewrite L.
Qed.

Lemma set_nth_app {A} (pre : list A) x post v :
  set_nth (length pre) v (pre ++ x :: post) = pre ++ v :: post.
Proof. induction pre as [|a pre IH]; cbn; [reflexivity | now rewrite IH]. Qed.

Lemma set_enabled_false_null s p : matchPattern s (set_enabled false p) = Ok None.
Proof. reflexivity. Qed.

(** X4: for every pasted text, a list in which the toggle has switched a
    rule off behaves as the list from which the delete button has removed
    that rule. *)
Theorem disabling_is_deleting s patterns index :
  formatLink s (toggle_at patterns index false) = formatLink s (splice_one patterns index).
Proof.
  unfold toggle_at, splice_one.
  destruct (nth_error patterns index) as [p|] eqn:E.
  - destruct (nth_error_split_at patterns index p E) as [Hs Hl].
    set (pre := firstn index patterns) in *. set (post := skipn (S index) patterns) in *.
    rewrite Hs at 1. rewrite <- Hl at 1. rewrite set_nth_app.
    unfold formatLink. rewrite (try_patterns_drop s pre (set_enabled false p) post); reflexivity.
  - apply nth_error_None in E.
    rewrite firstn_all2 by lia. rewrite skipn_all2 by lia. now rewrite app_nil_r.
Qed.

(** ** Reordering and editing the list *)

Lemma set_nth_length {A} n (v : A) l : length (set_nth n v l) = length l.
Proof.
  revert n. induction l as [|a l IH]; intros [|n]; cbn; auto.
Qed.

Lemma nth_error_set_nth {A} n (v : A) l j :
  nth_error (set_nth n v l) j
  = if Nat.eqb n j && Nat.ltb n (length l) then Some v else nth_error l j.
Proof.
  revert n j. induction l as [|a l IH]; intros n j.
  - destruct n; cbn [set_nth length]; rewrite andb_false_r; reflexivity.
  - destruct n as [|n], j as [|j]; cbn [set_nth nth_error length]; try reflexivity.
    rewrite IH. reflexivity.
Qed.

Lemma transpose_involutive a b n : transpose a b (transpose a b n) = n.
Proof.
  unfold transpose.
  destruct (Nat.eqb_spec n a) as [->|Ha].
  - destruct (Nat.eqb_spec b a) as [->|Hb]; [reflexivity|]. now rewrite Nat.eqb_refl.
  - destruct (Nat.eqb_spec n b) as [->|Hb].
    + now rewrite Nat.eqb_refl.
    + destruct (Nat.eqb_spec n a); [contradiction|].
      destruct (Nat.eqb_spec n b); [contradiction|]. reflexivity.
Qed.

Lemma swapPatterns_nth patterns a b patterns' :
  swapPatterns patterns a b = Some patterns' ->
  forall n, nth_error patterns' n = nth_error patterns (transpose a b n).
Proof.
  unfold swapPatterns.
  destruct (nth_error patterns b) as [y|] eqn:Eb; [|discriminate].
  destruct (nth_error patterns a) as [x|] eqn:Ea; [|discriminate].
  intros [= <-] n.
  assert (La : a < length patterns) by (apply nth_error_Some; congruence).
  assert (Lb : b < length patterns) by (apply nth_error_Some; congruence).
  rewrite !nth_error_set_nth, set_nth_length.
  apply Nat.ltb_lt in La, Lb. rewrite La, Lb, !andb_true_r. unfold transpose.
  rewrite (Nat.eqb_sym n a), (Nat.eqb_sym n b).
  destruct (Nat.eqb_spec b n) as [<-|Hb].
  - destruct (Nat.eqb_spec a b) as [->|Ha]; congruence.
  - destruct (Nat.eqb_spec a n) as [<-|Ha]; congruence.
Qed.

(** X5: on two indices of the list, [swapPatterns] exchanges the two
    rules and touches no other place; the result is a permutation of the
    list, and swapping again gives the list back. *)
Theorem swapPatterns_exchanges patterns a b patterns' :
  swapPatterns patterns a b = Some patterns' ->
  Permutation patterns patterns'
  /\ nth_error patterns' a = nth_error patterns b
  /\ nth_error patterns' b = nth_error patterns a
  /\ (forall n, n <> a -> n <> b -> nth_error patterns' n = nth_error patterns n)
  /\ swapPatterns patterns' a b = Some patterns.
Proof.
  intros H. pose proof (swapPatterns_nth _ _ _ _ H) as Hn.
  assert (Hlen : length patterns = length patterns').
  { unfold swapPatterns in H.
    destruct (nth_error patterns b); [|discriminate].
    destruct (nth_error patterns a); [|discriminate].
    inversion H. now rewrite !set_nth_length. }
  split; [|split; [|split; [|split]]].
  - apply Permutation_nth_error. split; [exact Hlen|].
    exists (transpose a b). split; [|exact Hn].
    intros n n' E. rewrite <- (transpose_involutive a b n), E. apply transpose_involutive.
  - rewrite Hn. unfold transpose. now rewrite Nat.eqb_refl.
  - rewrite Hn. unfold transpose. rewrite Nat.eqb_refl.
    destruct (Nat.eqb_spec b a) as [->|]; reflexivity.
  - intros n Ha Hb. rewrite Hn. unfold transpose.
    destruct (Nat.eqb_spec n a); [contradiction|]. destruct (Nat.eqb_spec n b); [contradiction|].
    reflexivity.
  - assert (E : exists l, swapPatterns patterns' a b = Some l).
    { unfold swapPatterns. rewrite !Hn.
      assert (Ta : transpose a b a = b) by (unfold transpose; now rewrite Nat.eqb_refl).
      assert (Tb : transpose a b b = a).
      { unfold transpose. rewrite Nat.eqb_refl. now destruct (Nat.eqb_spec b a). }
      rewrite Ta, Tb.
      unfold swapPatterns in H.
      destruct (nth_error patterns b) as [y|] eqn:Eb; [|discriminate].
      destruct (nth_error patterns a) as [x|] eqn:Ea; [|discriminate].
      eauto. }
    destruct E as [l Hl]. rewrite Hl. f_equal.
    apply nth_error_ext. intros n.
    rewrite (swapPatterns_nth _ _ _ _ Hl), Hn, transpose_involutive. reflexivity.
Qed.

Lemma swapPatterns_exchanges_witness :
  Permutation [page_rule; github_rule] [github_rule; page_rule]
  /\ nth_error [github_rule; page_rule] 1 = nth_error [page_rule; github_rule] 0
  /\ nth_error [github_rule; page_rule] 0 = nth_error [page_rule; github_rule] 1
  /\ (forall n, n <> 1 -> n <> 0 ->
        nth_error [github_rule; page_rule] n = nth_error [page_rule; github_rule] n)
  /\ swapPatterns [github_rule; page_rule] 1 0 = Some [page_rule; github_rule].
Proof.
  apply (swapPatterns_exchanges [page_rule; github_rule] 1 0). reflexivity.
Defined.

Lemma swap_neighbours pre (x y : LinkPattern) post :
  swapPatterns (pre ++ x :: y :: post) (S (length pre)) (length pre)
  = Some (pre ++ y :: x :: post).
Proof.
  unfold swapPatterns.
  assert (E1 : nth_error (pre ++ x :: y :: post) (length pre) = Some x).
  { rewrite nth_error_app2 by lia. now rewrite Nat.sub_diag. }
  assert (E2 : nth_error (pre ++ x :: y :: post) (S (length pre)) = Some y).
  { rewrite nth_error_app2 by lia.
    replace (S (length pre) - length pre) with 1 by lia. reflexivity. }
  rewrite E1, E2. f_equal.
  change (pre ++ x :: y :: post) with (pre ++ x :: (y :: post)).
  replace (set_nth (S (length pre)) x (pre ++ x :: y :: post)) with (pre ++ x :: x :: post).
  - apply set_nth_app.
  - symmetry. replace (pre ++ x :: y :: post) with ((pre ++ [x]) ++ y :: post)
      by (now rewrite <- app_assoc).
    replace (S (length pre)) with (length (pre ++ [x])) by (rewrite length_app; cbn; lia).
    rewrite set_nth_app. now rewrite <- app_assoc.
Qed.

(** X6: when two neighbours both match a candidate that every rule before
    them leaves alone, [formatLink] gives the result of the upper one, and
    after the arrow that moves the lower one up, the result of that one. *)
Theorem moving_up_gives_priority s pre x y post vx vy :
  single_token s = true ->
  (forall q, In q pre -> matchPattern s q = Ok None) ->
  matchPattern s x = Ok (Some vx) ->
  matchPattern s y = Ok (Some vy) ->
  formatLink s (pre ++ x :: y :: post) = Ok (Some vx)
  /\ exists moved,
       swapPatterns (pre ++ x :: y :: post) (S (length pre)) (length pre) = Some moved
       /\ formatLink s moved = Ok (Some vy).
Proof.
  intros Hs Hpre Hx Hy. split.
  - rewrite (gate_open _ _ Hs), (try_patterns_app_null _ _ _ Hpre).
    cbn [try_patterns]. now rewrite Hx.
  - exists (pre ++ y :: x :: post). split; [apply swap_neighbours|].
    rewrite (gate_open _ _ Hs), (try_patterns_app_null _ _ _ Hpre).
    cbn [try_patterns]. now rewrite Hy.
Qed.

Lemma moving_up_gives_priority_witness :
  formatLink page_url
    (github_rule :: page_rule :: rule "example.com" "\/page\/(\d+)" "${1}" :: [])
  = Ok (Some (str "[123](https://example.com/page/123)"))
  /\ exists moved,
       swapPatterns
         (github_rule :: page_rule :: rule "example.com" "\/page\/(\d+)" "${1}" :: []) 2 1
       = Some moved
       /\ formatLink page_url moved = Ok (Some (str "123")).
Proof.
  apply (moving_up_gives_priority page_url [github_rule] page_rule
           (rule "example.com" "\/page\/(\d+)" "${1}") []).
  - vm_compute. reflexivity.
  - intros q [<- | []]. vm_compute. reflexivity.
  - vm_compute. reflexivity.
  - vm_compute. reflexivity.
Defined.

(** ** Saving from the edit dialog *)

Lemma jseqb_eq a b : jseqb a b = true <-> a = b.
Proof.
  revert b. induction a as [|x a IH]; intros [|y b]; cbn [jseqb]; split; intros H;
    try reflexivity; try discriminate.
  - apply andb_true_iff in H. destruct H as [H1 H2].
    apply N.eqb_eq in H1. apply IH in H2. congruence.
  - inversion H; subst. rewrite N.eqb_refl. now apply IH.
Qed.

Lemma findIndex_id_nodup patterns index existing :
  NoDup (map id patterns) ->
  nth_error patterns index = Some existing ->
  findIndex_id (id existing) patterns = Some index.
Proof.
  revert index. induction patterns as [|p ps IH]; intros [|n] Hnd Hn;
    cbn [nth_error] in Hn; try discriminate; cbn [findIndex_id].
  - inversion Hn; subst. now rewrite (proj2 (jseqb_eq _ _) eq_refl).
  - cbn [map] in Hnd. inversion Hnd as [|? ? Hnotin Hnd']; subst.
    destruct (jseqb (id p) (id existing)) eqn:E.
    + apply jseqb_eq in E. exfalso. apply Hnotin. rewrite E.
      apply in_map. eapply nth_error_In; eauto.
    + rewrite (IH n Hnd' Hn). reflexivity.
Qed.

Lemma findIndex_id_none wanted patterns :
  findIndex_id wanted patterns = None <-> ~ In wanted (map id patterns).
Proof.
  induction patterns as [|p ps IH]; cbn [findIndex_id map In]; [tauto|].
  destruct (jseqb (id p) wanted) eqn:E.
  - apply jseqb_eq in E. split; [discriminate | intros H; exfalso; apply H; now left].
  - assert (id p <> wanted) by (intros H; apply jseqb_eq in H; congruence).
    destruct (findIndex_id wanted ps); cbn [option_map].
    + split; [discriminate|]. intros H1. exfalso. apply H1. right.
      destruct (in_dec (list_eq_dec N.eq_dec) wanted (map id ps)) as [Hi|Hi]; [exact Hi|].
      apply IH in Hi. discriminate.
    + split; [|reflexivity]. intros _ [H1|H1]; [contradiction|]. now apply (proj1 IH).
Qed.

Lemma map_id_set_nth index (pattern existing : LinkPattern) patterns :
  nth_error patterns index = Some existing -> id pattern = id existing ->
  map id (set_nth index pattern patterns) = map id patterns.
Proof.
  revert index. induction patterns as [|p ps IH]; intros [|n] Hn Hid;
    cbn [nth_error] in Hn; try discriminate; cbn [set_nth map].
  - inversion Hn; subst. now rewrite Hid.
  - f_equal. now apply IH.
Qed.

(** X7: in a list with distinct identifiers, saving the dialog of an
    existing rule puts the edited rule at the place of the rule that was
    opened, and leaves every other place, the length and the distinctness of
    the identifiers as they were. *)
Theorem edit_replaces_in_place patterns index existing pattern :
  NoDup (map id patterns) ->
  nth_error patterns index = Some existing ->
  id pattern = id existing ->
  let saved := on_modal_save patterns (Some existing) pattern in
  nth_error saved index = Some pattern
  /\ (forall n, n <> index -> nth_error saved n = nth_error patterns n)
  /\ length saved = length patterns
  /\ NoDup (map id saved).
Proof.
  intros Hnd Hn Hid saved. subst saved. unfold on_modal_save.
  rewrite (findIndex_id_nodup _ _ _ Hnd Hn).
  assert (Hlt : index < length patterns) by (apply nth_error_Some; congruence).
  split; [|split; [|split]].
  - rewrite nth_error_set_nth, Nat.eqb_refl. apply Nat.ltb_lt in Hlt. now rewrite Hlt.
  - intros n Hne. rewrite nth_error_set_nth.
    destruct (Nat.eqb_spec index n); [congruence | reflexivity].
  - apply set_nth_length.
  - now rewrite (map_id_set_nth _ _ _ _ Hn Hid).
Qed.

Lemma edit_replaces_in_place_witness :
  let first := mkLinkPattern (str "p1") (str "Pages") true (str "example.com")
                 (str "\/page\/(\d+)") (str "[${1}](${url})") None None in
  let second := mkLinkPattern (str "p2") (str "Issues") true (str "github.com")
                  (str "\/issues\/(\d+)") (str "[#${1}](${url})") None None in
  let edited := mkLinkPattern (str "p2") (str "Issues and pulls") false (str "github.com")
                  (str "\/(issues|pull)\/(\d+)") (str "[#${2}](${url})") None None in
  let saved := on_modal_save [first; second] (Some second) edited in
  nth_error saved 1 = Some edited
  /\ (forall n, n <> 1 -> nth_error saved n = nth_error [first; second] n)
  /\ length saved = length [first; second]
  /\ NoDup (map id saved).
Proof.
  intros first second edited.
  apply (edit_replaces_in_place [first; second] 1 second edited).
  - repeat constructor; cbn; intuition discriminate.
  - reflexivity.
  - reflexivity.
Defined.

Lemma try_patterns_null_inv s ps :
  try_patterns s ps = Ok None -> forall p, In p ps -> matchPattern s p = Ok None.
Proof.
  induction ps as [|q ps IH]; cbn [try_patterns]; intros H p Hp; [destruct Hp|].
  destruct (matchPattern s q) as [[v|]|e] eqn:E; cbn [bind] in H; try discriminate.
  destruct Hp as [<-|Hp]; [exact E | now apply IH].
Qed.

Lemma try_patterns_app s ps qs :
  try_patterns s (ps ++ qs)
  = match try_patterns s ps with
    | Ok None => try_patterns s qs
    | r => r
    end.
Proof.
  induction ps as [|p ps IH]; cbn [app try_patterns].
  - destruct (try_patterns s qs) as [[v|]|e]; reflexivity.
  - destruct (matchPattern s p) as [[v|]|e]; cbn [bind]; auto.
Qed.

(** X8: a rule that is added goes to the end of the list: [formatLink]
    answers as before whenever the old list gave a result or threw, and asks
    the new rule only when the old list returned null. *)
Theorem added_rule_has_lowest_priority s patterns pattern :
  formatLink s (on_modal_save patterns None pattern)
  = match formatLink s patterns with
    | Ok None => formatLink s [pattern]
    | r => r
    end.
Proof.
  unfold on_modal_save, formatLink.
  destruct (falsy (String_trim s)); [reflexivity|].
  destruct (RegExp_test re_space s); [reflexivity|].
  apply try_patterns_app.
Qed.

(** ** The paste handler *)

Lemma formatLink_gate s ps :
  formatLink s ps <> Ok None -> single_token s = true.
Proof.
  unfold formatLink, single_token. intros H.
  destruct s as [|c t]; [exfalso; apply H; reflexivity|]. cbn [falsy negb andb].
  destruct (falsy (String_trim (c :: t))); [congruence|].
  rewrite test_space in H. unfold has_whitespace.
  destruct (existsb is_whitespace (c :: t)); [congruence | reflexivity].
Qed.

Lemma try_patterns_some s ps v :
  try_patterns s ps = Ok (Some v) ->
  exists pre p post, ps = pre ++ p :: post
    /\ (forall q, In q pre -> matchPattern s q = Ok None)
    /\ matchPattern s p = Ok (Some v).
Proof.
  induction ps as [|q ps IH]; cbn [try_patterns]; [discriminate|].
  destruct (matchPattern s q) as [[w|]|e] eqn:E; cbn [bind]; try discriminate.
  - intros [= ->]. exists [], q, ps. split; [reflexivity|]. split; [intros ? []|exact E].
  - intros H. destruct (IH H) as (pre & p & post & -> & Hpre & Hp).
    exists (q :: pre), p, post. split; [reflexivity|]. split; [|exact Hp].
    intros q' [<-|Hq']; auto.
Qed.

(** X9: when the paste handler replaces the selection, the clipboard held
    one non-empty text without white space that starts with [http://] or
    [https://]; the text put in is not empty and is the result of an enabled
    rule of the list whose domain pattern matches after the protocol, every
    rule before it having returned null. *)
Theorem paste_replaces_only_links clipboard patterns text :
  on_editor_paste clipboard patterns = Ok (ReplaceSelection text) ->
  exists pastedText pre pattern post tail,
    clipboard = Some pastedText
    /\ single_token pastedText = true
    /\ (pastedText = str "http://" ++ tail \/ pastedText = str "https://" ++ tail)
    /\ patterns = pre ++ pattern :: post
    /\ (forall q, In q pre -> matchPattern pastedText q = Ok None)
    /\ enabled pattern = true
    /\ wildcard_prefix (domainPattern pattern) tail = true
    /\ matchPattern pastedText pattern = Ok (Some text)
    /\ text <> [].
Proof.
  unfold on_editor_paste. destruct clipboard as [s|]; [|discriminate].
  destruct (falsy s); [discriminate|].
  destruct (formatLink s patterns) as [[v|]|e] eqn:E; cbn [bind]; try discriminate.
  destruct v as [|c v]; cbn [falsy]; [discriminate|]. intros [= <-].
  assert (Hs : single_token s = true) by (apply (formatLink_gate s patterns); congruence).
  rewrite (gate_open _ _ Hs) in E.
  destruct (try_patterns_some _ _ _ E) as (pre & p & post & -> & Hpre & Hp).
  assert (Hr : matchPattern s p <> Ok None) by congruence.
  destruct (matchPattern_reaches _ _ Hr) as (He & _ & _ & Ht).
  destruct (domain_test_sound _ _ Ht) as (tail & Hu & Hw).
  exists s, pre, p, post, tail. repeat split; auto. discriminate.
Qed.

Lemma paste_replaces_only_links_witness :
  on_editor_paste (Some page_url) [page_rule]
  = Ok (ReplaceSelection (str "[123](https://example.com/page/123)"))
  /\ exists pastedText pre pattern post tail,
       Some page_url = Some pastedText
       /\ single_token pastedText = true
       /\ (pastedText = str "http://" ++ tail \/ pastedText = str "https://" ++ tail)
       /\ [page_rule] = pre ++ pattern :: post
       /\ (forall q, In q pre -> matchPattern pastedText q = Ok None)
       /\ enabled pattern = true
       /\ wildcard_prefix (domainPattern pattern) tail = true
       /\ matchPattern pastedText pattern = Ok (Some (str "[123](https://example.com/page/123)"))
       /\ str "[123](https://example.com/page/123)" <> [].
Proof.
  split; [vm_compute; reflexivity|].
  apply (paste_replaces_only_links (Some page_url) [page_rule]).
  vm_compute. reflexivity.
Defined.

(** X10: without clipboard data, and for a text that is empty, holds white
    space or starts with neither [http://] nor [https://], the paste handler
    leaves the paste to the editor, whatever the rules are; it does not throw
    either. *)
Theorem paste_leaves_other_text clipboard patterns :
  match clipboard with
  | None => True
  | Some pastedText =>
      single_token pastedText = false
      \/ (starts_with pastedText (str "http://") = false
          /\ starts_with pastedText (str "https://") = false)
  end ->
  on_editor_paste clipboard patterns = Ok DefaultPaste.
Proof.
  destruct clipboard as [s|]; [|reflexivity]. intros H. unfold on_editor_paste.
  destruct (falsy s) eqn:Ef; [reflexivity|].
  assert (E : formatLink s patterns = Ok None).
  { destruct H as [H|[H1 H2]].
    - destruct (formatLink s patterns) as [[v|]|e] eqn:E; [|reflexivity|];
        (assert (Hs : single_token s = true)
           by (apply (formatLink_gate s patterns); congruence)); congruence.
    - apply formatLink_all_null. intros p _.
      destruct (matchPattern s p) as [[v|]|e] eqn:E; [|reflexivity|];
        (assert (Hr : matchPattern s p <> Ok None) by congruence);
        destruct (matchPattern_reaches _ _ Hr) as (_ & _ & _ & Ht);
        destruct (domain_test_sound _ _ Ht) as (tail & [Hu|Hu] & _); subst s;
        rewrite starts_with_app in *; discriminate. }
  rewrite E. reflexivity.
Qed.

Lemma paste_leaves_other_text_witness :
  on_editor_paste (Some (str "ftp://example.com/page/123")) [page_rule] = Ok DefaultPaste.
Proof.
  apply (paste_leaves_other_text (Some (str "ftp://example.com/page/123")) [page_rule]).
  right. split; vm_compute; reflexivity.
Defined.

(** ** Lookbehind, named groups and references by name

    The results are those of the examples of the proposals that brought
    them into the language (ECMAScript 2018). *)

Example lookbehind_examples :
  exec_str "(?<=\$)\d+" "cost $42" = Ok (Some [Some (str "42")])
  /\ exec_str "(?<!\$)\b\d+" "cost $42 and 17" = Ok (Some [Some (str "17")])
  /\ exec_str "(?<=(\d+)(\d+))$" "1053" = Ok (Some [Some []; Some (str "1"); Some (str "053")])
  /\ exec_str "(?<=\1d(o))r" "hodor" = Ok (Some [Some (str "r"); Some (str "o")])
  /\ exec_str "(?<=(o)d\1)r" "hodor" = Ok None
  /\ exec_str "(?<=a(?=b).)c" "abc" = Ok (Some [Some (str "c")])
  /\ exec_str "(?<=a)*" "a" = Throw SyntaxError.
Proof. repeat split; vm_compute; reflexivity. Qed.

Example named_group_examples :
  exec_str "(?<year>\d{4})-(?<month>\d{2})" "on 2024-05-01"
  = Ok (Some [Some (str "2024-05"); Some (str "2024"); Some (str "05")])
  /\ exec_str "(?<a>x)\k<a>" "axx" = Ok (Some [Some (str "xx"); Some (str "x")])
  /\ exec_str "\k<a>" "zk<a>" = Ok (Some [Some (str "k<a>")])
  /\ exec_str "(?<a>x)\k<b>" "xx" = Throw SyntaxError
  /\ exec_str "(?<a>x)\k" "xx" = Throw SyntaxError
  /\ exec_str "(?<a>x)[\k]" "xk" = Throw SyntaxError
  /\ exec_str "[\k]" "ok" = Ok (Some [Some (str "k")])
  /\ exec_str "(?<1a>x)" "x" = Throw SyntaxError
  /\ exec_str "(?<a" "x" = Throw SyntaxError.
Proof. repeat split; vm_compute; reflexivity. Qed.

(** What the model leaves open. *)
Example outside_model_examples :
  exec_str "(?<a>x)|(?<a>y)" "y" = Throw OutsideModel
  /\ exec_str "(?i:a)" "A" = Throw OutsideModel
  /\ exec_str "(?<\u0061>x)" "x" = Throw OutsideModel
  /\ RegExp_new [40; 63; 60; 233; 62; 120; 41]%N false = Throw OutsideModel.
Proof. repeat split; vm_compute; reflexivity. Qed.

(** ** Well-formed patterns, token by token *)

Lemma quantifiable_close_frame alts cur : quantifiable (close_frame alts cur) = true.
Proof.
  unfold close_frame. cbn [rev].
  destruct (rev alts) as [|a l] eqn:E; cbn [app alt_of].
  - destruct (rev cur); reflexivity.
  - destruct (l ++ [seq_of (rev cur)]) eqn:E2; [|reflexivity].
    destruct l; discriminate.
Qed.

(** A group takes a quantifier unless it looks behind. *)
Lemma quantifiable_wrap k alts cur :
  quantifiable (wrap k (close_frame alts cur)) = negb (is_lookbehind_frame k).
Proof. destruct k; cbn [wrap is_lookbehind_frame negb]; auto using quantifiable_close_frame. Qed.

Lemma parse_terms l : forall toks next alts cur stack,
  parse (map TTerm l ++ toks) next alts cur stack = parse toks next alts (rev l ++ cur) stack.
Proof.
  induction l as [|a l IH]; intros toks next alts cur stack; [reflexivity|].
  cbn [map app parse rev]. rewrite IH, <- app_assoc. reflexivity.
Qed.

Lemma last_quantifiable_head l : forall cur,
  head_quantifiable (rev l ++ cur) = last_quantifiable l (head_quantifiable cur).
Proof.
  unfold last_quantifiable.
  induction l as [|a l IH]; intros cur; [reflexivity|].
  cbn [rev fold_left]. rewrite <- app_assoc. cbn [app]. now rewrite IH.
Qed.

Lemma jseqb_sym a b : jseqb a b = jseqb b a.
Proof.
  destruct (jseqb a b) eqn:E1, (jseqb b a) eqn:E2; try reflexivity.
  - apply jseqb_eq in E1. subst. assert (H : jseqb b b = true) by now apply jseqb_eq. congruence.
  - apply jseqb_eq in E2. subst. assert (H : jseqb a a = true) by now apply jseqb_eq. congruence.
Qed.

(** A name has a number exactly when a group has the name. *)
Lemma name_index_names name toks : forall next,
  existsb (jseqb name) (group_names toks)
  = match name_index name toks next with Some _ => true | None => false end.
Proof.
  unfold group_names.
  induction toks as [|tok toks IH]; intros next; [reflexivity|].
  cbn [flat_map name_index].
  destruct tok as [r|[| |neg|neg|n]| | |mn mx g|plain nm]; cbn [app existsb]; try apply IH.
  rewrite (jseqb_sym name n). destruct (jseqb n name); [reflexivity|]. cbn [orb]. apply IH.
Qed.

Section Names.

Variables (all : list token) (names : list jsstring) (named : bool).
Hypothesis Hnames : forall name,
  existsb (jseqb name) names
  = match name_index name all 1 with Some _ => true | None => false end.
Hypothesis Hnamed : named = negb (Nat.eqb (length names) 0).

(** A token that has no reading stops the abstract run. *)
Lemma resolve_throw_run toks : forall e st,
  resolve_all named all toks = Throw e -> run names toks st = None.
Proof.
  induction toks as [|tok toks IH]; intros e st; cbn [resolve_all run]; [discriminate|].
  destruct (resolve1 named all tok) as [a|e1] eqn:E1; cbn [bind].
  - destruct (step names tok st) as [st1|]; [|reflexivity].
    destruct (resolve_all named all toks) as [r|e2] eqn:E2; cbn [bind]; [discriminate|].
    intros _. exact (IH _ _ eq_refl).
  - intros _. unfold resolve1 in E1.
    destruct tok as [r|k| | |mn mx g|plain nm]; try discriminate.
    cbn [step]. rewrite Hnamed in E1.
    destruct nm as [name|e0].
    + rewrite Hnames. destruct names; [discriminate|]. cbn [length Nat.eqb negb] in E1.
      destruct (name_index name all 1); [discriminate | reflexivity].
    + destruct names; [discriminate | reflexivity].
Qed.

(** The parser accepts the tokens once they are read exactly when the
    abstract run ends outside every group. *)
Lemma parse_run toks : forall toks' next alts cur stack b sn,
  resolve_all named all toks = Ok toks' ->
  match parse toks' next alts cur stack with
  | Ok _ => exists st, run names toks (PState (frames_of stack) (head_quantifiable cur) b sn)
                       = Some st /\ frames st = []
  | Throw _ => forall st, run names toks (PState (frames_of stack) (head_quantifiable cur) b sn)
                          = Some st -> frames st <> []
  end.
Proof.
  induction toks as [|tok toks IH]; intros toks' next alts cur stack b sn H.
  - cbn [resolve_all] in H. injection H as <-. cbn [parse run]. destruct stack; cbn [frames_of map].
    + eexists. split; reflexivity.
    + intros st [= <-]. discriminate.
  - cbn [resolve_all] in H.
    destruct (resolve1 named all tok) as [a|e1] eqn:E1; cbn [bind] in H; [|discriminate].
    destruct (resolve_all named all toks) as [r|e2] eqn:E2; cbn [bind] in H; [|discriminate].
    injection H as <-. specialize (IH r). cbn [run].
    destruct tok as [r0| [| |neg|neg|n] | | |mn mx g|plain nm];
      cbn [resolve1] in E1; try (injection E1 as <-; cbn [app parse]);
      cbn [step frames quant_ok top_bar seen is_lookbehind].
    + exact (IH next alts (r0 :: cur) stack b sn eq_refl).
    + exact (IH (S next) [] [] ((FCapture next, alts, cur) :: stack) b _ eq_refl).
    + exact (IH next [] [] ((FNonCapture, alts, cur) :: stack) b _ eq_refl).
    + exact (IH next [] [] ((FLook neg, alts, cur) :: stack) b _ eq_refl).
    + exact (IH next [] [] ((FLookbehind neg, alts, cur) :: stack) b _ eq_refl).
    + exact (IH (S next) [] [] ((FCapture next, alts, cur) :: stack) b _ eq_refl).
    + destruct stack as [|[[k alts0] cur0] stack']; cbn [frames_of map fst];
        [intros st; discriminate|].
      specialize (IH next alts0 (wrap k (close_frame alts cur) :: cur0) stack' b sn eq_refl).
      cbn [head_quantifiable] in IH. rewrite quantifiable_wrap in IH. exact IH.
    + specialize (IH next (seq_of (rev cur) :: alts) [] stack
                    (b || Nat.eqb (length (frames_of stack)) 0) sn eq_refl).
      exact IH.
    + destruct cur as [|a0 cur']; cbn [head_quantifiable andb]; [intros st; discriminate|].
      destruct (quantifiable a0 && bounds_ok mn mx); [|intros st; discriminate].
      exact (IH next alts (RQuant mn mx g a0 :: cur') stack b sn eq_refl).
    + rewrite Hnamed in E1.
      assert (Hcase : (names = [] /\ a = map TTerm plain)
                      \/ (exists name i, names <> [] /\ nm = NRef name
                                          /\ existsb (jseqb name) names = true
                                          /\ a = [TTerm (RBackref i)])).
      { destruct nm as [name|e0].
        - pose proof (Hnames name) as Hx.
          destruct names; cbn [length Nat.eqb negb] in E1.
          + left. now injection E1 as <-.
          + right. destruct (name_index name all 1) as [i|]; [|discriminate].
            injection E1 as <-. exists name, i. repeat split; congruence.
        - destruct names; cbn [length Nat.eqb negb] in E1; [|discriminate].
          left. now injection E1 as <-. }
      clear E1. destruct Hcase as [[Hn ->] | (name & i & Hn & -> & Hex & ->)].
      * rewrite Hn in *. rewrite parse_terms. rewrite <- last_quantifiable_head.
        exact (IH next alts (rev plain ++ cur) stack b sn eq_refl).
      * destruct names as [|n0 ns]; [congruence|]. cbn [app parse]. rewrite Hex.
        exact (IH next alts (RBackref i :: cur) stack b sn eq_refl).
Qed.

End Names.

Lemma run_app names a : forall b st,
  run names (a ++ b) st = match run names a st with
                          | Some st' => run names b st'
                          | None => None
                          end.
Proof.
  induction a as [|tok a IH]; intros b st; cbn [app run]; [reflexivity|].
  destruct (step names tok st) as [st'|]; [apply IH | reflexivity].
Qed.

(** The names that a run has seen are those of its tokens. *)
Lemma run_seen names toks : forall st st',
  run names toks st = Some st' -> seen st' = seen st ++ group_names toks.
Proof.
  unfold group_names.
  induction toks as [|tok toks IH]; intros st st' H; cbn [run] in H.
  - injection H as <-. cbn [flat_map]. now rewrite app_nil_r.
  - destruct (step names tok st) as [st1|] eqn:E; [|discriminate].
    rewrite (IH _ _ H). cbn [flat_map]. rewrite app_assoc. f_equal.
    destruct tok as [r|k| | |mn mx g|plain nm]; cbn [step] in E.
    + injection E as <-. cbn [seen]. now rewrite app_nil_r.
    + injection E as <-. cbn [seen]. destruct k; reflexivity.
    + destruct (frames st); [discriminate|]. injection E as <-. cbn [seen]. now rewrite app_nil_r.
    + injection E as <-. cbn [seen]. now rewrite app_nil_r.
    + destruct (_ && _); [|discriminate]. injection E as <-. cbn [seen]. now rewrite app_nil_r.
    + rewrite app_nil_r. destruct names; [now injection E as <-|].
      destruct nm; [|discriminate]. destruct (existsb _ _); [|discriminate].
      now injection E as <-.
Qed.

Lemma run_top_bar names toks : forall st st',
  run names toks st = Some st' ->
  top_bar st' = top_bar st || bar_outside toks (length (frames st)).
Proof.
  induction toks as [|tok toks IH]; intros st st' H; cbn [run] in H.
  - injection H as <-. cbn [bar_outside]. now rewrite orb_false_r.
  - destruct (step names tok st) as [st1|] eqn:E; [|discriminate].
    rewrite (IH _ _ H).
    destruct tok as [r|k| | |mn mx g|plain nm]; cbn [step] in E; cbn [bar_outside].
    + now injection E as <-.
    + now injection E as <-.
    + destruct (frames st) eqn:Ef; [discriminate|]. injection E as <-. reflexivity.
    + injection E as <-. cbn [top_bar frames]. now rewrite orb_assoc.
    + destruct (_ && _); [|discriminate]. now injection E as <-.
    + destruct names; [now injection E as <-|].
      destruct nm; [|discriminate]. destruct (existsb _ _); [|discriminate].
      now injection E as <-.
Qed.

(** A quantifier that may follow only helps. *)
Lemma run_more names toks : forall st st',
  run names toks st = Some st' ->
  exists q, run names toks (allow_quant true st) = Some (allow_quant q st').
Proof.
  induction toks as [|tok toks IH]; intros st st' H; cbn [run] in *.
  - injection H as <-. eauto.
  - destruct (step names tok st) as [st1|] eqn:E; [|discriminate].
    assert (Hs : step names tok (allow_quant true st) = Some st1
                 \/ step names tok (allow_quant true st) = Some (allow_quant true st1)).
    { destruct tok as [r|k| | |mn mx g|plain nm];
        cbn [step allow_quant frames quant_ok top_bar seen] in *.
      - now left.
      - now left.
      - destruct (frames st); [discriminate|]. now left.
      - now left.
      - destruct (quant_ok st); cbn [andb] in *; [now left | discriminate].
      - destruct names.
        + injection E as <-. unfold last_quantifiable.
          destruct plain as [|r0 plain]; cbn [fold_left]; [now right | now left].
        + now left. }
    destruct Hs as [-> | ->].
    + exists (quant_ok st'). rewrite H. destruct st'. reflexivity.
    + exact (IH _ _ H).
Qed.

Lemma lex_skip ng : forall t n, lex ng n t = lex ng 0 (skipn n t).
Proof.
  induction t as [|c t IH]; intros [|n]; try reflexivity.
  cbn [lex skipn]. apply IH.
Qed.

Lemma lex_cons ng c t :
  lex ng 0 (c :: t)
  = (a <- lex1 ng c t ;; toks <- lex ng 0 (skipn (snd a) t) ;; Ok (fst a :: toks)).
Proof.
  cbn [lex]. destruct (lex1 ng c t) as [a|e]; cbn [bind]; [|reflexivity].
  now rewrite lex_skip.
Qed.

Lemma run_text_cons ng names c t st :
  run_text ng names (c :: t) st
  = match lex1 ng c t with
    | Ok a => match step names (fst a) st with
              | Some st' => run_text ng names (skipn (snd a) t) st'
              | None => None
              end
    | Throw _ => None
    end.
Proof.
  unfold run_text. rewrite lex_cons.
  destruct (lex1 ng c t) as [a|e]; cbn [bind]; [|reflexivity].
  destruct (lex ng 0 (skipn (snd a) t)) as [toks|e]; cbn [bind run].
  - reflexivity.
  - destruct (step names (fst a) st) as [st'|]; reflexivity.
Qed.

(** ** How far the lexer reads *)

Lemma read_digits_le t : forall acc, snd (read_digits acc t) <= length t.
Proof.
  induction t as [|c t IH]; intros acc; cbn [read_digits length]; [reflexivity|].
  destruct (is_digit c); cbn [snd]; [|lia].
  specialize (IH (10 * acc + N.to_nat (c - 48))).
  destruct (read_digits _ t) as [v n]. cbn [snd] in *. lia.
Qed.

Lemma octal_escape_le c t : snd (octal_escape c t) <= S (length t).
Proof.
  unfold octal_escape. destruct t as [|c2 [|c3 t]]; cbn [length snd]; try lia.
  - destruct (is_octal c2); cbn [snd]; lia.
  - destruct (is_octal c2); cbn [snd]; [|lia].
    destruct (_ && _); cbn [snd]; lia.
Qed.

Lemma char_escape_le c t : snd (char_escape c t) <= S (length t).
Proof.
  unfold char_escape.
  repeat (match goal with |- context [if ?x then _ else _] =>
            lazymatch x with
            | N.eqb c _ => destruct x; [cbn [snd]; try lia|]
            | is_octal c => destruct x; [apply octal_escape_le|]
            end
          end).
  - destruct t as [|h1 [|h2 t]]; cbn [snd length]; try lia.
    destruct (hex_val h1), (hex_val h2); cbn [snd]; lia.
  - destruct t as [|h1 [|h2 [|h3 [|h4 t]]]]; cbn [snd length]; try lia.
    destruct (hex_val h1), (hex_val h2), (hex_val h3), (hex_val h4); cbn [snd]; lia.
  - cbn [snd]. lia.
Qed.

Lemma skipn_app_le {A} n (t u : list A) :
  n <= length t -> skipn n (t ++ u) = skipn n t ++ u.
Proof.
  intros H. rewrite skipn_app. replace (n - length t) with 0 by lia. reflexivity.
Qed.

Lemma brace_le t mn mx n : brace t = Some (mn, mx, n) -> n <= length t.
Proof.
  unfold brace. pose proof (read_digits_le t 0) as Hle.
  destruct (read_digits 0 t) as [mn' n1]. cbn [snd] in Hle.
  destruct (Nat.eqb n1 0); [discriminate|].
  destruct (skipn n1 t) as [|c t1] eqn:E; [discriminate|].
  assert (L : length (skipn n1 t) = S (length t1)) by now rewrite E.
  rewrite length_skipn in L.
  destruct (N.eqb c (ch "}")); [intros [= _ _ <-]; lia|].
  destruct (N.eqb c (ch ",")); [|discriminate].
  pose proof (read_digits_le t1 0) as Hle2.
  destruct (read_digits 0 t1) as [mx' n2]. cbn [snd] in Hle2.
  destruct (skipn n2 t1) as [|c2 t2] eqn:E2; [discriminate|].
  assert (L2 : length (skipn n2 t1) = S (length t2)) by now rewrite E2.
  rewrite length_skipn in L2.
  destruct (N.eqb c2 (ch "}")); [intros [= _ _ <-]; lia | discriminate].
Qed.

Lemma id_prefix_le t : length (id_prefix t) <= length t.
Proof.
  induction t as [|c t IH]; cbn [id_prefix length]; [lia|].
  destruct (is_id_part c); cbn [length]; lia.
Qed.

Lemma group_name_le t name : group_name t = NameOk name -> length name < length t.
Proof.
  unfold group_name. destruct t as [|c t']; [discriminate|].
  destruct (is_id_start c); [|destruct (beyond_ascii c); discriminate].
  pose proof (id_prefix_le (c :: t')) as Hle.
  destruct (skipn (length (id_prefix (c :: t'))) (c :: t')) as [|d u] eqn:E; [discriminate|].
  assert (L : length (skipn (length (id_prefix (c :: t'))) (c :: t')) = S (length u))
    by now rewrite E.
  rewrite length_skipn in L.
  destruct (N.eqb d (ch ">")); [|destruct (beyond_ascii d); discriminate].
  intros [= <-]. change (length (id_prefix (c :: t')) < length (c :: t')). lia.
Qed.

Lemma lex_kescape_le t : snd (lex_kescape t) <= S (length t).
Proof.
  unfold lex_kescape. destruct t as [|l t1]; cbn [snd length]; [lia|].
  destruct (N.eqb l (ch "<")); cbn [snd]; [|lia].
  destruct (group_name t1) as [name| |] eqn:E; cbn [snd]; try lia.
  apply group_name_le in E. lia.
Qed.

(** ** What follows a pattern text that ends before a parenthesis

    The lexer looks ahead: for the digits of an escape and of a braced
    quantifier, for the question mark of a lazy quantifier, for the closing
    bracket of a class.  A parenthesis ends all of these. *)

Section Boundary.

Variables (b : char) (s : jsstring).
Hypothesis Hb : b = ch "(" \/ b = ch ")".

Local Ltac paren := destruct Hb as [-> | ->].

Lemma read_digits_app t : forall acc,
  read_digits acc (t ++ b :: s) = read_digits acc t.
Proof.
  induction t as [|c t IH]; intros acc; cbn [app read_digits].
  - paren; reflexivity.
  - destruct (is_digit c); [now rewrite IH | reflexivity].
Qed.

Lemma octal_escape_app c t : octal_escape c (t ++ b :: s) = octal_escape c t.
Proof.
  unfold octal_escape. destruct t as [|c2 [|c3 t]]; cbn [app].
  - paren; reflexivity.
  - destruct (is_octal c2); [|reflexivity]. paren; cbn; now rewrite andb_false_r.
  - reflexivity.
Qed.

Lemma char_escape_app c t : char_escape c (t ++ b :: s) = char_escape c t.
Proof.
  unfold char_escape.
  repeat (match goal with |- context [if ?x then _ else _] =>
            lazymatch x with
            | N.eqb c _ => destruct x; [try reflexivity|]
            | is_octal c => destruct x; [apply octal_escape_app|]
            end
          end).
  - destruct t as [|h1 [|h2 t]]; cbn [app]; try reflexivity.
    + destruct s; paren; reflexivity.
    + paren; cbn; destruct (hex_val h1); reflexivity.
  - destruct t as [|h1 [|h2 [|h3 [|h4 t]]]]; cbn [app]; try reflexivity.
    + destruct s as [|? [|? [|? ?]]]; paren; reflexivity.
    + destruct s as [|? [|? ?]]; paren; cbn; destruct (hex_val h1); reflexivity.
    + destruct s as [|? ?]; paren; cbn; destruct (hex_val h1), (hex_val h2); reflexivity.
    + paren; cbn; destruct (hex_val h1), (hex_val h2), (hex_val h3); reflexivity.
  - reflexivity.
Qed.

Lemma id_prefix_app t : id_prefix (t ++ b :: s) = id_prefix t.
Proof.
  induction t as [|c t IH]; cbn [app id_prefix].
  - paren; reflexivity.
  - now rewrite IH.
Qed.

Lemma group_name_app t : group_name (t ++ b :: s) = group_name t.
Proof.
  unfold group_name. destruct t as [|c t']; cbn [app].
  - paren; reflexivity.
  - destruct (is_id_start c); [|reflexivity].
    change (c :: t' ++ b :: s) with ((c :: t') ++ b :: s). rewrite id_prefix_app.
    rewrite (skipn_app_le _ _ _ (id_prefix_le (c :: t'))).
    destruct (skipn _ (c :: t')); cbn [app]; [paren|]; reflexivity.
Qed.

Lemma lex_kescape_app t : lex_kescape (t ++ b :: s) = lex_kescape t.
Proof.
  unfold lex_kescape. destruct t as [|l t1]; cbn [app].
  - paren; reflexivity.
  - now rewrite group_name_app.
Qed.

End Boundary.

Section Boundary2.

Variables (b : char) (s : jsstring).
Hypothesis Hb : b = ch "(" \/ b = ch ")".

Local Ltac paren := destruct Hb as [-> | ->].

Lemma class_atom1_app c t a :
  class_atom1 c t = Ok a ->
  class_atom1 c (t ++ b :: s) = Ok a /\ snd a <= length t.
Proof.
  unfold class_atom1.
  destruct (N.eqb c (ch "-")); [intros [= <-]; split; [reflexivity | cbn; lia]|].
  destruct (N.eqb c (ch "\")); [|intros [= <-]; split; [reflexivity | cbn; lia]].
  destruct t as [|e t1]; [discriminate|]. cbn [app length].
  destruct (class_escape e); [intros [= <-]; split; [reflexivity | cbn; lia]|].
  destruct (N.eqb e (ch "b")); [intros [= <-]; split; [reflexivity | cbn; lia]|].
  destruct (N.eqb e (ch "k")); [intros [= <-]; split; [reflexivity | cbn; lia]|].
  destruct (N.eqb e (ch "c")).
  - destruct t1 as [|l t1]; cbn [app length].
    + intros [= <-]. split; [paren; reflexivity | cbn; lia].
    + destruct (_ || _); intros [= <-]; split; try reflexivity; cbn; lia.
  - rewrite (char_escape_app b s Hb). pose proof (char_escape_le e t1) as Hle.
    destruct (char_escape e t1) as [code n]. cbn [snd] in Hle.
    intros [= <-]. split; [reflexivity | cbn; lia].
Qed.

Lemma class_atoms_app t : forall skip r,
  class_atoms skip t = Ok r ->
  class_atoms skip (t ++ b :: s) = Ok r /\ snd r <= length t.
Proof.
  induction t as [|c t IH]; intros skip r; cbn [class_atoms app length]; [discriminate|].
  destruct skip as [|n].
  - destruct (N.eqb c (ch "]")); [intros [= <-]; split; [reflexivity | cbn; lia]|].
    destruct (class_atom1 c t) as [a|e] eqn:Ea; cbn [bind]; [|discriminate].
    destruct (class_atom1_app c t a Ea) as [-> _]. cbn [bind].
    destruct (class_atoms (snd a) t) as [r0|e] eqn:Er; cbn [bind]; [|discriminate].
    destruct (IH _ _ Er) as [-> Hle]. cbn [bind]. intros [= <-]. split; [reflexivity|].
    cbn [snd]. lia.
  - destruct (class_atoms n t) as [r0|e] eqn:Er; cbn [bind]; [|discriminate].
    destruct (IH _ _ Er) as [-> Hle]. cbn [bind]. intros [= <-]. split; [reflexivity|].
    cbn [snd]. lia.
Qed.

Lemma scan_class_app t r :
  scan_class t = Ok r ->
  scan_class (t ++ b :: s) = Ok r /\ snd r <= length t.
Proof.
  unfold scan_class. destruct t as [|c t]; cbn [app].
  - cbn [class_atoms bind]. discriminate.
  - destruct (N.eqb c (ch "^")).
    + destruct (class_atoms 0 t) as [r0|e] eqn:Er; cbn [bind]; [|discriminate].
      destruct (class_atoms_app _ _ _ Er) as [-> Hle]. cbn [bind].
      destruct (class_ranges (fst r0)); cbn [bind]; [|discriminate].
      intros [= <-]. split; [reflexivity | cbn [snd length]; lia].
    + destruct (class_atoms 0 (c :: t)) as [r0|e] eqn:Er; cbn [bind]; [|discriminate].
      destruct (class_atoms_app _ _ _ Er) as [E Hle].
      change ((c :: t) ++ b :: s) with (c :: t ++ b :: s) in E. rewrite E. cbn [bind].
      destruct (class_ranges (fst r0)); cbn [bind]; [|discriminate].
      intros [= <-]. split; [reflexivity | cbn [snd length] in *; lia].
Qed.

Lemma class_kescape_app t r :
  scan_class t = Ok r -> class_kescape (t ++ b :: s) = class_kescape t.
Proof.
  unfold scan_class, class_kescape. destruct t as [|c t]; cbn [app].
  - cbn [class_atoms bind]. discriminate.
  - destruct (N.eqb c (ch "^")).
    + destruct (class_atoms 0 t) as [r0|e] eqn:Er; cbn [bind]; [|discriminate].
      destruct (class_atoms_app _ _ _ Er) as [-> _]. reflexivity.
    + destruct (class_atoms 0 (c :: t)) as [r0|e] eqn:Er; cbn [bind]; [|discriminate].
      destruct (class_atoms_app _ _ _ Er) as [E _].
      change ((c :: t) ++ b :: s) with (c :: t ++ b :: s) in E. rewrite E. reflexivity.
Qed.

Lemma brace_app t : brace (t ++ b :: s) = brace t.
Proof.
  unfold brace. rewrite (read_digits_app b s Hb).
  pose proof (read_digits_le t 0) as Hle.
  destruct (read_digits 0 t) as [mn n1]. cbn [snd] in Hle.
  destruct (Nat.eqb n1 0); [reflexivity|].
  rewrite (skipn_app_le _ _ _ Hle).
  destruct (skipn n1 t) as [|c t1]; cbn [app].
  - paren; reflexivity.
  - destruct (N.eqb c (ch "}")); [reflexivity|].
    destruct (N.eqb c (ch ",")); [|reflexivity].
    rewrite (read_digits_app b s Hb).
    pose proof (read_digits_le t1 0) as Hle2.
    destruct (read_digits 0 t1) as [mx n2]. cbn [snd] in Hle2.
    rewrite (skipn_app_le _ _ _ Hle2).
    destruct (skipn n2 t1); cbn [app]; [paren|]; reflexivity.
Qed.

Lemma quant_app mn mx n t :
  n <= length t ->
  quant mn mx n (t ++ b :: s) = quant mn mx n t /\ snd (quant mn mx n t) <= length t.
Proof.
  intros Hle. unfold quant. rewrite (skipn_app_le _ _ _ Hle).
  destruct (skipn n t) as [|c t1] eqn:E; cbn [app].
  - split; [paren; reflexivity | cbn [snd]; lia].
  - assert (L : length (skipn n t) = S (length t1)) by now rewrite E.
    rewrite length_skipn in L.
    split; [reflexivity|]. destruct (N.eqb c (ch "?")); cbn [snd]; lia.
Qed.

Lemma lex_open_app t a :
  lex_open t = Ok a -> lex_open (t ++ b :: s) = Ok a /\ snd a <= length t.
Proof.
  unfold lex_open. destruct t as [|q [|k t]]; cbn [app length].
  - intros [= <-]. split; [paren; reflexivity | cbn; lia].
  - destruct (N.eqb q (ch "?")); [discriminate|]. intros [= <-]. split; [reflexivity|cbn; lia].
  - destruct (N.eqb q (ch "?")); [|intros [= <-]; split; [reflexivity | cbn; lia]].
    destruct (N.eqb k (ch ":")); [intros [= <-]; split; [reflexivity | cbn; lia]|].
    destruct (N.eqb k (ch "=")); [intros [= <-]; split; [reflexivity | cbn; lia]|].
    destruct (N.eqb k (ch "!")); [intros [= <-]; split; [reflexivity | cbn; lia]|].
    destruct (N.eqb k (ch "<")).
    + destruct t as [|l t']; [discriminate|]. cbn [app length].
      destruct (N.eqb l (ch "=")); [intros [= <-]; split; [reflexivity | cbn; lia]|].
      destruct (N.eqb l (ch "!")); [intros [= <-]; split; [reflexivity | cbn; lia]|].
      change (l :: t' ++ b :: s) with ((l :: t') ++ b :: s).
      rewrite (group_name_app b s Hb).
      destruct (group_name (l :: t')) as [name| |] eqn:E; try discriminate.
      apply group_name_le in E. cbn [length] in E.
      intros [= <-]. split; [reflexivity | cbn [snd]; lia].
    + destruct (is_modifier k); discriminate.
Qed.

Lemma lex_escape_app ng t a :
  lex_escape ng t = Ok a -> lex_escape ng (t ++ b :: s) = Ok a /\ snd a <= length t.
Proof.
  unfold lex_escape. destruct t as [|c t1]; [discriminate|]. cbn [app length].
  destruct (class_escape c); [intros [= <-]; split; [reflexivity | cbn; lia]|].
  destruct (N.eqb c (ch "b")); [intros [= <-]; split; [reflexivity | cbn; lia]|].
  destruct (N.eqb c (ch "B")); [intros [= <-]; split; [reflexivity | cbn; lia]|].
  destruct (N.eqb c (ch "c")).
  - destruct t1 as [|l t1]; cbn [app length].
    + intros [= <-]. split; [paren; reflexivity | cbn; lia].
    + destruct (is_ascii_letter l); intros [= <-]; split; try reflexivity; cbn; lia.
  - destruct (N.eqb c (ch "k")).
    { rewrite (lex_kescape_app b s Hb). intros [= <-]. split; [reflexivity|].
      apply lex_kescape_le. }
    change (c :: t1 ++ b :: s) with ((c :: t1) ++ b :: s).
    rewrite (read_digits_app b s Hb), (char_escape_app b s Hb).
    pose proof (read_digits_le (c :: t1) 0) as Hle1.
    pose proof (char_escape_le c t1) as Hle2.
    destruct (read_digits 0 (c :: t1)) as [v n]. destruct (char_escape c t1) as [code n'].
    cbn [snd length] in *.
    destruct (_ && _); intros [= <-]; split; try reflexivity; cbn [snd]; lia.
Qed.

Lemma lex1_app ng c t a :
  lex1 ng c t = Ok a -> lex1 ng c (t ++ b :: s) = Ok a /\ snd a <= length t.
Proof.
  unfold lex1.
  destruct (N.eqb c (ch "\")); [apply lex_escape_app|].
  destruct (N.eqb c (ch "[")).
  { destruct (scan_class t) as [r|e] eqn:E; cbn [bind]; [|discriminate].
    destruct (scan_class_app _ _ E) as [-> Hle]. cbn [bind].
    rewrite (class_kescape_app _ _ E).
    intros [= <-]. split; [reflexivity | exact Hle]. }
  destruct (N.eqb c (ch "(")); [apply lex_open_app|].
  destruct (N.eqb c (ch ")")); [intros [= <-]; split; [reflexivity | cbn; lia]|].
  destruct (N.eqb c (ch "|")); [intros [= <-]; split; [reflexivity | cbn; lia]|].
  destruct (N.eqb c (ch "*")).
  { destruct (quant_app 0 None 0 t (Nat.le_0_l _)) as [-> Hle]. now intros [= <-]. }
  destruct (N.eqb c (ch "+")).
  { destruct (quant_app 1 None 0 t (Nat.le_0_l _)) as [-> Hle]. now intros [= <-]. }
  destruct (N.eqb c (ch "?")).
  { destruct (quant_app 0 (Some 1) 0 t (Nat.le_0_l _)) as [-> Hle]. now intros [= <-]. }
  destruct (N.eqb c (ch "{")).
  { rewrite brace_app. destruct (brace t) as [[[mn mx] n]|] eqn:E.
    - destruct (quant_app mn mx n t (brace_le _ _ _ _ E)) as [-> Hle]. now intros [= <-].
    - intros [= <-]. split; [reflexivity | cbn; lia]. }
  destruct (N.eqb c (ch "^")); [intros [= <-]; split; [reflexivity | cbn; lia]|].
  destruct (N.eqb c (ch "$")); [intros [= <-]; split; [reflexivity | cbn; lia]|].
  destruct (N.eqb c (ch ".")); intros [= <-]; split; try reflexivity; cbn; lia.
Qed.

(** The tokens of a text that a parenthesis follows are those of the text
    alone. *)
Lemma lex_app ng : forall n t toks,
  length t <= n ->
  lex ng 0 t = Ok toks ->
  lex ng 0 (t ++ b :: s) = (r <- lex ng 0 (b :: s) ;; Ok (toks ++ r)).
Proof.
  set (R := lex ng 0 (b :: s)).
  induction n as [|n IH]; intros t toks Hn H.
  - destruct t; [|cbn in Hn; lia]. cbn [lex] in H. inversion H; subst. cbn [app].
    fold R. destruct R; reflexivity.
  - destruct t as [|c t].
    + cbn [lex] in H. inversion H; subst. cbn [app]. fold R. destruct R; reflexivity.
    + cbn [app]. rewrite lex_cons. rewrite lex_cons in H.
      destruct (lex1 ng c t) as [a|e] eqn:Ea; cbn [bind] in *; [|discriminate].
      destruct (lex1_app ng c t a Ea) as [-> Hle]. cbn [bind].
      destruct (lex ng 0 (skipn (snd a) t)) as [toks'|e] eqn:Et; cbn [bind] in H; [|discriminate].
      inversion H; subst. rewrite (skipn_app_le _ _ _ Hle).
      rewrite (IH (skipn (snd a) t) toks'); [| rewrite length_skipn; cbn in Hn; lia | exact Et].
      destruct R; reflexivity.
Qed.

End Boundary2.

(** ** The number of groups does not decide whether a pattern is well formed

    It decides whether a decimal escape is a back-reference or an octal
    escape; both are terms, both end within the digits that follow the
    backslash, and a digit on its own is a term as well. *)

Lemma lex1_groups ng ng' c t :
  N.eqb c (ch "\") = false -> lex1 ng c t = lex1 ng' c t.
Proof. unfold lex1. intros ->. reflexivity. Qed.

Lemma digit_cases c :
  is_digit c = true -> In c (str "0123456789").
Proof.
  unfold is_digit. intros H. apply andb_true_iff in H. destruct H as [H1 H2].
  apply N.leb_le in H1, H2. cbn.
  assert (E : (c = 48 \/ c = 49 \/ c = 50 \/ c = 51 \/ c = 52 \/ c = 53 \/ c = 54 \/ c = 55
               \/ c = 56 \/ c = 57)%N) by lia.
  intuition.
Qed.

Lemma lex1_digit ng c t :
  is_digit c = true -> lex1 ng c t = Ok (TTerm (RChar c), 0).
Proof.
  intros H. apply digit_cases in H. cbn in H.
  repeat (destruct H as [<- | H]; [reflexivity|]). destruct H.
Qed.

Lemma run_text_digits ng names D : forall u fs b sn,
  forallb is_digit D = true ->
  run_text ng names (D ++ u) (PState fs true b sn) = run_text ng names u (PState fs true b sn).
Proof.
  induction D as [|c D IH]; intros u fs b sn H; [reflexivity|].
  cbn [forallb] in H. apply andb_true_iff in H. destruct H as [Hc HD].
  cbn [app]. rewrite run_text_cons, (lex1_digit ng c _ Hc).
  cbn [fst snd step skipn quantifiable frames top_bar seen].
  now apply IH.
Qed.

Lemma read_digits_split t : forall acc,
  exists D rest, t = D ++ rest /\ forallb is_digit D = true
                 /\ snd (read_digits acc t) = length D.
Proof.
  induction t as [|c t IH]; intros acc; cbn [read_digits].
  - exists [], []. auto.
  - destruct (is_digit c) eqn:E.
    + destruct (IH (10 * acc + N.to_nat (c - 48))) as (D & rest & -> & HD & Hn).
      destruct (read_digits _ (D ++ rest)) as [v n]. cbn [snd] in *.
      exists (c :: D), rest. cbn [forallb length app]. rewrite E, HD, Hn. auto.
    + exists [], (c :: t). auto.
Qed.

Lemma octal_is_digit c : is_octal c = true -> is_digit c = true.
Proof.
  unfold is_octal, is_digit. rewrite !andb_true_iff, !N.leb_le. lia.
Qed.

Lemma octal_escape_digits c D rest :
  forallb is_digit D = true ->
  match rest with x :: _ => is_digit x = false | [] => True end ->
  snd (octal_escape c (D ++ rest)) <= S (length D).
Proof.
  intros HD Hr. unfold octal_escape.
  destruct D as [|c2 [|c3 D]]; cbn [app length].
  - destruct rest as [|x rest]; cbn [snd]; [lia|].
    destruct (is_octal x) eqn:E; [|cbn [snd]; lia].
    apply octal_is_digit in E. congruence.
  - destruct (is_octal c2); [|cbn [snd]; lia].
    destruct rest as [|x rest]; cbn [snd]; [lia|].
    destruct (is_octal x) eqn:E.
    + apply octal_is_digit in E. congruence.
    + rewrite andb_false_r. cbn [snd]. lia.
  - destruct (is_octal c2); [|cbn [snd]; lia]. destruct (_ && _); cbn [snd]; lia.
Qed.

Lemma char_escape_digit c t :
  is_digit c = true ->
  char_escape c t = if is_octal c then octal_escape c t else (c, 1).
Proof.
  intros H. apply digit_cases in H. cbn in H.
  repeat (destruct H as [<- | H]; [reflexivity|]). destruct H.
Qed.

Lemma read_digits_stop t : forall acc D rest,
  t = D ++ rest -> forallb is_digit D = true ->
  snd (read_digits acc t) = length D ->
  match rest with x :: _ => is_digit x = false | [] => True end.
Proof.
  intros acc D. revert acc t. induction D as [|c D IH]; intros acc t rest -> HD Hn.
  - cbn [app] in Hn. destruct rest as [|x rest]; [exact I|].
    cbn [read_digits] in Hn. destruct (is_digit x) eqn:E; [|reflexivity].
    destruct (read_digits _ rest). cbn in Hn. discriminate.
  - cbn [forallb] in HD. apply andb_true_iff in HD. destruct HD as [Hc HD].
    cbn [app read_digits] in Hn. rewrite Hc in Hn.
    apply (IH (10 * acc + N.to_nat (c - 48)) (D ++ rest) rest eq_refl HD).
    destruct (read_digits _ (D ++ rest)). cbn [snd length] in *. lia.
Qed.

(** A decimal escape: whatever the number of groups, one term that may take
    a quantifier, made of the backslash and some of the digits after it. *)
Lemma lex_escape_groups ng ng' t :
  lex_escape ng t = lex_escape ng' t
  \/ exists D rest r r' k k',
       t = D ++ rest /\ forallb is_digit D = true
       /\ lex_escape ng t = Ok (TTerm r, k) /\ lex_escape ng' t = Ok (TTerm r', k')
       /\ quantifiable r = true /\ quantifiable r' = true
       /\ k <= length D /\ k' <= length D.
Proof.
  unfold lex_escape. destruct t as [|c t1]; [now left|].
  destruct (class_escape c); [now left|].
  destruct (N.eqb c (ch "b")); [now left|].
  destruct (N.eqb c (ch "B")); [now left|].
  destruct (N.eqb c (ch "c")); [now left|].
  destruct (N.eqb c (ch "k")); [now left|].
  destruct (is_digit c) eqn:Ec; cbn [andb].
  2:{ left. destruct (read_digits 0 (c :: t1)). reflexivity. }
  destruct (read_digits_split (c :: t1) 0) as (D & rest & E & HD & Hn).
  pose proof (read_digits_stop _ 0 D rest E HD Hn) as Hstop.
  destruct D as [|c' D].
  { cbn [read_digits] in Hn. rewrite Ec in Hn. destruct (read_digits _ t1). discriminate. }
  cbn [app] in E. inversion E; subst c' t1. clear E.
  assert (Hce : snd (char_escape c (D ++ rest)) <= length (c :: D)).
  { rewrite (char_escape_digit _ _ Ec). cbn [forallb] in HD.
    apply andb_true_iff in HD. destruct HD as [_ HD]. cbn [length].
    destruct (is_octal c); [now apply octal_escape_digits | cbn [snd]; lia]. }
  right. exists (c :: D), rest.
  destruct (read_digits 0 (c :: D ++ rest)) as [v n]. cbn [snd] in Hn. subst n.
  destruct (char_escape c (D ++ rest)) as [code n']. cbn [snd] in Hce.
  destruct (negb (N.eqb c (ch "0")) && (v <=? ng)), (negb (N.eqb c (ch "0")) && (v <=? ng'));
    do 4 eexists; (split; [reflexivity|]); (split; [exact HD|]);
    (split; [reflexivity|]); (split; [reflexivity|]); cbn [quantifiable]; auto.
Qed.

Lemma run_text_groups ng ng' names : forall n s st,
  length s <= n -> run_text ng names s st = run_text ng' names s st.
Proof.
  induction n as [|n IH]; intros s st Hn.
  - destruct s; [reflexivity | cbn in Hn; lia].
  - destruct s as [|c t]; [reflexivity|]. cbn [length] in Hn.
    rewrite !run_text_cons.
    destruct (N.eqb c (ch "\")) eqn:Ec.
    + unfold lex1. rewrite Ec.
      destruct (lex_escape_groups ng ng' t)
        as [E | (D & rest & r & r' & k & k' & -> & HD & E1 & E2 & Hr & Hr' & Hk & Hk')].
      * rewrite E. destruct (lex_escape ng' t) as [a|e]; [|reflexivity].
        destruct (step names (fst a) st) as [st'|]; [|reflexivity].
        apply IH. rewrite length_skipn. lia.
      * rewrite E1, E2. cbn [fst snd step]. rewrite Hr, Hr'.
        rewrite !skipn_app_le by assumption.
        rewrite !run_text_digits.
        -- apply IH. rewrite length_app in Hn. lia.
        -- clear -HD. rewrite <- (firstn_skipn k' D), forallb_app in HD.
           now apply andb_true_iff in HD.
        -- clear -HD. rewrite <- (firstn_skipn k D), forallb_app in HD.
           now apply andb_true_iff in HD.
    + rewrite (lex1_groups ng ng' c t Ec).
      destruct (lex1 ng' c t) as [a|e]; [|reflexivity].
      destruct (step names (fst a) st) as [st'|]; [|reflexivity].
      apply IH. rewrite length_skipn. lia.
Qed.

(** ** A path pattern that compiles on its own compiles inside the rule *)

Lemma run_text_more ng names t st st' :
  run_text ng names t st = Some st' ->
  exists q, run_text ng names t (allow_quant true st) = Some (allow_quant q st').
Proof.
  unfold run_text. destruct (lex ng 0 t); [apply run_more | discriminate].
Qed.

Lemma run_text_app ng names b s t st st' :
  b = ch "(" \/ b = ch ")" ->
  run_text ng names t st = Some st' ->
  run_text ng names (t ++ b :: s) st = run_text ng names (b :: s) st'.
Proof.
  intros Hb. unfold run_text. destruct (lex ng 0 t) as [toks|e] eqn:E; [|discriminate].
  intros H. rewrite (lex_app b s Hb ng (length t) t toks (le_n _) E).
  destruct (lex ng 0 (b :: s)) as [r|e]; cbn [bind]; [|reflexivity].
  now rewrite run_app, H.
Qed.

(** [new RegExp] succeeds exactly when the abstract run, told the names it
    is going to see, ends outside every group, and no name comes twice. *)
Lemma RegExp_new_run pattern g :
  (exists re, RegExp_new pattern g = Ok re)
  <-> exists st, run_text 0 (seen st) pattern start = Some st
                 /\ frames st = [] /\ has_duplicate (seen st) = false.
Proof.
  unfold RegExp_new. split.
  - intros [re H].
    destruct (lex 0 0 pattern) as [toks0|e]; cbn [bind] in H; [|discriminate].
    destruct (lex (count_groups toks0) 0 pattern) as [toks|e] eqn:E; cbn [bind] in H;
      [|discriminate].
    unfold resolve in H.
    destruct (has_duplicate (group_names toks)) eqn:Hdup; [discriminate|].
    destruct (resolve_all _ toks toks) as [toks'|e] eqn:Er; cbn [bind] in H; [|discriminate].
    pose proof (parse_run toks (group_names toks) _ (fun name => name_index_names name toks 1)
                  eq_refl toks toks' 1 [] [] [] false [] Er) as P.
    destruct (parse toks' 1 [] [] []); cbn [bind] in H; [|discriminate].
    destruct P as [st [P Hf]]. exists st.
    pose proof (run_seen _ _ _ _ P) as Hs. cbn [seen app] in Hs.
    rewrite (run_text_groups 0 (count_groups toks0) _ _ _ _ (le_n _)).
    unfold run_text. rewrite E, Hs. repeat split; assumption.
  - intros (st & H & Hf & Hdup).
    assert (H0 := H). unfold run_text in H0.
    destruct (lex 0 0 pattern) as [toks0|e]; [|discriminate]. cbn [bind].
    rewrite (run_text_groups 0 (count_groups toks0) _ _ _ _ (le_n _)) in H.
    unfold run_text in H.
    destruct (lex (count_groups toks0) 0 pattern) as [toks|e]; [|discriminate]. cbn [bind].
    pose proof (run_seen _ _ _ _ H) as Hs. cbn [seen app start] in Hs.
    unfold resolve. rewrite <- Hs, Hdup.
    destruct (resolve_all _ toks toks) as [toks'|e] eqn:Er; cbn [bind].
    + pose proof (parse_run toks (seen st) _
                    (fun name => eq_ind_r (fun l => existsb (jseqb name) l = _)
                                   (name_index_names name toks 1) Hs)
                    eq_refl toks toks' 1 [] [] [] false [] Er) as P.
      destruct (parse toks' 1 [] [] []); cbn [bind]; [eauto|].
      exfalso. exact (P st H Hf).
    + exfalso.
      pose proof (resolve_throw_run toks (seen st) _
                    (fun name => eq_ind_r (fun l => existsb (jseqb name) l = _)
                                   (name_index_names name toks 1) Hs)
                    eq_refl toks e start Er) as P.
      congruence.
Qed.

Lemma run_wild names d : forall st,
  exists q, run names (flat_map tok1 d) st = Some (allow_quant q st).
Proof.
  induction d as [|c d IH]; intros [fs q b sn]; cbn [flat_map]; [exists q; reflexivity|].
  rewrite run_app. unfold tok1 at 1.
  destruct (N.eqb c (ch "*")); cbn;
    match goal with |- context [run _ _ ?st] => destruct (IH st) as [q' ->] end;
    exists q'; reflexivity.
Qed.

Lemma lex_protocol_group ng x :
  lex ng 0 (str "^(https?:\/\/" ++ x) =
  toks <- lex ng 0 x ;;
  Ok ([TTerm RBol; TOpen GCapture; TTerm (RChar (ch "h")); TTerm (RChar (ch "t"));
       TTerm (RChar (ch "t")); TTerm (RChar (ch "p")); TTerm (RChar (ch "s"));
       TQuant 0 (Some 1) true;
       TTerm (RChar (ch ":")); TTerm (RChar (ch "/")); TTerm (RChar (ch "/"))] ++ toks).
Proof.
  cbn -[lex]. cbn [lex]. cbn -[lex]. destruct (lex ng 0 x); reflexivity.
Qed.

Lemma lex_query ng : lex ng 0 (ch "(" :: str "\?.*)?$") = Ok query_tokens.
Proof. reflexivity. Qed.

(** What the tokens of a path pattern meet inside the expression of
    [matchPattern]: they start after the group of the domain, where a
    quantifier may follow, and the group of the query string follows them. *)
Lemma run_text_full names d path st :
  run_text 0 names path start = Some st -> frames st = [] ->
  exists q,
    run_text 0 names (str "^(https?:\/\/" ++ escapeDomainPattern d ++ str ")"
                        ++ path ++ str "(\?.*)?$") start
    = Some (PState [] q (top_bar st) (seen st)).
Proof.
  intros H Hframes.
  destruct (run_text_more _ _ _ _ _ H) as [q1 H1].
  unfold allow_quant in H1. cbn [start frames top_bar seen] in H1. rewrite Hframes in H1.
  assert (Hd : exists q', run_text 0 names (str "^(https?:\/\/" ++ escapeDomainPattern d) start
                          = Some (PState [false] q' false [])).
  { unfold run_text. rewrite lex_protocol_group, escapeDomainPattern_spec, lex_wild.
    cbn [bind]. rewrite run_app.
    cbn [run step start quantifiable andb bounds_ok Nat.leb frames quant_ok top_bar seen
         orb Nat.eqb is_lookbehind app length].
    apply (run_wild names d (PState [false] true false [])). }
  destruct Hd as [q' Hd].
  replace (str "^(https?:\/\/" ++ escapeDomainPattern d ++ str ")" ++ path ++ str "(\?.*)?$")
    with ((str "^(https?:\/\/" ++ escapeDomainPattern d)
            ++ ch ")" :: (path ++ ch "(" :: str "\?.*)?$"))
    by (now rewrite <- !app_assoc).
  rewrite (run_text_app 0 _ _ _ _ _ _ (or_intror eq_refl) Hd).
  rewrite run_text_cons.
  change (lex1 0 (ch ")") (path ++ ch "(" :: str "\?.*)?$")) with (@Ok (token * nat) (TClose, 0)).
  cbn [fst snd step skipn frames quant_ok top_bar seen negb].
  rewrite (run_text_app 0 _ _ _ _ _ _ (or_introl eq_refl) H1).
  unfold run_text. rewrite lex_query. unfold query_tokens.
  cbn [run step frames quant_ok top_bar seen is_lookbehind quantifiable andb bounds_ok
       Nat.leb negb app length Nat.eqb orb].
  rewrite ?app_nil_r, ?orb_false_r. eauto.
Qed.

(** The expression of [matchPattern] is well formed whenever the path
    pattern is. *)
Lemma full_regex_compiles d path g g' :
  (exists re, RegExp_new path g = Ok re) ->
  exists re, RegExp_new (str "^(https?:\/\/" ++ escapeDomainPattern d ++ str ")"
                           ++ path ++ str "(\?.*)?$") g' = Ok re.
Proof.
  intros H. apply RegExp_new_run in H. destruct H as (st & H & Hf & Hdup).
  apply RegExp_new_run.
  destruct (run_text_full (seen st) d path st H Hf) as [q Hq].
  exists (PState [] q (top_bar st) (seen st)).
  split; [exact Hq | split; [reflexivity | exact Hdup]].
Qed.

(** ** What is left to go wrong in a rule whose path pattern was validated *)

Lemma capture_step_ok mt output i :
  In i (seq 1 9) -> exists r, capture_step mt output i = Ok r.
Proof.
  intros Hi. unfold capture_step.
  destruct (decodeUrlString_ok (match nth (i + 1) mt None with Some v => v | None => [] end))
    as [v ->]. cbn [bind].
  cbn in Hi.
  repeat (destruct Hi as [<- | Hi]; [vm_compute RegExp_new; cbn [bind]; eauto|]).
  destruct Hi.
Qed.

Lemma capture_loop_ok mt : forall count i output,
  (forall j, i <= j < i + count -> In j (seq 1 9)) ->
  exists r, capture_loop mt output i count = Ok r.
Proof.
  induction count as [|count IH]; intros i output H; cbn [capture_loop]; [eauto|].
  destruct (capture_step_ok mt output i) as [r ->]; [apply H; lia|]. cbn [bind].
  apply IH. intros j Hj. apply H. lia.
Qed.

Lemma validated_path path message :
  validateRegexPattern message path = Ok None ->
  path <> [] /\ exists re, RegExp_new path false = Ok re.
Proof.
  unfold validateRegexPattern. destruct path as [|c t]; [discriminate|]. cbn [falsy orb].
  destruct (falsy _); [discriminate|].
  destruct (RegExp_new (c :: t) false) as [re|e]; cbn [bind try_catch].
  - intros _. split; [discriminate|eauto].
  - destruct e; discriminate.
Qed.

Lemma matchPattern_throw_cases url p e :
  matchPattern url p = Throw e ->
  RegExp_new (fullRegex_source p) false = Throw e \/ e = TypeError.
Proof.
  unfold matchPattern, fullRegex_source.
  destruct (negb (enabled p)); [discriminate|].
  destruct (falsy _ || falsy _); [discriminate|].
  rewrite domainRegex_new. cbn [bind].
  destruct (negb (RegExp_test _ url)); [discriminate|].
  destruct (RegExp_new _ false) as [re|e']; cbn [bind]; [|intros [= ->]; now left].
  destruct (String_match url re) as [mt|]; [|discriminate].
  destruct (nth 1 mt None) as [m1|]; cbn [bind]; [|intros [= <-]; now right].
  destruct (capture_loop_ok mt 9 1
              (String_replace (String_replace (outputTemplate p) re_url url) re_domain
                 (String_replace m1 re_protocol []))) as [r ->].
  - intros j Hj. apply in_seq. lia.
  - discriminate.
Qed.

Lemma try_patterns_throw s ps e :
  try_patterns s ps = Throw e -> exists p, In p ps /\ matchPattern s p = Throw e.
Proof.
  induction ps as [|q ps IH]; cbn [try_patterns]; [discriminate|].
  destruct (matchPattern s q) as [[v|]|e'] eqn:E; cbn [bind]; try discriminate.
  - intros H. destruct (IH H) as (p & Hp & Hm). exists p. split; [now right | exact Hm].
  - intros [= ->]. exists q. split; [now left | exact E].
Qed.

Lemma formatLink_throw s ps e :
  formatLink s ps = Throw e -> exists p, In p ps /\ matchPattern s p = Throw e.
Proof.
  unfold formatLink. destruct (falsy _); [discriminate|].
  destruct (RegExp_test _ _); [discriminate|]. apply try_patterns_throw.
Qed.

(** X11: a path pattern that [validateRegexPattern] accepts, named
    groups, references by name and lookbehind included, can be put into the
    expression of [matchPattern]: the construction succeeds for every domain
    pattern, and the only exception left in [matchPattern] is the TypeError
    of a match that leaves the group of the domain out. *)
Theorem validated_path_compiles_in_rule message p :
  validateRegexPattern message (pathPattern p) = Ok None ->
  (exists re, RegExp_new (fullRegex_source p) false = Ok re)
  /\ forall url e, matchPattern url p = Throw e -> e = TypeError.
Proof.
  intros H. apply validated_path in H. destruct H as [_ H].
  pose proof (full_regex_compiles (domainPattern p) _ false false H) as [re Hre].
  fold (fullRegex_source p) in Hre.
  split; [eauto|]. intros url e He.
  destruct (matchPattern_throw_cases _ _ _ He) as [E|E]; [congruence | exact E].
Qed.

Lemma validated_path_compiles_in_rule_witness :
  (exists re, RegExp_new (fullRegex_source named_rule) false = Ok re)
  /\ forall url e, matchPattern url named_rule = Throw e -> e = TypeError.
Proof.
  apply (validated_path_compiles_in_rule (fun _ => str "Invalid regular expression") named_rule).
  vm_compute. reflexivity.
Defined.

Lemma truthy_message message path v :
  (forall e, message e <> []) ->
  validateRegexPattern message path = Ok v -> truthy v = false -> v = None.
Proof.
  intros Hm. unfold validateRegexPattern.
  destruct (falsy path || falsy (String_trim path)); [intros [= <-]; discriminate|].
  destruct (RegExp_new path false) as [re|e]; cbn [bind try_catch]; [now intros [= <-]|].
  specialize (Hm e).
  destruct e; try discriminate; intros [= <-]; cbn [truthy];
    destruct (message _); congruence.
Qed.

(** X12: when every rule of the list passes the checks of the Save button
    of the dialog, path patterns with named groups, references by name and
    lookbehind among them, [formatLink] throws nothing but a TypeError, the
    messages of the engine being non-empty texts. *)
Theorem saved_rules_throw_no_syntax_error message patterns :
  (forall e, message e <> []) ->
  (forall p, In p patterns -> savePattern message p = Saved p) ->
  forall s e, formatLink s patterns = Throw e -> e = TypeError.
Proof.
  intros Hm Hs s e He. apply formatLink_throw in He. destruct He as (p & Hp & He).
  destruct (matchPattern_throw_cases _ _ _ He) as [E|E]; [|exact E].
  assert (Hv : validateRegexPattern message (pathPattern p) = Ok None).
  { specialize (Hs p Hp). unfold savePattern in Hs.
    destruct (falsy (String_trim (name p))); [discriminate|].
    destruct (falsy (String_trim (domainPattern p))); [discriminate|].
    destruct (validateRegexPattern message (pathPattern p)) as [v|e'] eqn:Ev; [|discriminate].
    destruct (truthy v) eqn:Er; [discriminate|].
    now rewrite (truthy_message _ _ _ Hm Ev Er). }
  apply validated_path in Hv. destruct Hv as [_ Hv].
  destruct (full_regex_compiles (domainPattern p) _ false false Hv) as [re Hre].
  fold (fullRegex_source p) in Hre. congruence.
Qed.

Lemma saved_rules_throw_no_syntax_error_witness :
  formatLink page_url [rule "example.com" "\/a|.*" "${url}"; named_rule; lookbehind_rule]
  = Throw TypeError
  /\ forall s e,
       formatLink s [rule "example.com" "\/a|.*" "${url}"; named_rule; lookbehind_rule]
       = Throw e -> e = TypeError.
Proof.
  split; [vm_compute; reflexivity|].
  apply (saved_rules_throw_no_syntax_error (fun _ => str "Invalid regular expression")
           [rule "example.com" "\/a|.*" "${url}"; named_rule; lookbehind_rule]).
  - intros e. discriminate.
  - intros p [<- | [<- | [<- | []]]]; vm_compute; reflexivity.
Defined.

(** ** The group of the domain takes part in every match *)

Lemma keeps_refl ids x : keeps ids x x.
Proof. split; auto. Qed.

Lemma keeps_trans ids1 ids2 x y z :
  keeps ids1 x y -> keeps ids2 y z -> keeps (ids1 ++ ids2) x z.
Proof.
  intros [L1 H1] [L2 H2]. split; [congruence|].
  intros i Hi. rewrite H2, H1; auto; intros Hin; apply Hi, in_or_app; auto.
Qed.

Lemma keeps_weaken ids ids' x y :
  (forall i, In i ids -> In i ids') -> keeps ids x y -> keeps ids' x y.
Proof. intros Hsub [L H]. split; [exact L|]. intros i Hi. apply H. auto. Qed.

Lemma nth_set_nth_other {A} (d : A) n n' v l :
  n <> n' -> nth n' (set_nth n v l) d = nth n' l d.
Proof.
  revert n n'. induction l as [|a l IH]; intros [|n] [|n'] H; cbn; auto; try congruence.
Qed.

Lemma set_cap_length i v cs : length (set_cap i v cs) = length cs.
Proof. destruct i; cbn [set_cap]; [reflexivity | apply set_nth_length]. Qed.

Lemma get_set_cap_other i j v cs : i <> j -> get_cap i (set_cap j v cs) = get_cap i cs.
Proof.
  intros H. destruct i as [|i]; [reflexivity|]. destruct j as [|j]; [reflexivity|].
  cbn [get_cap set_cap]. apply nth_set_nth_other. congruence.
Qed.

Lemma keeps_set_cap j v x :
  keeps [j] x (MState (pos x) (rest x) (set_cap j v (caps x))).
Proof.
  split; cbn [caps]; [apply set_cap_length|].
  intros i Hi. apply get_set_cap_other. intros ->. apply Hi. now left.
Qed.

Lemma keeps_clear_caps ids x : keeps ids x (clear_caps ids x).
Proof.
  unfold clear_caps, keeps. cbn [caps]. generalize (caps x) as cs.
  induction ids as [|j ids IH]; intros cs; cbn [fold_left]; [auto|].
  destruct (IH (set_cap j None cs)) as [L H]. split.
  - now rewrite L, set_cap_length.
  - intros i Hi. rewrite H by (intros Hin; apply Hi; now right).
    apply get_set_cap_other. intros ->. apply Hi. now left.
Qed.

Lemma repeat_matcher_keeps mr ids greedy k z :
  (forall x d, mr x d = Some z -> exists y, d y = Some z /\ keeps ids x y) ->
  forall fuel mn mx x,
  repeat_matcher mr ids greedy k fuel mn mx x = Some z ->
  exists y, k y = Some z /\ keeps ids x y.
Proof.
  intros Hmr. induction fuel as [|fuel IH]; intros mn mx x H; [discriminate|].
  cbn [repeat_matcher] in H.
  assert (Hk : k x = Some z -> exists y, k y = Some z /\ keeps ids x y).
  { intros E. exists x. split; [exact E | apply keeps_refl]. }
  assert (Hd : mr (clear_caps ids x)
                 (fun y => if Nat.eqb mn 0 && Nat.eqb (pos y) (pos x) then None
                           else repeat_matcher mr ids greedy k fuel (Nat.pred mn)
                                  (option_map Nat.pred mx) y) = Some z ->
               exists y, k y = Some z /\ keeps ids x y).
  { intros E. apply Hmr in E. destruct E as (y & E & Hy).
    destruct (_ && _); [discriminate|]. apply IH in E. destruct E as (y' & E & Hy').
    exists y'. split; [exact E|].
    apply (keeps_weaken ((ids ++ ids) ++ ids)).
    - intros i Hi. repeat (apply in_app_or in Hi; destruct Hi as [Hi|Hi]); auto.
    - eapply keeps_trans; [eapply keeps_trans; [apply keeps_clear_caps | exact Hy] | exact Hy']. }
  destruct mx as [[|b]|].
  - auto.
  - destruct mn; [|auto]. destruct greedy.
    + destruct (mr _ _) as [z'|] eqn:E; [inversion H; subst; auto | auto].
    + destruct (k x) as [z'|] eqn:E; [inversion H; subst; auto | auto].
  - destruct mn; [|auto]. destruct greedy.
    + destruct (mr _ _) as [z'|] eqn:E; [inversion H; subst; auto | auto].
    + destruct (k x) as [z'|] eqn:E; [inversion H; subst; auto | auto].
Qed.

Lemma keeps_same x y : caps y = caps x -> forall ids, keeps ids x y.
Proof. intros E ids. unfold keeps. rewrite E. auto. Qed.

Lemma back_keeps input x a y : back input x = Some (a, y) -> caps y = caps x.
Proof.
  unfold back. destruct (pos x); [discriminate|].
  destruct (nth_error input n); [|discriminate]. now intros [= _ <-].
Qed.

(** A match of a term, forward or backward, goes on with the continuation,
    on a state that has the captures of all groups outside the term. *)
Lemma m_mb_keeps input r :
  (forall x k z, m input r x k = Some z ->
                 exists y, k y = Some z /\ keeps (groups_of r) x y)
  /\ (forall x k z, mb input r x k = Some z ->
                    exists y, k y = Some z /\ keeps (groups_of r) x y).
Proof.
  induction r as [|c| |neg items|r1 [IH1 IB1] r2 [IH2 IB2]|r1 [IH1 IB1] r2 [IH2 IB2]
                 |j r1 [IH1 IB1]|mn mx g r1 [IH1 IB1]| | |neg
                 |neg r1 [IH1 IB1]|n|neg r1 [IH1 IB1]];
    (split; intros x k z H; cbn [m mb groups_of] in *).
  - exists x. split; [exact H | now apply keeps_same].
  - exists x. split; [exact H | now apply keeps_same].
  - destruct (rest x) as [|a t]; [discriminate|]. destruct (N.eqb a c); [|discriminate].
    eexists. split; [exact H | now apply keeps_same].
  - destruct (back input x) as [[a y]|] eqn:E; [|discriminate].
    destruct (N.eqb a c); [|discriminate].
    exists y. split; [exact H | apply keeps_same, (back_keeps _ _ _ _ E)].
  - destruct (rest x) as [|a t]; [discriminate|].
    destruct (is_line_terminator a); [discriminate|].
    eexists. split; [exact H | now apply keeps_same].
  - destruct (back input x) as [[a y]|] eqn:E; [|discriminate].
    destruct (is_line_terminator a); [discriminate|].
    exists y. split; [exact H | apply keeps_same, (back_keeps _ _ _ _ E)].
  - destruct (rest x) as [|a t]; [discriminate|].
    destruct (class_mem neg items a); [|discriminate].
    eexists. split; [exact H | now apply keeps_same].
  - destruct (back input x) as [[a y]|] eqn:E; [|discriminate].
    destruct (class_mem neg items a); [|discriminate].
    exists y. split; [exact H | apply keeps_same, (back_keeps _ _ _ _ E)].
  - apply IH1 in H. destruct H as (y1 & H & K1). apply IH2 in H. destruct H as (y2 & H & K2).
    exists y2. split; [exact H | eapply keeps_trans; eauto].
  - apply IB2 in H. destruct H as (y1 & H & K1). apply IB1 in H. destruct H as (y2 & H & K2).
    exists y2. split; [exact H|].
    apply (keeps_weaken (groups_of r2 ++ groups_of r1)); [|eapply keeps_trans; eauto].
    intros i Hi. apply in_or_app. apply in_app_or in Hi. tauto.
  - destruct (m input r1 x k) as [z'|] eqn:E.
    + inversion H; subst z'. apply IH1 in E. destruct E as (y & E & K).
      exists y. split; [exact E|]. eapply keeps_weaken; [|exact K].
      intros i Hi. apply in_or_app. auto.
    + apply IH2 in H. destruct H as (y & E' & K).
      exists y. split; [exact E'|]. eapply keeps_weaken; [|exact K].
      intros i Hi. apply in_or_app. auto.
  - destruct (mb input r1 x k) as [z'|] eqn:E.
    + inversion H; subst z'. apply IB1 in E. destruct E as (y & E & K).
      exists y. split; [exact E|]. eapply keeps_weaken; [|exact K].
      intros i Hi. apply in_or_app. auto.
    + apply IB2 in H. destruct H as (y & E' & K).
      exists y. split; [exact E'|]. eapply keeps_weaken; [|exact K].
      intros i Hi. apply in_or_app. auto.
  - apply IH1 in H. destruct H as (y & H & K). eexists. split; [exact H|].
    apply (keeps_weaken (groups_of r1 ++ [j])).
    + intros i Hi. apply in_app_or in Hi. destruct Hi as [Hi|[->|[]]]; cbn; auto.
    + eapply keeps_trans; [exact K | apply keeps_set_cap].
  - apply IB1 in H. destruct H as (y & H & K). eexists. split; [exact H|].
    apply (keeps_weaken (groups_of r1 ++ [j])).
    + intros i Hi. apply in_app_or in Hi. destruct Hi as [Hi|[->|[]]]; cbn; auto.
    + eapply keeps_trans; [exact K | apply keeps_set_cap].
  - eapply repeat_matcher_keeps; [|exact H]. intros x' d. apply IH1.
  - eapply repeat_matcher_keeps; [|exact H]. intros x' d. apply IB1.
  - destruct (Nat.eqb (pos x) 0); [|discriminate].
    exists x. split; [exact H | now apply keeps_same].
  - destruct (Nat.eqb (pos x) 0); [|discriminate].
    exists x. split; [exact H | now apply keeps_same].
  - destruct (rest x); [|discriminate]. exists x. split; [exact H | now apply keeps_same].
  - destruct (rest x); [|discriminate]. exists x. split; [exact H | now apply keeps_same].
  - destruct (xorb _ _); [|discriminate]. exists x. split; [exact H | now apply keeps_same].
  - destruct (xorb _ _); [|discriminate]. exists x. split; [exact H | now apply keeps_same].
  - destruct (m input r1 x (fun y => Some y)) as [y|] eqn:E.
    + destruct neg; [discriminate|]. apply IH1 in E. destruct E as (y' & [= ->] & K).
      eexists. split; [exact H|]. destruct K as [L K]. split; [exact L | exact K].
    + destruct neg; [|discriminate]. exists x. split; [exact H | now apply keeps_same].
  - destruct (m input r1 x (fun y => Some y)) as [y|] eqn:E.
    + destruct neg; [discriminate|]. apply IH1 in E. destruct E as (y' & [= ->] & K).
      eexists. split; [exact H|]. destruct K as [L K]. split; [exact L | exact K].
    + destruct neg; [|discriminate]. exists x. split; [exact H | now apply keeps_same].
  - destruct (get_cap n (caps x)) as [[s e]|].
    + destruct (jseqb _ _); [|discriminate]. eexists. split; [exact H | now apply keeps_same].
    + exists x. split; [exact H | now apply keeps_same].
  - destruct (get_cap n (caps x)) as [[s e]|].
    + destruct (_ && _); [|discriminate]. eexists. split; [exact H | now apply keeps_same].
    + exists x. split; [exact H | now apply keeps_same].
  - destruct (mb input r1 x (fun y => Some y)) as [y|] eqn:E.
    + destruct neg; [discriminate|]. apply IB1 in E. destruct E as (y' & [= ->] & K).
      eexists. split; [exact H|]. destruct K as [L K]. split; [exact L | exact K].
    + destruct neg; [|discriminate]. exists x. split; [exact H | now apply keeps_same].
  - destruct (mb input r1 x (fun y => Some y)) as [y|] eqn:E.
    + destruct neg; [discriminate|]. apply IB1 in E. destruct E as (y' & [= ->] & K).
      eexists. split; [exact H|]. destruct K as [L K]. split; [exact L | exact K].
    + destruct neg; [|discriminate]. exists x. split; [exact H | now apply keeps_same].
Qed.

Lemma m_keeps input r x k z :
  m input r x k = Some z -> exists y, k y = Some z /\ keeps (groups_of r) x y.
Proof. apply m_mb_keeps. Qed.

Lemma wrapper_first_defined re s mt :
  wrapper_first re = true -> RegExp_exec re s = Some mt -> nth 1 mt None <> None.
Proof.
  unfold wrapper_first, RegExp_exec. intros Hw.
  apply andb_true_iff in Hw. destruct Hw as [Hng Hw]. apply Nat.leb_le in Hng.
  destruct (search_from s (re_ast re) (re_ngroups re) 0 s) as [[i y]|] eqn:E; [|discriminate].
  intros [= <-].
  destruct (re_ast re) as [| | | |r0 r| | | | | | | | |]; try discriminate.
  destruct r0; try discriminate.
  destruct r as [| | | |r1 r2| | | | | | | | |]; try discriminate.
  destruct r1 as [| | | | | |j D| | | | | | |]; try discriminate.
  destruct j as [|[|j]]; try discriminate.
  apply negb_true_iff in Hw.
  assert (Hnot : ~ In 1 (groups_of r2)).
  { intros Hin. assert (existsb (Nat.eqb 1) (groups_of r2) = true); [|congruence].
    apply existsb_exists. exists 1. auto. }
  apply search_from_sound in E.
  assert (H : exists suf, match_at s (RSeq RBol (RSeq (RGroup 1 D) r2)) (re_ngroups re) i suf
                          = Some y).
  { destruct E as [[-> E] | [_ [suf E]]]; eauto. }
  destruct H as [suf H]. unfold match_at in H. cbn [m] in H.
  destruct (Nat.eqb _ 0); [|discriminate].
  apply m_keeps in H. destruct H as (y1 & H & [L1 K1]). cbn [caps] in L1.
  apply m_keeps in H. destruct H as (y2 & [= ->] & [L2 K2]). cbn [caps] in *.
  specialize (K2 1 Hnot). cbn [get_cap] in K2.
  unfold match_array. cbn [nth].
  rewrite repeat_length in L1.
  destruct (caps y1) as [|c1 cs1]; [cbn in L1; lia|].
  cbn [set_cap set_nth nth] in K2.
  destruct (caps y) as [|c cs]; [discriminate|]. cbn [nth] in K2. subst c.
  cbn [map nth]. discriminate.
Qed.

(** A rule whose expression has this form never throws. *)
Lemma wrapper_first_total p re :
  RegExp_new (fullRegex_source p) false = Ok re ->
  wrapper_first re = true ->
  forall url, exists v, matchPattern url p = Ok v.
Proof.
  intros Hre Hw url. unfold matchPattern. unfold fullRegex_source in Hre.
  destruct (negb (enabled p)); [eauto|].
  destruct (falsy _ || falsy _); [eauto|].
  rewrite domainRegex_new. cbn [bind].
  destruct (negb (RegExp_test _ url)); [eauto|].
  rewrite Hre. cbn [bind]. unfold String_match.
  destruct (RegExp_exec re url) as [mt|] eqn:E; [|eauto].
  pose proof (wrapper_first_defined re url mt Hw E) as Hm.
  destruct (nth 1 mt None) as [m1|]; [|congruence]. cbn [bind].
  destruct (capture_loop_ok mt 9 1
              (String_replace (String_replace (outputTemplate p) re_url url) re_domain
                 (String_replace m1 re_protocol []))) as [r ->].
  - intros j Hj. apply in_seq. lia.
  - cbn [bind]. eauto.
Qed.

(** ** The form of the expression of a rule *)

Lemma name_terms_plain name : Forall (fun r => groups_of r = []) (map name_term name).
Proof.
  induction name as [|c name IH]; cbn [map]; constructor; [|exact IH].
  unfold name_term. destruct (N.eqb c _); reflexivity.
Qed.

Lemma lex_kescape_plain t : tok_plain (fst (lex_kescape t)).
Proof.
  unfold lex_kescape. destruct t as [|l t1]; [repeat constructor|].
  destruct (N.eqb l _); [|repeat constructor].
  destruct (group_name t1); cbn [fst tok_plain]; try (repeat constructor).
  apply Forall_app. split; [apply name_terms_plain | repeat constructor].
Qed.

Lemma lex_escape_plain ng t a : lex_escape ng t = Ok a -> tok_plain (fst a).
Proof.
  unfold lex_escape. destruct t as [|c t1]; [discriminate|].
  destruct (class_escape c); [intros [= <-]; reflexivity|].
  destruct (N.eqb c (ch "b")); [intros [= <-]; reflexivity|].
  destruct (N.eqb c (ch "B")); [intros [= <-]; reflexivity|].
  destruct (N.eqb c (ch "c")).
  - destruct t1 as [|l t1]; [intros [= <-]; reflexivity|].
    destruct (is_ascii_letter l); intros [= <-]; reflexivity.
  - destruct (N.eqb c (ch "k")); [intros [= <-]; apply lex_kescape_plain|].
    destruct (read_digits 0 (c :: t1)). destruct (char_escape c t1).
    destruct (_ && _); intros [= <-]; reflexivity.
Qed.

Lemma quant_plain mn mx n t : tok_plain (fst (quant mn mx n t)).
Proof.
  unfold quant. destruct (skipn n t) as [|c ?]; [exact I|]. destruct (N.eqb c _); exact I.
Qed.

Lemma lex1_plain ng c t a : lex1 ng c t = Ok a -> tok_plain (fst a).
Proof.
  unfold lex1.
  destruct (N.eqb c (ch "\")); [apply lex_escape_plain|].
  destruct (N.eqb c (ch "[")).
  { unfold scan_class.
    destruct (match t with
              | [] => (false, t, 0)
              | c0 :: t' => if N.eqb c0 (ch "^") then (true, t', 1) else (false, t, 0)
              end) as [[neg t0] n0].
    destruct (class_atoms 0 t0); cbn [bind]; [|discriminate].
    destruct (class_ranges _); cbn [bind]; [|discriminate]. intros [= <-].
    destruct (class_kescape t); cbn [fst tok_plain]; [repeat constructor | reflexivity]. }
  destruct (N.eqb c (ch "(")).
  { unfold lex_open. destruct t as [|q [|k t]].
    - intros [= <-]. exact I.
    - destruct (N.eqb q _); [discriminate | intros [= <-]; exact I].
    - destruct (N.eqb q _); [|intros [= <-]; exact I].
      destruct (N.eqb k _); [intros [= <-]; exact I|].
      destruct (N.eqb k _); [intros [= <-]; exact I|].
      destruct (N.eqb k _); [intros [= <-]; exact I|].
      destruct (N.eqb k _); [|destruct (is_modifier k); discriminate].
      destruct t as [|l t']; [discriminate|].
      destruct (N.eqb l _); [intros [= <-]; exact I|].
      destruct (N.eqb l _); [intros [= <-]; exact I|].
      destruct (group_name (l :: t')); try discriminate. intros [= <-]. exact I. }
  destruct (N.eqb c (ch ")")); [intros [= <-]; exact I|].
  destruct (N.eqb c (ch "|")); [intros [= <-]; exact I|].
  destruct (N.eqb c (ch "*")); [intros [= <-]; apply quant_plain|].
  destruct (N.eqb c (ch "+")); [intros [= <-]; apply quant_plain|].
  destruct (N.eqb c (ch "?")); [intros [= <-]; apply quant_plain|].
  destruct (N.eqb c (ch "{")).
  { destruct (brace t) as [[[mn mx] n]|]; intros [= <-]; [apply quant_plain | reflexivity]. }
  destruct (N.eqb c (ch "^")); [intros [= <-]; reflexivity|].
  destruct (N.eqb c (ch "$")); [intros [= <-]; reflexivity|].
  destruct (N.eqb c (ch ".")); intros [= <-]; reflexivity.
Qed.

Lemma lex_plain_terms ng : forall s skip toks,
  lex ng skip s = Ok toks -> Forall tok_plain toks.
Proof.
  induction s as [|c t IH]; intros skip toks H; cbn [lex] in H.
  - inversion H. constructor.
  - destruct skip as [|n]; [|exact (IH _ _ H)].
    destruct (lex1 ng c t) as [a|e] eqn:Ea; cbn [bind] in H; [|discriminate].
    destruct (lex ng (snd a) t) as [toks'|e] eqn:Et; cbn [bind] in H; [|discriminate].
    inversion H; subst. constructor; [exact (lex1_plain _ _ _ _ Ea) | exact (IH _ _ Et)].
Qed.

Lemma groups_of_seq_of l : groups_of (seq_of l) = flat_map groups_of l.
Proof.
  induction l as [|a l IH]; [reflexivity|]. cbn [seq_of fold_right groups_of flat_map].
  fold (seq_of l). now rewrite IH.
Qed.

Lemma above_seq_of lo l : Forall (above lo) l -> above lo (seq_of l).
Proof.
  intros H. unfold above. rewrite groups_of_seq_of. apply Forall_flat_map.
  exact H.
Qed.

Lemma above_alt_of lo l : Forall (above lo) l -> above lo (alt_of l).
Proof.
  induction l as [|a l IH]; intros H; [constructor|].
  inversion H as [|? ? Ha Hl]; subst. destruct l as [|b l]; [exact Ha|].
  change (alt_of (a :: b :: l)) with (RAlt a (alt_of (b :: l))).
  unfold above in *. cbn [groups_of]. apply Forall_app. auto.
Qed.

Lemma above_close_frame lo alts cur :
  Forall (above lo) alts -> Forall (above lo) cur -> above lo (close_frame alts cur).
Proof.
  intros Ha Hc. unfold close_frame. apply above_alt_of. apply Forall_rev.
  constructor; [|exact Ha]. apply above_seq_of. now apply Forall_rev.
Qed.

Lemma above_wrap lo k r : kind_above lo k -> above lo r -> above lo (wrap k r).
Proof.
  destruct k; cbn [kind_above wrap]; intros Hk Hr; auto.
  unfold above. cbn [groups_of]. constructor; auto.
Qed.

Lemma frames_ok_cons lo base q q' alts cur stack a :
  frames_ok lo base q alts cur stack -> above lo a ->
  frames_ok lo base q' alts (a :: cur) stack.
Proof.
  destruct stack as [|[[k alts0] cur0] stack']; cbn [frames_ok].
  - intros (-> & new & -> & Hn & _) Ha. split; [reflexivity|].
    exists (a :: new). repeat split; auto. discriminate.
  - intros (H1 & H2 & H3 & H4) Ha. auto.
Qed.

Lemma frames_ok_quant lo base alts a cur stack mn mx g :
  frames_ok lo base true alts (a :: cur) stack ->
  frames_ok lo base false alts (RQuant mn mx g a :: cur) stack.
Proof.
  destruct stack as [|[[k alts0] cur0] stack']; cbn [frames_ok].
  - intros (-> & new & E & Hn & Hq). split; [reflexivity|].
    destruct new as [|a' new]; [exfalso; now apply Hq|].
    cbn [app] in E. inversion E; subst. inversion Hn; subst.
    exists (RQuant mn mx g a' :: new). repeat split; auto. discriminate.
  - intros (H1 & H2 & H3 & H4). inversion H2; subst. auto.
Qed.

Lemma frames_ok_weaken lo base q alts cur stack :
  frames_ok lo base q alts cur stack -> frames_ok lo base false alts cur stack.
Proof.
  destruct stack as [|[[k alts0] cur0] stack']; cbn [frames_ok]; [|auto].
  intros (-> & new & -> & Hn & _). split; [reflexivity|]. exists new. repeat split; auto.
  discriminate.
Qed.

Lemma above_weaken lo lo' r : lo <= lo' -> above lo' r -> above lo r.
Proof.
  unfold above. intros H. apply Forall_impl. intros i Hi. lia.
Qed.

Lemma frames_ok_terms lo base alts stack l : forall q cur,
  frames_ok lo base q alts cur stack -> Forall (fun r => groups_of r = []) l ->
  frames_ok lo base (last_quantifiable l q) alts (rev l ++ cur) stack.
Proof.
  unfold last_quantifiable. induction l as [|a l IH]; intros q cur Hf Hl; [exact Hf|].
  inversion Hl as [|? ? Ha Hl']; subst. cbn [rev fold_left]. rewrite <- app_assoc. cbn [app].
  apply IH; [|exact Hl']. apply (frames_ok_cons _ _ q); [exact Hf|].
  unfold above. rewrite Ha. constructor.
Qed.

Lemma resolve_all_app named all a : forall b,
  resolve_all named all (a ++ b)
  = (x <- resolve_all named all a ;; y <- resolve_all named all b ;; Ok (x ++ y)).
Proof.
  induction a as [|tok a IH]; intros b; cbn [app resolve_all bind].
  - destruct (resolve_all named all b); reflexivity.
  - destruct (resolve1 named all tok) as [u|e]; cbn [bind]; [|reflexivity].
    rewrite IH. destruct (resolve_all named all a) as [x|e]; cbn [bind]; [|reflexivity].
    destruct (resolve_all named all b) as [y|e]; cbn [bind]; [|reflexivity].
    now rewrite app_assoc.
Qed.

Section Shape.

Variables (all : list token) (names : list jsstring) (named : bool).
Hypothesis Hnamed : named = negb (Nat.eqb (length names) 0).

(** Without a bar outside the groups the parser returns one sequence,
    which starts with the terms it was started on. *)
Lemma parse_shape lo base : forall toks toks' next alts cur stack st st' r,
  Forall tok_plain toks -> lo <= next ->
  frames_ok lo base (quant_ok st) alts cur stack ->
  frames st = frames_of stack ->
  run names toks st = Some st' -> bar_outside toks (length stack) = false ->
  resolve_all named all toks = Ok toks' ->
  parse toks' next alts cur stack = Ok r ->
  exists new, r = seq_of (rev base ++ new) /\ Forall (above lo) new.
Proof.
  induction toks as [|tok toks IH];
    intros toks' next alts cur stack st st' r Hp Hlo Hf Hd Hr Hb Hres H.
  - cbn [resolve_all] in Hres. injection Hres as <-.
    cbn [parse] in H. destruct stack; [|discriminate]. inversion H; subst r.
    cbn [frames_ok] in Hf. destruct Hf as (-> & new & -> & Hn & _).
    exists (rev new). split; [|now apply Forall_rev].
    unfold close_frame. cbn [rev app alt_of]. now rewrite rev_app_distr.
  - apply Forall_cons_iff in Hp. destruct Hp as [Ht Hp'].
    cbn [run] in Hr. cbn [resolve_all] in Hres.
    destruct (resolve1 named all tok) as [a|e1] eqn:E1; cbn [bind] in Hres; [|discriminate].
    destruct (resolve_all named all toks) as [rt|e2] eqn:E2; cbn [bind] in Hres; [|discriminate].
    injection Hres as <-.
    destruct (step names tok st) as [st1|] eqn:E; [|discriminate].
    destruct tok as [r0|k| | |mn mx g|plain nm]; cbn [step] in E; cbn [resolve1] in E1;
      cbn [bar_outside] in Hb.
    + injection E1 as <-. cbn [app parse] in H. inversion E; subst st1. clear E.
      apply (IH _ _ _ _ _ _ _ _ Hp' Hlo) with (3 := Hr) (4 := Hb) (5 := eq_refl) (6 := H);
        [|exact Hd].
      apply (frames_ok_cons _ _ (quant_ok st)); [exact Hf|].
      cbn [tok_plain] in Ht. unfold above. rewrite Ht. constructor.
    + injection E1 as <-. cbn [app] in H. inversion E; subst st1. clear E.
      assert (Hf' : forall fk, kind_above lo fk ->
                frames_ok lo base false [] [] ((fk, alts, cur) :: stack)).
      { intros fk Hk. cbn [frames_ok]. repeat split; auto.
        apply (frames_ok_weaken _ _ _ _ _ _ Hf). }
      destruct k as [| |neg|neg|n]; cbn [parse] in H.
      * apply (IH _ _ _ _ _ _ _ _ Hp' (Nat.le_trans _ _ _ Hlo (Nat.le_succ_diag_r _)))
          with (3 := Hr) (4 := Hb) (5 := eq_refl) (6 := H);
          [apply Hf'; exact Hlo | cbn; now rewrite Hd].
      * apply (IH _ _ _ _ _ _ _ _ Hp' Hlo) with (3 := Hr) (4 := Hb) (5 := eq_refl) (6 := H);
          [apply Hf'; exact I | cbn; now rewrite Hd].
      * apply (IH _ _ _ _ _ _ _ _ Hp' Hlo) with (3 := Hr) (4 := Hb) (5 := eq_refl) (6 := H);
          [apply Hf'; exact I | cbn; now rewrite Hd].
      * apply (IH _ _ _ _ _ _ _ _ Hp' Hlo) with (3 := Hr) (4 := Hb) (5 := eq_refl) (6 := H);
          [apply Hf'; exact I | cbn; now rewrite Hd].
      * apply (IH _ _ _ _ _ _ _ _ Hp' (Nat.le_trans _ _ _ Hlo (Nat.le_succ_diag_r _)))
          with (3 := Hr) (4 := Hb) (5 := eq_refl) (6 := H);
          [apply Hf'; exact Hlo | cbn; now rewrite Hd].
    + injection E1 as <-. cbn [app parse] in H.
      destruct stack as [|[[fk alts0] cur0] stack']; [discriminate|].
      rewrite Hd in E. cbn [frames_of map fst] in E. inversion E; subst st1. clear E.
      cbn [frames_ok] in Hf. destruct Hf as (Ha & Hc & Hk & Hf).
      cbn [length Nat.pred] in Hb.
      apply (IH _ _ _ _ _ _ _ _ Hp' Hlo) with (3 := Hr) (4 := Hb) (5 := eq_refl) (6 := H);
        [|reflexivity].
      apply (frames_ok_cons _ _ false); [exact Hf|].
      apply above_wrap; [exact Hk | now apply above_close_frame].
    + injection E1 as <-. cbn [app parse] in H. inversion E; subst st1. clear E.
      destruct stack as [|[[fk alts0] cur0] stack']; [discriminate|].
      cbn [length Nat.eqb orb] in Hb.
      cbn [frames_ok] in Hf. destruct Hf as (Ha & Hc & Hk & Hf).
      apply (IH _ _ _ _ _ _ _ _ Hp' Hlo) with (3 := Hr) (4 := Hb) (5 := eq_refl) (6 := H);
        [|exact Hd].
      cbn [frames_ok]. repeat split; auto.
      constructor; [|exact Ha]. apply above_seq_of. now apply Forall_rev.
    + injection E1 as <-. cbn [app parse] in H.
      destruct (quant_ok st) eqn:Eq; cbn [andb] in E; [|discriminate].
      destruct (bounds_ok mn mx) eqn:Eb; [|discriminate]. inversion E; subst st1. clear E.
      destruct cur as [|a cur']; [discriminate|].
      rewrite andb_true_r in H. destruct (quantifiable a); [|discriminate].
      apply (IH _ _ _ _ _ _ _ _ Hp' Hlo) with (3 := Hr) (4 := Hb) (5 := eq_refl) (6 := H);
        [|exact Hd].
      now apply frames_ok_quant.
    + cbn [tok_plain] in Ht. rewrite Hnamed in E1. destruct names as [|n0 ns].
      * cbn [length Nat.eqb negb] in E1. injection E1 as <-. inversion E; subst st1. clear E.
        rewrite parse_terms in H.
        apply (IH _ _ _ _ _ _ _ _ Hp' Hlo) with (3 := Hr) (4 := Hb) (5 := eq_refl) (6 := H);
          [|exact Hd].
        now apply frames_ok_terms.
      * cbn [length Nat.eqb negb] in E1. destruct nm as [name|e0]; [|discriminate].
        destruct (existsb _ _); [|discriminate]. inversion E; subst st1. clear E.
        destruct (name_index name all 1) as [i|]; [|discriminate].
        injection E1 as <-. cbn [app parse] in H.
        apply (IH _ _ _ _ _ _ _ _ Hp' Hlo) with (3 := Hr) (4 := Hb) (5 := eq_refl) (6 := H);
          [|exact Hd].
        apply (frames_ok_cons _ _ (quant_ok st)); [exact Hf|]. constructor.
Qed.

End Shape.

Lemma lex_full ng d path ptoks :
  lex ng 0 path = Ok ptoks ->
  lex ng 0 (str "^(https?:\/\/" ++ escapeDomainPattern d ++ str ")"
              ++ path ++ str "(\?.*)?$")
  = Ok (wrapper_tokens ++ flat_map tok1 d ++ TClose :: ptoks ++ query_tokens).
Proof.
  intros Hp.
  replace (str "^(https?:\/\/" ++ escapeDomainPattern d ++ str ")" ++ path ++ str "(\?.*)?$")
    with ((str "^(https?:\/\/" ++ escapeDomainPattern d)
            ++ ch ")" :: (path ++ ch "(" :: str "\?.*)?$"))
    by (now rewrite <- !app_assoc).
  assert (Hd : lex ng 0 (str "^(https?:\/\/" ++ escapeDomainPattern d)
               = Ok (wrapper_tokens ++ flat_map tok1 d)).
  { now rewrite lex_protocol_group, escapeDomainPattern_spec, lex_wild. }
  rewrite (lex_app _ _ (or_intror eq_refl) ng _ _ _ (le_n _) Hd).
  rewrite lex_cons.
  change (lex1 ng (ch ")") (path ++ ch "(" :: str "\?.*)?$")) with (@Ok (token * nat) (TClose, 0)).
  cbn [bind fst snd skipn].
  rewrite (lex_app _ _ (or_introl eq_refl) ng _ _ _ (le_n _) Hp).
  rewrite lex_query. cbn [bind]. now rewrite <- app_assoc.
Qed.

Lemma count_groups_app a b : count_groups (a ++ b) = count_groups a + count_groups b.
Proof. unfold count_groups. now rewrite filter_app, length_app. Qed.

Lemma group_names_app a b : group_names (a ++ b) = group_names a ++ group_names b.
Proof. unfold group_names. apply flat_map_app. Qed.

(** The names of the expression of a rule are those of its path pattern. *)
Lemma group_names_full d ptoks :
  group_names (wrapper_tokens ++ flat_map tok1 d ++ TClose :: ptoks ++ query_tokens)
  = group_names ptoks.
Proof.
  rewrite !group_names_app. change (TClose :: ptoks ++ query_tokens)
    with ([TClose] ++ ptoks ++ query_tokens).
  rewrite !group_names_app. rewrite (group_names_simple _ (simple_wild d)).
  cbn. now rewrite app_nil_r.
Qed.

Lemma resolve_all_full named all d ptoks ptoks' :
  resolve_all named all (ptoks ++ query_tokens) = Ok ptoks' ->
  resolve_all named all (wrapper_tokens ++ flat_map tok1 d ++ TClose :: ptoks ++ query_tokens)
  = Ok (wrapper_tokens ++ flat_map tok1 d ++ TClose :: ptoks').
Proof.
  intros H.
  replace (wrapper_tokens ++ flat_map tok1 d ++ TClose :: ptoks ++ query_tokens)
    with ((wrapper_tokens ++ flat_map tok1 d ++ [TClose]) ++ (ptoks ++ query_tokens))
    by (now rewrite <- !app_assoc).
  rewrite resolve_all_app, H, resolve_all_simple.
  - cbn [bind]. now rewrite <- !app_assoc.
  - rewrite !forallb_app, simple_wild. reflexivity.
Qed.

(** The expression of a rule whose path pattern is well formed and has no
    alternative outside its groups: the start of the input, the group of the
    domain, then terms without group 1. *)
Lemma full_regex_shape d path st :
  run_text 0 (seen st) path start = Some st ->
  frames st = [] -> has_duplicate (seen st) = false -> top_bar st = false ->
  exists re,
    RegExp_new (str "^(https?:\/\/" ++ escapeDomainPattern d ++ str ")"
                  ++ path ++ str "(\?.*)?$") false = Ok re
    /\ wrapper_first re = true.
Proof.
  intros H Hd Hdup Hb. unfold RegExp_new.
  assert (H0 := H). unfold run_text in H0.
  destruct (lex 0 0 path) as [ptoks0|e] eqn:E0; [|discriminate]. clear H0.
  rewrite (lex_full 0 d path ptoks0 E0). cbn [bind].
  set (ng := count_groups (wrapper_tokens ++ flat_map tok1 d ++ TClose :: ptoks0 ++ query_tokens)).
  assert (Hng : 1 <= ng).
  { subst ng. rewrite count_groups_app. cbn. lia. }
  rewrite (run_text_groups 0 ng _ _ _ _ (le_n _)) in H. unfold run_text in H.
  destruct (lex ng 0 path) as [ptoks|e] eqn:E; [|discriminate].
  rewrite (lex_full ng d path ptoks E). cbn [bind].
  set (ftoks := wrapper_tokens ++ flat_map tok1 d ++ TClose :: ptoks ++ query_tokens).
  pose proof (run_seen _ _ _ _ H) as Hs. cbn [seen app start] in Hs.
  assert (Hn : group_names ftoks = seen st).
  { subst ftoks. now rewrite group_names_full. }
  assert (Hnames : forall name,
             existsb (jseqb name) (seen st)
             = match name_index name ftoks 1 with Some _ => true | None => false end).
  { intros name. rewrite <- Hn. apply name_index_names. }
  unfold resolve. rewrite Hn, Hdup.
  set (named := negb (Nat.eqb (length (seen st)) 0)).
  assert (Hrun : exists st', run (seen st) (ptoks ++ query_tokens) start = Some st'
                             /\ frames st' = [] /\ top_bar st' = false).
  { rewrite run_app, H. destruct st as [fs q b sn]. cbn [frames top_bar seen] in *. subst fs b.
    destruct q; cbn; eauto. }
  destruct Hrun as (st' & Hrun & Hd' & Hb').
  destruct (resolve_all named ftoks (ptoks ++ query_tokens)) as [ptoks'|e] eqn:Er.
  2:{ exfalso.
      pose proof (resolve_throw_run ftoks (seen st) named Hnames eq_refl _ _ start Er).
      congruence. }
  assert (Hres : resolve_all named ftoks ftoks
                 = Ok (wrapper_tokens ++ flat_map tok1 d ++ TClose :: ptoks')).
  { unfold ftoks at 2. now apply resolve_all_full. }
  rewrite Hres. cbn [bind].
  unfold wrapper_tokens. cbn [app parse quantifiable bounds_ok andb Nat.leb].
  rewrite parse_wild. cbn [parse].
  set (D := wrap (FCapture 1) _).
  pose proof (parse_run ftoks (seen st) named Hnames eq_refl _ _ 2 [] [D; RBol] [] false []
                Er) as P.
  destruct (parse ptoks' 2 [] [D; RBol] []) as [r|e] eqn:Ep.
  - cbn [bind]. eexists. split; [reflexivity|].
    pose proof (run_top_bar _ _ _ _ Hrun) as Htb. rewrite Hb' in Htb.
    cbn [start top_bar frames length orb] in Htb. symmetry in Htb.
    destruct (parse_shape ftoks (seen st) named eq_refl 2 [D; RBol] (ptoks ++ query_tokens)
                ptoks' 2 [] [D; RBol] [] start st' r) as (new & -> & Hnew); auto.
    + apply Forall_app. split; [exact (lex_plain_terms _ _ _ _ E)|].
      repeat constructor.
    + cbn [frames_ok quant_ok start]. split; [reflexivity|]. exists []. repeat split; auto.
      discriminate.
    + unfold wrapper_first. cbn [re_ngroups re_ast rev app seq_of fold_right].
      apply andb_true_iff. split; [now apply Nat.leb_le|].
      subst D. cbn [wrap]. fold (seq_of new). apply negb_true_iff.
      destruct (existsb (Nat.eqb 1) (groups_of (seq_of new))) eqn:Ex; [|reflexivity].
      apply existsb_exists in Ex. destruct Ex as (i & Hi & Ei). apply Nat.eqb_eq in Ei. subst i.
      rewrite groups_of_seq_of in Hi. apply in_flat_map in Hi. destruct Hi as (t & Ht & Hi).
      rewrite Forall_forall in Hnew. specialize (Hnew t Ht). unfold above in Hnew.
      rewrite Forall_forall in Hnew. specialize (Hnew 1 Hi). lia.
  - exfalso. cbn [frames_of map head_quantifiable] in P.
    destruct (run_more _ _ _ _ Hrun) as [q Hq].
    assert (Hq' : quantifiable D = true) by reflexivity. rewrite Hq' in P.
    apply (P _ Hq). cbn [allow_quant frames]. exact Hd'.
Qed.

(** ** Rules that never throw *)

Lemma never_throws message p :
  validateRegexPattern message (pathPattern p) = Ok None ->
  top_level_alternative (pathPattern p) = false ->
  forall url, exists v, matchPattern url p = Ok v.
Proof.
  intros Hv Ht. apply validated_path in Hv. destruct Hv as [_ Hv].
  apply RegExp_new_run in Hv. destruct Hv as (st & Hst & Hd & Hdup).
  assert (Hb : top_bar st = false).
  { unfold top_level_alternative in Ht. unfold run_text in Hst.
    destruct (lex 0 0 (pathPattern p)) as [toks|e]; [|discriminate].
    rewrite (run_top_bar _ _ _ _ Hst). cbn [start top_bar frames length orb]. exact Ht. }
  destruct (full_regex_shape (domainPattern p) _ _ Hst Hd Hdup Hb) as (re & Hre & Hw).
  exact (wrapper_first_total p re Hre Hw).
Qed.

(** ** The presets, the dialog and the paste handler *)

Lemma presets_checked : forallb (fun kp => preset_ok (snd kp)) PRESET_PATTERNS = true.
Proof. vm_compute. reflexivity. Qed.

Lemma validateRegexPattern_message message message' path :
  validateRegexPattern message path = Ok None -> validateRegexPattern message' path = Ok None.
Proof.
  unfold validateRegexPattern. destruct (falsy path || falsy (String_trim path)); [discriminate|].
  destruct (RegExp_new path false) as [re|e]; [reflexivity|]. destruct e; discriminate.
Qed.

Lemma formatLink_ok_paste clipboard patterns :
  (forall s, exists v, formatLink s patterns = Ok v) ->
  exists a, on_editor_paste clipboard patterns = Ok a.
Proof.
  intros H. unfold on_editor_paste. destruct clipboard as [s|]; [|eauto].
  destruct (falsy s); [eauto|]. destruct (H s) as [v ->]. cbn [bind].
  destruct v as [text|]; [|eauto]. destruct (falsy text); eauto.
Qed.

(** X13: rules whose path pattern passes [validateRegexPattern] and has no
    alternative outside its groups never throw, whatever their domain
    pattern and template, and whether or not the path pattern has named
    groups, references by name or lookbehind: [formatLink] returns for every
    text, and so does the paste handler. *)
Theorem rules_without_top_level_alternative_never_throw message patterns :
  (forall p, In p patterns ->
     validateRegexPattern message (pathPattern p) = Ok None
     /\ top_level_alternative (pathPattern p) = false) ->
  (forall s, exists v, formatLink s patterns = Ok v)
  /\ (forall clipboard, exists a, on_editor_paste clipboard patterns = Ok a).
Proof.
  intros H.
  assert (Hf : forall s, exists v, formatLink s patterns = Ok v).
  { intros s. unfold formatLink. destruct (falsy _); [eauto|].
    destruct (RegExp_test _ _); [eauto|]. apply try_patterns_ok.
    intros p Hp. destruct (H p Hp) as [Hv Ht]. exact (never_throws message p Hv Ht s). }
  split; [exact Hf|]. intros clipboard. now apply formatLink_ok_paste.
Qed.

Lemma rules_without_top_level_alternative_never_throw_witness :
  (forall s, exists v,
      formatLink s [page_rule; github_rule; named_rule; lookbehind_rule] = Ok v)
  /\ (forall clipboard, exists a,
         on_editor_paste clipboard [page_rule; github_rule; named_rule; lookbehind_rule]
         = Ok a).
Proof.
  apply (rules_without_top_level_alternative_never_throw (fun _ => str "Invalid regular expression")).
  intros p [<- | [<- | [<- | [<- | []]]]]; split; vm_compute; reflexivity.
Defined.

Lemma preset_ok_spec p :
  preset_ok p = true ->
  String_trim (Preset.name p) <> [] /\ String_trim (Preset.domainPattern p) <> []
  /\ (forall message, validateRegexPattern message (Preset.pathPattern p) = Ok None)
  /\ validateOutputTemplate (Preset.outputTemplate p) = None
  /\ sanitizeDomain (Preset.domainPattern p) = Preset.domainPattern p
  /\ top_level_alternative (Preset.pathPattern p) = false.
Proof.
  unfold preset_ok. rewrite !andb_true_iff. intros [[[[[H1 H2] H3] H4] H5] H6].
  repeat split.
  - intros E. rewrite E in H1. discriminate.
  - intros E. rewrite E in H2. discriminate.
  - intros message. apply (validateRegexPattern_message (fun _ => [])).
    destruct (validateRegexPattern _ _) as [[v|]|e]; try discriminate. reflexivity.
  - destruct (validateOutputTemplate _); [discriminate | reflexivity].
  - now apply jseqb_eq.
  - now apply negb_true_iff.
Qed.

Lemma preset_in_table key p : In (key, p) PRESET_PATTERNS -> preset_ok p = true.
Proof.
  intros H. pose proof presets_checked as Hc. rewrite forallb_forall in Hc.
  exact (Hc _ H).
Qed.

(** X14: every preset of the table, made into a rule, passes the checks
    of the Save button as it is, and [sanitizeDomain] leaves its domain
    pattern as it is. *)
Theorem presets_accepted_by_dialog message key p newId :
  In (key, p) PRESET_PATTERNS ->
  savePattern message (pattern_of_preset newId p) = Saved (pattern_of_preset newId p)
  /\ sanitizeDomain (Preset.domainPattern p) = Preset.domainPattern p.
Proof.
  intros H. apply preset_in_table, preset_ok_spec in H.
  destruct H as (Hn & Hd & Hv & Ht & Hs & _). split; [|exact Hs].
  unfold savePattern, pattern_of_preset.
  cbn [name domainPattern pathPattern outputTemplate].
  destruct (String_trim (Preset.name p)); [congruence|].
  destruct (String_trim (Preset.domainPattern p)); [congruence|]. cbn [falsy].
  rewrite (Hv message), Ht. reflexivity.
Qed.

Lemma presets_accepted_by_dialog_witness :
  savePattern (fun _ => str "Invalid regular expression")
    (pattern_of_preset (str "pattern_1_abc")
       (preset "npm Packages" "npmjs.com" "\/package\/([^?]+)" "[npm: ${1}](${url})"
          "Formats npm package links (e.g., npm: lodash)"))
  = Saved (pattern_of_preset (str "pattern_1_abc")
       (preset "npm Packages" "npmjs.com" "\/package\/([^?]+)" "[npm: ${1}](${url})"
          "Formats npm package links (e.g., npm: lodash)"))
  /\ sanitizeDomain (str "npmjs.com") = str "npmjs.com".
Proof.
  apply (presets_accepted_by_dialog _ "npm"%string).
  unfold PRESET_PATTERNS. do 18 right. left. reflexivity.
Defined.

(** X15: rules that have the path pattern of a preset never throw,
    whatever domain pattern and template the user gave them: [formatLink] and
    the paste handler return for every text. *)
Theorem preset_rules_never_throw patterns :
  (forall p, In p patterns ->
     exists key q, In (key, q) PRESET_PATTERNS /\ pathPattern p = Preset.pathPattern q) ->
  (forall s, exists v, formatLink s patterns = Ok v)
  /\ (forall clipboard, exists a, on_editor_paste clipboard patterns = Ok a).
Proof.
  intros H.
  assert (Hf : forall s, exists v, formatLink s patterns = Ok v).
  { intros s. unfold formatLink. destruct (falsy _); [eauto|].
    destruct (RegExp_test _ _); [eauto|]. apply try_patterns_ok.
    intros p Hp. destruct (H p Hp) as (key & q & Hq & E).
    apply preset_in_table, preset_ok_spec in Hq. destruct Hq as (_ & _ & Hv & _ & _ & Ht).
    rewrite <- E in Hv, Ht. exact (never_throws (fun _ => []) p (Hv _) Ht s). }
  split; [exact Hf|]. intros clipboard. now apply formatLink_ok_paste.
Qed.

Lemma preset_rules_never_throw_witness :
  (forall s, exists v, formatLink s [createJiraPattern "jira.mycompany.com"] = Ok v)
  /\ (forall clipboard,
        exists a, on_editor_paste clipboard [createJiraPattern "jira.mycompany.com"] = Ok a).
Proof.
  apply (preset_rules_never_throw [createJiraPattern "jira.mycompany.com"]).
  intros p [<- | []]. eexists "jira"%string, _. split; [left; reflexivity | reflexivity].
Defined.

(** X16: for a URL without white space, the test field of the dialog
    shows a result exactly when pasting that URL with the rule alone in the
    list replaces the selection, and then with the same text. *)
Theorem preview_agrees_with_paste url pattern text :
  single_token url = true ->
  updateTestResult url pattern = TestMatch text
  <-> on_editor_paste (Some url) [pattern] = Ok (ReplaceSelection text).
Proof.
  intros Hs. unfold updateTestResult, on_editor_paste.
  assert (Hs' := Hs). unfold single_token in Hs'. apply andb_true_iff in Hs'.
  destruct Hs' as [Hne Hws]. apply negb_true_iff in Hne, Hws.
  rewrite (trim_id url (fun c => no_whitespace_in url c Hws)), Hne.
  rewrite (gate_open _ _ Hs). cbn [try_patterns].
  destruct (matchPattern url pattern) as [[v|]|e]; cbn [bind].
  - destruct v as [|c v]; cbn [falsy]; split; intros H; inversion H; reflexivity.
  - split; discriminate.
  - destruct e; split; discriminate.
Qed.

Lemma preview_agrees_with_paste_witness :
  updateTestResult page_url page_rule = TestMatch (str "[123](https://example.com/page/123)")
  <-> on_editor_paste (Some page_url) [page_rule]
      = Ok (ReplaceSelection (str "[123](https://example.com/page/123)")).
Proof.
  apply (preview_agrees_with_paste page_url page_rule). vm_compute. reflexivity.
Defined.

(** The alternatives that count are those outside the groups and the
    classes; an escaped bar is a character. *)
Example top_level_alternative_examples :
  top_level_alternative (str "\/a|.*") = true
  /\ top_level_alternative (str "\/(issues|pull)\/(\d+)") = false
  /\ top_level_alternative (str "\/[a|b]\|c") = false.
Proof. repeat split; vm_compute; reflexivity. Qed.
